(** * The Cloudflare load-balancer resource

    A shallow embedding of [cloudflare/resource_cloudflare_load_balancer.go]:
    the geo-pool codec ([expandGeoPools], [flattenGeoPools]) and the five
    lifecycle handlers (Create, Read, Update, Delete, Import), followed by the
    properties the specification states about them.

    Conventions.
    - A Go [string] is a [string] (a sequence of bytes); a Go [int] is a [Z];
      a [[]string] is a [list string]; a [map[string][]string] is a
      [gmap string (list string)].  A nil map or slice is identified with the
      empty one: the handlers only read, range over and assign such values.
    - A pointer ([*bool], [*time.Time]) is an [option]; dereferencing
      [None] panics, and so does a failed type assertion.
    - The order of a [range] over a map is picked by the Go runtime, anew
      each time; the runtime is a collaborator with a state of its own.
    - A handler is a computation over the resource data [d], the remote
      system behind the API client and the runtime.  It returns, fails with
      an [error], or panics, and it emits the list of remote calls it made.
    - Log lines are not modelled. *)

From Stdlib Require Import ZArith Ascii.
From stdpp Require Import gmap strings list fin_maps pretty sorting.

Local Open Scope Z_scope.

(** ** Errors *)

(** The two location kinds the codec is called with: the literals ["pop"]
    and ["region"] at the four call sites. *)
Inductive geoType := pop | region.

Global Instance geoType_eq_dec : EqDecision geoType.
Proof. solve_decision. Defined.

(** The [error] values the handlers build.  An error that comes out of the
    API client is opaque: only its text, [err.Error()], is known. *)
Inductive error :=
  | ErrClient (text : string)
      (* an error returned by a method of [cloudflare.API] *)
  | ErrZoneRequired
      (* "either zone name or ID must be provided" *)
  | ErrFindingZone (zoneName : string) (cause : error)
      (* "error finding zone %q: %s" *)
  | ErrWrap (cause : error) (message : string)
      (* errors.Wrap(cause, message) *)
  | ErrNoID
      (* "failed to find id in Create response; resource was empty" *)
  | ErrDuplicateLocation (g : geoType) (location : string)
      (* "duplicate entry specified for %s pool in location %q. each
         location must only be specified once" *)
  | ErrDeleting (cause : error)
      (* "error deleting Cloudflare Load Balancer: %s" *)
  | ErrInvalidID (id : string)
      (* invalid id specified, should be in format zoneName/loadBalancerID *)
  | ErrFindingZoneName (zoneName : string) (cause : error)
      (* "error finding zoneName %q: %s" *)
  | ErrSet (text : string)
      (* an error returned by [d.Set] *).

(** How a function that can fail ends: with its value, with an [error],
    or in a panic. *)
Inductive result (A : Type) :=
  | Ok (a : A)
  | Err (e : error)
  | Panic.
Global Arguments Ok {A} a.
Global Arguments Err {A} e.
Global Arguments Panic {A}.

(** ** Go's [strings] package, as far as the handlers use it *)

Module go_strings.

(** [strings.HasPrefix(s, prefix)]. *)
Fixpoint HasPrefix (s prefix : string) : bool :=
  match prefix, s with
  | EmptyString, _ => true
  | String _ _, EmptyString => false
  | String b prefix', String a s' =>
      if decide (a = b) then HasPrefix s' prefix' else false
  end.

(** [strings.Contains(s, substr)]: [substr] occurs at some offset of [s]. *)
Fixpoint Contains (s substr : string) : bool :=
  HasPrefix s substr ||
  match s with
  | EmptyString => false
  | String _ s' => Contains s' substr
  end.

(** [strings.Cut(s, sep)] for a one-byte separator: the text before and
    after the first [sep] of [s], if there is one. *)
Fixpoint Cut (s : string) (sep : ascii) : option (string * string) :=
  match s with
  | EmptyString => None
  | String a s' =>
      if decide (a = sep) then Some (EmptyString, s')
      else match Cut s' sep with
           | Some (before, after) => Some (String a before, after)
           | None => None
           end
  end.

(** [strings.SplitN(s, sep, n)] for a one-byte separator and [n >= 0]: at
    most [n] pieces, the last one being the unsplit remainder. *)
Fixpoint SplitN (s : string) (sep : ascii) (n : nat) : list string :=
  match n with
  | O => []
  | S O => [s]
  | S n' =>
      match Cut s sep with
      | Some (before, after) => before :: SplitN after sep n'
      | None => [s]
      end
  end.

End go_strings.

(** ** The provider SDK's [schema.Set], for geo-pool records *)

(** One element of [pop_pools] or [region_pools]: a
    [map[string]interface{}] with two keys, ["pop"] or ["region"] for the
    location and ["pool_ids"] for the pools.  [geoKey] is the key the
    location is stored under. *)
Record geoConf := GeoConf {
  geoKey : geoType;
  location : string;
  pool_ids : list string;
}.

(** [locationConfig[geoType].(string)]: the location, when it is stored
    under the key [geoType].  A missing key yields nil, on which the type
    assertion panics: that is [None]. *)
Definition location_under (geoType : geoType) (locationConfig : geoConf)
  : option string :=
  if decide (geoKey locationConfig = geoType) then Some (location locationConfig)
  else None.

(** The two element schemas. *)
Inductive Resource := popPoolElem | regionPoolElem.

Definition localPoolElems (g : geoType) : Resource :=
  match g with pop => popPoolElem | region => regionPoolElem end.

Module schema.

(** A [schema.Set] is its field [m]: the items keyed by the decimal text
    of their hash code. *)
Abbreviation Set_ := (gmap string geoConf).

(** [SchemaSetFunc]: the hash code of an item. *)
Abbreviation SchemaSetFunc := (geoConf → Z).

(** A Go [int], 64 bits wide: [z] after wrap-around. *)
Definition int (z : Z) : Z := (z + 2 ^ 63) mod 2 ^ 64 - 2 ^ 63.

(** [Set.hash]: the key under which an item is stored, [strconv.Itoa] of
    its hash code, which [code = -code] has made nonnegative unless it is
    the least [int]. *)
Definition hash (F : SchemaSetFunc) (item : geoConf) : string :=
  let code := int (F item) in
  let code := if decide (code < 0) then int (- code) else code in
  pretty code.

(** [Set.add]: an item whose key is taken is dropped. *)
Definition add (F : SchemaSetFunc) (s : Set_) (item : geoConf) : Set_ :=
  let code := hash F item in
  match s !! code with
  | Some _ => s
  | None => <[code := item]> s
  end.

(** [schema.NewSet(f, items)]. *)
Definition NewSet (F : SchemaSetFunc) (items : list geoConf) : Set_ :=
  foldl (add F) ∅ items.

(** The order of [sort.Strings] on the keys: byte by byte. *)
Definition code_le (a b : string * geoConf) : Prop := String.leb a.1 b.1.

Global Instance code_le_dec a b : Decision (code_le a b).
Proof. unfold code_le. apply _. Defined.

(** [Set.listCode], with the item of each key: the keys sorted as
    strings. *)
Definition listCode (s : Set_) : list (string * geoConf) :=
  merge_sort code_le (map_to_list s).

(** [Set.List]: the items, in the order of their sorted keys. *)
Definition List (s : Set_) : list geoConf := (listCode s).*2.

(** [Set.Len]. *)
Definition Len (s : Set_) : nat := size s.

(** A set built by the SDK with the hash function [F]: every item sits
    under its own key. *)
Definition built_with (F : SchemaSetFunc) (s : Set_) : Prop :=
  ∀ code item, s !! code = Some item → code = hash F item.

End schema.

(** ** The schema of the resource *)

(** [schema.ValueType], as far as the resource uses it. *)
Inductive ValueType := TypeString | TypeBool | TypeInt | TypeList | TypeSet.

Global Instance ValueType_eq_dec : EqDecision ValueType.
Proof. solve_decision. Defined.

(** The validation functions the schema installs. *)
Inductive SchemaValidateFunc :=
  | StringLenBetween (min max : Z)
  | StringInSlice (valid : list string) (ignoreCase : bool).

(** A default value. *)
Inductive SchemaDefault :=
  | DefaultString (s : string)
  | DefaultBool (b : bool).

(** The [Elem] of a list or set: an element schema or a nested resource. *)
Inductive SchemaElem :=
  | ElemSchema (type : ValueType) (validate : option SchemaValidateFunc)
  | ElemResource (resource : Resource).

(** [schema.Schema], with the attributes the resource sets; an attribute
    that a field leaves out has its zero value. *)
Record Schema := {
  Type_ : ValueType;
  Optional : bool;
  Required : bool;
  Computed : bool;
  ForceNew : bool;
  Deprecated : bool;
  Default : option SchemaDefault;
  ValidateFunc : option SchemaValidateFunc;
  ConflictsWith : list string;
  MinItems : nat;
  Elem : option SchemaElem;
}.

(** A field of the given type with every attribute at its zero value. *)
Definition field (type : ValueType) : Schema :=
  {| Type_ := type; Optional := false; Required := false; Computed := false;
     ForceNew := false; Deprecated := false; Default := None;
     ValidateFunc := None; ConflictsWith := []; MinItems := 0; Elem := None |}.

Definition optional (f : Schema) : Schema :=
  {| Type_ := Type_ f; Optional := true; Required := Required f;
     Computed := Computed f; ForceNew := ForceNew f; Deprecated := Deprecated f;
     Default := Default f; ValidateFunc := ValidateFunc f;
     ConflictsWith := ConflictsWith f; MinItems := MinItems f; Elem := Elem f |}.
Definition required (f : Schema) : Schema :=
  {| Type_ := Type_ f; Optional := Optional f; Required := true;
     Computed := Computed f; ForceNew := ForceNew f; Deprecated := Deprecated f;
     Default := Default f; ValidateFunc := ValidateFunc f;
     ConflictsWith := ConflictsWith f; MinItems := MinItems f; Elem := Elem f |}.
Definition computed (f : Schema) : Schema :=
  {| Type_ := Type_ f; Optional := Optional f; Required := Required f;
     Computed := true; ForceNew := ForceNew f; Deprecated := Deprecated f;
     Default := Default f; ValidateFunc := ValidateFunc f;
     ConflictsWith := ConflictsWith f; MinItems := MinItems f; Elem := Elem f |}.
Definition force_new (f : Schema) : Schema :=
  {| Type_ := Type_ f; Optional := Optional f; Required := Required f;
     Computed := Computed f; ForceNew := true; Deprecated := Deprecated f;
     Default := Default f; ValidateFunc := ValidateFunc f;
     ConflictsWith := ConflictsWith f; MinItems := MinItems f; Elem := Elem f |}.
Definition deprecated (f : Schema) : Schema :=
  {| Type_ := Type_ f; Optional := Optional f; Required := Required f;
     Computed := Computed f; ForceNew := ForceNew f; Deprecated := true;
     Default := Default f; ValidateFunc := ValidateFunc f;
     ConflictsWith := ConflictsWith f; MinItems := MinItems f; Elem := Elem f |}.
Definition with_default (v : SchemaDefault) (f : Schema) : Schema :=
  {| Type_ := Type_ f; Optional := Optional f; Required := Required f;
     Computed := Computed f; ForceNew := ForceNew f; Deprecated := Deprecated f;
     Default := Some v; ValidateFunc := ValidateFunc f;
     ConflictsWith := ConflictsWith f; MinItems := MinItems f; Elem := Elem f |}.
Definition validated (v : SchemaValidateFunc) (f : Schema) : Schema :=
  {| Type_ := Type_ f; Optional := Optional f; Required := Required f;
     Computed := Computed f; ForceNew := ForceNew f; Deprecated := Deprecated f;
     Default := Default f; ValidateFunc := Some v;
     ConflictsWith := ConflictsWith f; MinItems := MinItems f; Elem := Elem f |}.
Definition conflicts_with (keys : list string) (f : Schema) : Schema :=
  {| Type_ := Type_ f; Optional := Optional f; Required := Required f;
     Computed := Computed f; ForceNew := ForceNew f; Deprecated := Deprecated f;
     Default := Default f; ValidateFunc := ValidateFunc f;
     ConflictsWith := keys; MinItems := MinItems f; Elem := Elem f |}.
Definition min_items (n : nat) (f : Schema) : Schema :=
  {| Type_ := Type_ f; Optional := Optional f; Required := Required f;
     Computed := Computed f; ForceNew := ForceNew f; Deprecated := Deprecated f;
     Default := Default f; ValidateFunc := ValidateFunc f;
     ConflictsWith := ConflictsWith f; MinItems := n; Elem := Elem f |}.
Definition elem (e : SchemaElem) (f : Schema) : Schema :=
  {| Type_ := Type_ f; Optional := Optional f; Required := Required f;
     Computed := Computed f; ForceNew := ForceNew f; Deprecated := Deprecated f;
     Default := Default f; ValidateFunc := ValidateFunc f;
     ConflictsWith := ConflictsWith f; MinItems := MinItems f; Elem := Some e |}.

(** Lines 27 to 127: the [Schema] map of [resourceCloudflareLoadBalancer]. *)
Definition resourceCloudflareLoadBalancer_Schema : gmap string Schema :=
  list_to_map [
     ("zone", deprecated (force_new (optional (field TypeString))));
     ("zone_id", computed (force_new (optional (field TypeString))));
     ("name", required (field TypeString));
     ("fallback_pool_id",
       validated (StringLenBetween 1 32) (required (field TypeString)));
     ("default_pool_ids",
       elem (ElemSchema TypeString (Some (StringLenBetween 1 32)))
         (min_items 1 (required (field TypeList))));
     ("session_affinity",
       validated (StringInSlice ["none"; "cookie"] false)
         (with_default (DefaultString "none") (optional (field TypeString))));
     ("proxied",
       conflicts_with ["ttl"]
         (with_default (DefaultBool false) (optional (field TypeBool))));
     ("enabled", with_default (DefaultBool true) (optional (field TypeBool)));
     ("ttl", conflicts_with ["proxied"] (computed (optional (field TypeInt))));
     ("description",
       validated (StringLenBetween 0 1024) (optional (field TypeString)));
     ("steering_policy",
       computed
         (validated (StringInSlice ["off"; "geo"; "dynamic_latency"; "random"; ""]
                       false)
            (optional (field TypeString))));
     ("pop_pools",
       elem (ElemResource popPoolElem) (computed (optional (field TypeSet))));
     ("region_pools",
       elem (ElemResource regionPoolElem) (computed (optional (field TypeSet))));
     ("created_on", computed (field TypeString));
     ("modified_on", computed (field TypeString)) ].

(** The type the schema declares for a key, if it declares the key. *)
Definition declared_type (key : string) : option ValueType :=
  Type_ <$> resourceCloudflareLoadBalancer_Schema !! key.

(** The keys the schema declares, by type. *)
Definition declared (type : ValueType) (key : string) : Prop :=
  declared_type key = Some type.

(** Lines 131 to 167: the [Schema] maps of [popPoolElem] and
    [regionPoolElem]. *)
Definition Resource_Schema (resource : Resource) : gmap string Schema :=
  match resource with
  | popPoolElem =>
      list_to_map [
        ("pop", required (field TypeString));
        ("pool_ids",
          elem (ElemSchema TypeString (Some (StringLenBetween 1 32)))
            (required (field TypeList))) ]
  | regionPoolElem =>
      list_to_map [
        ("region", required (field TypeString));
        ("pool_ids",
          elem (ElemSchema TypeString (Some (StringLenBetween 1 32)))
            (required (field TypeList))) ]
  end.

(** The Go string of a location kind: the key of the location in a
    record. *)
Definition geoType_string (g : geoType) : string :=
  match g with pop => "pop" | region => "region" end.

(** The keys of a record. *)
Definition geoConf_keys (item : geoConf) : gset string :=
  {[ geoType_string (geoKey item); "pool_ids" ]}.

(** The two set-valued fields of the resource, each with the location
    kind its records are expanded and flattened with: the call sites at
    lines 207 and 215, 273 and 281, 346 and 350. *)
Definition geo_fields : list (string * geoType) :=
  [("region_pools", region); ("pop_pools", pop)].

(** ** Helpers of the repository defined outside this file *)

(** Modelled from the spec: [expandInterfaceToStringList] is defined in
    another file of the repository.  The spec has expand take each record's
    pool-identifier list "preserving list order as given"; the helper copies
    the [[]interface{}] into a [[]string], element by element. *)
Definition expandInterfaceToStringList (ifaceList : list string) : list string :=
  foldl (λ strList v, strList ++ [v]) [] ifaceList.

(** Modelled from the spec: [flattenStringList] is defined in another file
    of the repository; the inverse copy, from [[]string] to
    [[]interface{}]. *)
Definition flattenStringList (strList : list string) : list string :=
  foldl (λ out v, out ++ [v]) [] strList.

(** ** The geo-pool codec *)

(** The loop of [expandGeoPools] over the remaining items [cfg], with the
    map built so far. *)
Fixpoint expandGeoPools_loop (geoType : geoType) (cfg : list geoConf)
    (expanded : gmap string (list string))
  : result (gmap string (list string)) :=
  match cfg with
  | [] => Ok expanded
  | locationConfig :: cfg' =>
      match location_under geoType locationConfig with
      | None => Panic
      | Some location =>
          match expanded !! location with
          | None =>
              expandGeoPools_loop geoType cfg'
                (<[location := expandInterfaceToStringList (pool_ids locationConfig)]>
                   expanded)
          | Some _ => Err (ErrDuplicateLocation geoType location)
          end
      end
  end.

Definition expandGeoPools (pool : schema.Set_) (geoType : geoType)
  : result (gmap string (list string)) :=
  let cfg := schema.List pool in
  expandGeoPools_loop geoType cfg ∅.

(** A set whose records all store their location under [geoType]. *)
Definition keyed (geoType : geoType) (pool : schema.Set_) : Prop :=
  ∀ code item, pool !! code = Some item → geoKey item = geoType.

(** The entry of the map that expand makes of an item. *)
Definition entry_of (item : geoConf) : string * list string :=
  (location item, pool_ids item).

(** ** The resource data and the remote system *)

(** [schema.ResourceData]: the identifier and what [d.Get] returns for each
    key.  The schema fixes the type of every key, so the values are kept in
    one map per type; a key that is not set reads as the zero value. *)
Record ResourceData := {
  rd_id : string;
  rd_strings : gmap string string;
  rd_bools : gmap string bool;
  rd_ints : gmap string Z;
  rd_lists : gmap string (list string);
  rd_sets : gmap string schema.Set_;
}.

Definition with_id (v : string) (d : ResourceData) : ResourceData :=
  {| rd_id := v; rd_strings := rd_strings d; rd_bools := rd_bools d;
     rd_ints := rd_ints d; rd_lists := rd_lists d; rd_sets := rd_sets d |}.
Definition with_string (key v : string) (d : ResourceData) : ResourceData :=
  {| rd_id := rd_id d; rd_strings := <[key := v]> (rd_strings d);
     rd_bools := rd_bools d; rd_ints := rd_ints d; rd_lists := rd_lists d;
     rd_sets := rd_sets d |}.
Definition with_bool (key : string) (v : bool) (d : ResourceData) : ResourceData :=
  {| rd_id := rd_id d; rd_strings := rd_strings d;
     rd_bools := <[key := v]> (rd_bools d); rd_ints := rd_ints d;
     rd_lists := rd_lists d; rd_sets := rd_sets d |}.
Definition with_int (key : string) (v : Z) (d : ResourceData) : ResourceData :=
  {| rd_id := rd_id d; rd_strings := rd_strings d; rd_bools := rd_bools d;
     rd_ints := <[key := v]> (rd_ints d); rd_lists := rd_lists d;
     rd_sets := rd_sets d |}.
Definition with_list (key : string) (v : list string) (d : ResourceData)
  : ResourceData :=
  {| rd_id := rd_id d; rd_strings := rd_strings d; rd_bools := rd_bools d;
     rd_ints := rd_ints d; rd_lists := <[key := v]> (rd_lists d);
     rd_sets := rd_sets d |}.
Definition with_set (key : string) (v : schema.Set_) (d : ResourceData)
  : ResourceData :=
  {| rd_id := rd_id d; rd_strings := rd_strings d; rd_bools := rd_bools d;
     rd_ints := rd_ints d; rd_lists := rd_lists d;
     rd_sets := <[key := v]> (rd_sets d) |}.

(** [d.Get(key).(string)] and its siblings. *)
Definition Get_string (d : ResourceData) (key : string) : string :=
  default "" (rd_strings d !! key).
Definition Get_bool (d : ResourceData) (key : string) : bool :=
  default false (rd_bools d !! key).
Definition Get_int (d : ResourceData) (key : string) : Z :=
  default 0 (rd_ints d !! key).
Definition Get_list (d : ResourceData) (key : string) : list string :=
  default [] (rd_lists d !! key).
Definition Get_set (d : ResourceData) (key : string) : schema.Set_ :=
  default ∅ (rd_sets d !! key).

(** [d.GetOk(key)]: the value, and whether it differs from the zero value
    of its type. *)
Definition GetOk_string (d : ResourceData) (key : string) : string * bool :=
  let v := Get_string d key in (v, bool_decide (v ≠ "")).
Definition GetOk_int (d : ResourceData) (key : string) : Z * bool :=
  let v := Get_int d key in (v, bool_decide (v ≠ 0)).
Definition GetOk_set (d : ResourceData) (key : string) : schema.Set_ * bool :=
  let v := Get_set d key in (v, bool_decide (schema.Len v ≠ 0%nat)).

(** What lies outside the repository and is not fixed by it. *)
Class Externals := {
  (** [schema.HashResource(resource)], the set function of an element
      schema. *)
  HashResource : Resource → schema.SchemaSetFunc;
  (** Whether [d.Set(key, _)] fails on the data [d], and with which error. *)
  SetError : ResourceData → string → option error;
  (** [time.Time]. *)
  Time : Type;
  (** [t.Format(time.RFC3339Nano)]. *)
  FormatRFC3339Nano : Time → string;
}.

(** ** The Go runtime *)

(** Go leaves the order of a [range] over a map open: any enumeration of
    the entries is a possible visit. *)
Definition range_order (pools : gmap string (list string))
    (entries : list (string * list string)) : Prop :=
  entries ≡ₚ map_to_list pools.

(** The runtime, as far as the handlers meet it: it picks the order of
    every [range] over a map, and is free to pick another one the next
    time. *)
Class GoRuntime := {
  Runtime : Type;
  range : Runtime → gmap string (list string)
          → Runtime * list (string * list string);
  range_visits : ∀ rt pools, range_order pools (range rt pools).2;
}.

(** ** The geo-pool codec: flatten *)

(** The body of the loop of [flattenGeoPools]: the records appended for the
    entries [entries], in the order the [range] visits them. *)
Definition flattenGeoPools_records (geoType : geoType)
    (entries : list (string * list string)) : list geoConf :=
  foldl (λ flattened '(k, v),
           flattened ++ [ {| geoKey := geoType; location := k;
                             pool_ids := flattenStringList v |} ])
        [] entries.

(** [flattenGeoPools] when the [range] over the map visits [entries].  The
    order of the visit decides which of two records that share a key is
    kept. *)
Definition flattenGeoPools_in `{Externals} (entries : list (string * list string))
    (geoType : geoType) : schema.Set_ :=
  schema.NewSet (HashResource (localPoolElems geoType))
    (flattenGeoPools_records geoType entries).

(** [flattenGeoPools]: a step of the runtime, which picks the visit. *)
Definition flattenGeoPools `{Externals} `{GoRuntime}
    (pools : gmap string (list string)) (geoType : geoType) (rt : Runtime)
  : Runtime * schema.Set_ :=
  let '(rt', entries) := range rt pools in
  (rt', flattenGeoPools_in entries geoType).

(** ** The sets the SDK holds *)

(** The set function of a field, as [Schema.ZeroValue] picks it for a set
    whose schema has no [Set] attribute: [schema.HashResource] of the
    [Elem] resource. *)
Definition set_func `{Externals} (sch : Schema) : option schema.SchemaSetFunc :=
  match Type_ sch, Elem sch with
  | TypeSet, Some (ElemResource resource) => Some (HashResource resource)
  | _, _ => None
  end.

(** The set the SDK holds for the field [field] of the resource when the
    records [items] are declared. *)
Definition assignment_set `{Externals} (field : string) (items : list geoConf)
  : option schema.Set_ :=
  sch ← resourceCloudflareLoadBalancer_Schema !! field;
  F ← set_func sch;
  Some (schema.NewSet F items).

(** ** The API client *)

(** [cloudflare.LoadBalancer], with the fields the handlers touch. *)
Record LoadBalancer `{Externals} := {
  ID : string;
  CreatedOn : option Time;
  ModifiedOn : option Time;
  Description : string;
  Name : string;
  TTL : Z;
  FallbackPool : string;
  DefaultPools : list string;
  RegionPools : gmap string (list string);
  PopPools : gmap string (list string);
  Proxied : bool;
  Enabled : option bool;
  Persistence : string;
  SteeringPolicy : string;
}.

Section LoadBalancerFields.
Context `{Externals}.

Definition with_ID (v : string) (lb : LoadBalancer) : LoadBalancer :=
  {| ID := v; CreatedOn := CreatedOn lb; ModifiedOn := ModifiedOn lb;
     Description := Description lb; Name := Name lb; TTL := TTL lb;
     FallbackPool := FallbackPool lb; DefaultPools := DefaultPools lb;
     RegionPools := RegionPools lb; PopPools := PopPools lb;
     Proxied := Proxied lb; Enabled := Enabled lb;
     Persistence := Persistence lb; SteeringPolicy := SteeringPolicy lb |}.
Definition with_Description (v : string) (lb : LoadBalancer) : LoadBalancer :=
  {| ID := ID lb; CreatedOn := CreatedOn lb; ModifiedOn := ModifiedOn lb;
     Description := v; Name := Name lb; TTL := TTL lb;
     FallbackPool := FallbackPool lb; DefaultPools := DefaultPools lb;
     RegionPools := RegionPools lb; PopPools := PopPools lb;
     Proxied := Proxied lb; Enabled := Enabled lb;
     Persistence := Persistence lb; SteeringPolicy := SteeringPolicy lb |}.
Definition with_TTL (v : Z) (lb : LoadBalancer) : LoadBalancer :=
  {| ID := ID lb; CreatedOn := CreatedOn lb; ModifiedOn := ModifiedOn lb;
     Description := Description lb; Name := Name lb; TTL := v;
     FallbackPool := FallbackPool lb; DefaultPools := DefaultPools lb;
     RegionPools := RegionPools lb; PopPools := PopPools lb;
     Proxied := Proxied lb; Enabled := Enabled lb;
     Persistence := Persistence lb; SteeringPolicy := SteeringPolicy lb |}.
Definition with_RegionPools (v : gmap string (list string)) (lb : LoadBalancer)
  : LoadBalancer :=
  {| ID := ID lb; CreatedOn := CreatedOn lb; ModifiedOn := ModifiedOn lb;
     Description := Description lb; Name := Name lb; TTL := TTL lb;
     FallbackPool := FallbackPool lb; DefaultPools := DefaultPools lb;
     RegionPools := v; PopPools := PopPools lb;
     Proxied := Proxied lb; Enabled := Enabled lb;
     Persistence := Persistence lb; SteeringPolicy := SteeringPolicy lb |}.
Definition with_PopPools (v : gmap string (list string)) (lb : LoadBalancer)
  : LoadBalancer :=
  {| ID := ID lb; CreatedOn := CreatedOn lb; ModifiedOn := ModifiedOn lb;
     Description := Description lb; Name := Name lb; TTL := TTL lb;
     FallbackPool := FallbackPool lb; DefaultPools := DefaultPools lb;
     RegionPools := RegionPools lb; PopPools := v;
     Proxied := Proxied lb; Enabled := Enabled lb;
     Persistence := Persistence lb; SteeringPolicy := SteeringPolicy lb |}.
End LoadBalancerFields.

(** What a client method hands back: the value, or the text of its error. *)
Abbreviation reply A := (string + A)%type.

(** [*cloudflare.API]: the five methods the handlers call, each a step of
    the remote system, whose state is [Remote]. *)
Class CloudflareAPI `{Externals} := {
  Remote : Type;
  ZoneIDByName : Remote → string → Remote * reply string;
  CreateLoadBalancer :
    Remote → string → LoadBalancer → Remote * reply LoadBalancer;
  LoadBalancerDetails :
    Remote → string → string → Remote * reply LoadBalancer;
  ModifyLoadBalancer :
    Remote → string → LoadBalancer → Remote * reply LoadBalancer;
  DeleteLoadBalancer : Remote → string → string → Remote * option string;
}.

(** ** Handlers as computations *)

Section Lifecycle.
Context `{API : CloudflareAPI} `{RT : GoRuntime}.

(** A remote call, with its arguments and its outcome. *)
Inductive call :=
  | CallZoneIDByName (zoneName : string) (r : reply string)
  | CallCreateLoadBalancer (zoneID : string) (lb : LoadBalancer)
      (r : reply LoadBalancer)
  | CallLoadBalancerDetails (zoneID lbID : string) (r : reply LoadBalancer)
  | CallModifyLoadBalancer (zoneID : string) (lb : LoadBalancer)
      (r : reply LoadBalancer)
  | CallDeleteLoadBalancer (zoneID lbID : string) (r : option string).

(** What a handler works on: [d], the remote system behind [meta], and
    the runtime. *)
Record World := { data : ResourceData; remote : Remote; runtime : Runtime }.

(** A computation: from a world to its end, the world it leaves and the
    remote calls it made, oldest first. *)
Definition M (A : Type) : Type := World → result A * World * list call.

Definition ret {A} (a : A) : M A := λ w, (Ok a, w, []).

Definition bind {A B} (m : M A) (f : A → M B) : M B := λ w,
  match m w with
  | (Ok a, w', t) => let '(r, w'', t') := f a w' in (r, w'', t ++ t')
  | (Err e, w', t) => (Err e, w', t)
  | (Panic, w', t) => (Panic, w', t)
  end.

(** [return err]. *)
Definition fail {A} (e : error) : M A := λ w, (Err e, w, []).

Definition panic {A} : M A := λ w, (Panic, w, []).

(** Reading [d]. *)
Definition get {A} (f : ResourceData → A) : M A := λ w, (Ok (f (data w)), w, []).

(** Writing [d]. *)
Definition modify (f : ResourceData → ResourceData) : M () := λ w,
  (Ok (), {| data := f (data w); remote := remote w; runtime := runtime w |}, []).

(** One method call on the client. *)
Definition invoke {A} (step : Remote → Remote * A) (ev : A → call) : M A :=
  λ w, let '(s, r) := step (remote w) in
       (Ok r, {| data := data w; remote := s; runtime := runtime w |}, [ev r]).

(** One step of the runtime. *)
Definition ranging {A} (step : Runtime → Runtime * A) : M A :=
  λ w, let stepped := step (runtime w) in
       (Ok stepped.2,
        {| data := data w; remote := remote w; runtime := stepped.1 |}, []).

(** [*p], and a method call through [p], for a pointer [p]. *)
Definition deref {A} (p : option A) : M A :=
  match p with Some v => ret v | None => panic end.

(** A pure step that may fail or panic, such as [expandGeoPools]. *)
Definition lift {A} (r : result A) : M A :=
  match r with Ok a => ret a | Err e => fail e | Panic => panic end.

(** The three parts of a run. *)
Definition outcome {A} (run : result A * World * list call) : result A := run.1.1.
Definition final {A} (run : result A * World * list call) : World := run.1.2.
Definition calls {A} (run : result A * World * list call) : list call := run.2.

(** A computation that makes no remote call and leaves the identifier as it
    was, however it ends. *)
Definition quiet {A} (m : M A) : Prop :=
  ∀ w, calls (m w) = [] ∧ remote (final (m w)) = remote w ∧
       rd_id (data (final (m w))) = rd_id (data w).

(** A computation that returns: no error, no panic. *)
Definition returns {A} (m : M A) : Prop :=
  ∀ w, ∃ a, outcome (m w) = Ok a.

(** A computation that panics. *)
Definition panics {A} (m : M A) : Prop :=
  ∀ w, outcome (m w) = Panic.

(** A computation that returns and has moved the runtime by [f]. *)
Definition advances {A} (f : Runtime → Runtime) (m : M A) : Prop :=
  ∀ w, (∃ a, outcome (m w) = Ok a) ∧ runtime (final (m w)) = f (runtime w).

Global Instance M_ret : MRet M := @ret.
Global Instance M_bind : MBind M := λ A B f m, bind m f.
Global Instance M_throw : MThrow error M := @fail.


(** *** [d.Id], [d.SetId], [d.Set] *)

Definition Id : M string := get rd_id.

Definition SetId (v : string) : M () := modify (with_id v).

(** [d.Set(key, value)]: the write [write] of [value] under [key] goes
    through unless the SDK refuses it; the handler gets the error back. *)
Definition Set_ (key : string) (write : ResourceData → ResourceData)
  : M (option error) := λ w,
  match SetError (data w) key with
  | Some err => (Ok (Some err), w, [])
  | None =>
      (Ok None,
       {| data := write (data w); remote := remote w; runtime := runtime w |}, [])
  end.

Definition Set_string (key v : string) := Set_ key (with_string key v).
Definition Set_bool (key : string) (v : bool) := Set_ key (with_bool key v).
Definition Set_int (key : string) (v : Z) := Set_ key (with_int key v).
Definition Set_list (key : string) (v : list string) :=
  Set_ key (with_list key v).
Definition Set_set (key : string) (v : schema.Set_) :=
  Set_ key (with_set key v).

(** [if err := ...; err != nil { log.Printf(...) }]: the log line is all
    that happens. *)
Definition warn_if_error (err : option error) : M () :=
  match err with
  | Some _ => mret ()
  | None => mret ()
  end.

(** *** The request objects *)

(** [if pools, ok := d.GetOk(key); ok { ... }]: the declared assignments
    of one kind, expanded and stored with [store]. *)
Definition expand_into (d : ResourceData) (key : string) (geoType : geoType)
    (store : gmap string (list string) → LoadBalancer → LoadBalancer)
    (lb : LoadBalancer) : result LoadBalancer :=
  match GetOk_set d key with
  | (pools, true) =>
      match expandGeoPools pools geoType with
      | Ok expanded => Ok (store expanded lb)
      | Err err => Err err
      | Panic => Panic
      end
  | (_, false) => Ok lb
  end.

(** Lines 187 to 221: [newLoadBalancer], as Create builds it from [d]. *)
Definition Create_newLoadBalancer (d : ResourceData) : result LoadBalancer :=
  let enabled := Get_bool d "enabled" in
  let newLoadBalancer :=
    {| ID := "";
       CreatedOn := None;
       ModifiedOn := None;
       Description := "";
       Name := Get_string d "name";
       TTL := Get_int d "ttl";
       FallbackPool := Get_string d "fallback_pool_id";
       DefaultPools := expandInterfaceToStringList (Get_list d "default_pool_ids");
       RegionPools := ∅;
       PopPools := ∅;
       Proxied := Get_bool d "proxied";
       Enabled := Some enabled;
       Persistence := Get_string d "session_affinity";
       SteeringPolicy := Get_string d "steering_policy" |} in
  let newLoadBalancer :=
    match GetOk_string d "description" with
    | (description, true) => with_Description description newLoadBalancer
    | (_, false) => newLoadBalancer
    end in
  let newLoadBalancer :=
    match GetOk_int d "ttl" with
    | (ttl, true) => with_TTL ttl newLoadBalancer
    | (_, false) => newLoadBalancer
    end in
  match expand_into d "region_pools" region with_RegionPools newLoadBalancer with
  | Ok newLoadBalancer =>
      expand_into d "pop_pools" pop with_PopPools newLoadBalancer
  | Err err => Err err
  | Panic => Panic
  end.

(** Lines 256 to 287: [loadBalancer], as Update builds it from [d]. *)
Definition Update_loadBalancer (d : ResourceData) : result LoadBalancer :=
  let enabled := Get_bool d "enabled" in
  let loadBalancer :=
    {| ID := rd_id d;
       CreatedOn := None;
       ModifiedOn := None;
       Description := "";
       Name := Get_string d "name";
       TTL := Get_int d "ttl";
       FallbackPool := Get_string d "fallback_pool_id";
       DefaultPools := expandInterfaceToStringList (Get_list d "default_pool_ids");
       RegionPools := ∅;
       PopPools := ∅;
       Proxied := Get_bool d "proxied";
       Enabled := Some enabled;
       Persistence := Get_string d "session_affinity";
       SteeringPolicy := Get_string d "steering_policy" |} in
  let loadBalancer :=
    match GetOk_string d "description" with
    | (description, true) => with_Description description loadBalancer
    | (_, false) => loadBalancer
    end in
  match expand_into d "region_pools" region with_RegionPools loadBalancer with
  | Ok loadBalancer =>
      expand_into d "pop_pools" pop with_PopPools loadBalancer
  | Err err => Err err
  | Panic => Panic
  end.

(** *** Read *)

(** Lines 331 to 354: what Read does with the details it fetched. *)
Definition Read_store (loadBalancer : LoadBalancer) : M () :=
  Set_string "name" (Name loadBalancer);;
  Set_string "fallback_pool_id" (FallbackPool loadBalancer);;
  Set_bool "proxied" (Proxied loadBalancer);;
  enabled ← deref (Enabled loadBalancer);
  Set_bool "enabled" enabled;;
  Set_string "description" (Description loadBalancer);;
  Set_int "ttl" (TTL loadBalancer);;
  Set_string "steering_policy" (SteeringPolicy loadBalancer);;
  Set_string "session_affinity" (Persistence loadBalancer);;
  createdOn ← deref (CreatedOn loadBalancer);
  Set_string "created_on" (FormatRFC3339Nano createdOn);;
  modifiedOn ← deref (ModifiedOn loadBalancer);
  Set_string "modified_on" (FormatRFC3339Nano modifiedOn);;
  err ← Set_list "default_pool_ids" (DefaultPools loadBalancer);
  warn_if_error err;;
  popPools ← ranging (flattenGeoPools (PopPools loadBalancer) pop);
  err ← Set_set "pop_pools" popPools;
  warn_if_error err;;
  regionPools ← ranging (flattenGeoPools (RegionPools loadBalancer) region);
  err ← Set_set "region_pools" regionPools;
  warn_if_error err;;
  mret ().

Definition resourceCloudflareLoadBalancerRead : M () :=
  zoneID ← get (λ d, Get_string d "zone_id");
  loadBalancerID ← Id;
  r ← invoke (λ s, LoadBalancerDetails s zoneID loadBalancerID)
             (CallLoadBalancerDetails zoneID loadBalancerID);
  match r with
  | inl err =>
      if go_strings.Contains err "HTTP status 404" then
        SetId "";; mret ()
      else
        mthrow (ErrWrap (ErrClient err)
                  ("Error reading load balancer resource from API for resource "
                     +:+ zoneID +:+ " in zone " +:+ loadBalancerID))
  | inr loadBalancer => Read_store loadBalancer
  end.

(** *** Create *)

Definition resourceCloudflareLoadBalancerCreate : M () :=
  zoneName ← get (λ d, Get_string d "zone");
  zoneID ← get (λ d, Get_string d "zone_id");
  if decide (zoneName = "" ∧ zoneID = "") then mthrow ErrZoneRequired else
  newLoadBalancer ← get Create_newLoadBalancer ≫= lift;
  zoneID ←
    (if decide (zoneID = "") then
       r ← invoke (λ s, ZoneIDByName s zoneName) (CallZoneIDByName zoneName);
       match r with
       | inl err => mthrow (ErrFindingZone zoneName (ErrClient err))
       | inr zoneID => mret zoneID
       end
     else mret zoneID);
  Set_string "zone_id" zoneID;;
  r ← invoke (λ s, CreateLoadBalancer s zoneID newLoadBalancer)
             (CallCreateLoadBalancer zoneID newLoadBalancer);
  match r with
  | inl err =>
      mthrow (ErrWrap (ErrClient err) "error creating load balancer for zone")
  | inr r =>
      if decide (ID r = "") then mthrow ErrNoID else
      SetId (ID r);;
      resourceCloudflareLoadBalancerRead
  end.

(** *** Update *)

Definition resourceCloudflareLoadBalancerUpdate : M () :=
  zoneID ← get (λ d, Get_string d "zone_id");
  loadBalancer ← get Update_loadBalancer ≫= lift;
  r ← invoke (λ s, ModifyLoadBalancer s zoneID loadBalancer)
             (CallModifyLoadBalancer zoneID loadBalancer);
  match r with
  | inl err =>
      mthrow (ErrWrap (ErrClient err) "error creating load balancer for zone")
  | inr _ => resourceCloudflareLoadBalancerRead
  end.

(** *** Delete *)

Definition resourceCloudflareLoadBalancerDelete : M () :=
  zoneID ← get (λ d, Get_string d "zone_id");
  loadBalancerID ← Id;
  err ← invoke (λ s, DeleteLoadBalancer s zoneID loadBalancerID)
               (CallDeleteLoadBalancer zoneID loadBalancerID);
  match err with
  | Some err => mthrow (ErrDeleting (ErrClient err))
  | None => mret ()
  end.

(** *** Import *)

(** The handler returns [[]*schema.ResourceData{d}]: the one resource it
    was given, as the world holds it. *)
Definition resourceCloudflareLoadBalancerImport : M () :=
  id ← Id;
  let idAttr := go_strings.SplitN id "/" 2 in
  match idAttr with
  | [zoneName; loadBalancerID] =>
      r ← invoke (λ s, ZoneIDByName s zoneName) (CallZoneIDByName zoneName);
      match r with
      | inl err => mthrow (ErrFindingZoneName zoneName (ErrClient err))
      | inr zoneID =>
          Set_string "zone" zoneName;;
          Set_string "zone_id" zoneID;;
          SetId loadBalancerID;;
          mret ()
      end
  | _ => mthrow (ErrInvalidID id)
  end.

(** *** What a run asked of the remote system *)

(** The zone names looked up, oldest first. *)
Definition zone_lookups (t : list call) : list string :=
  omap (λ c, match c with CallZoneIDByName zoneName _ => Some zoneName | _ => None end) t.

(** The creation requests sent: zone identifier and request object. *)
Definition creations (t : list call) : list (string * LoadBalancer) :=
  omap (λ c, match c with
             | CallCreateLoadBalancer zoneID lb _ => Some (zoneID, lb)
             | _ => None
             end) t.

(** The replacement requests sent: zone identifier and request object. *)
Definition modifications (t : list call) : list (string * LoadBalancer) :=
  omap (λ c, match c with
             | CallModifyLoadBalancer zoneID lb _ => Some (zoneID, lb)
             | _ => None
             end) t.

End Lifecycle.

(** ** Hash collisions *)

(** The records [flattenGeoPools] makes of the entries of [pools] have
    pairwise different hash codes: no record is dropped by the set. *)
Definition collision_free `{Externals} (geoType : geoType)
    (pools : gmap string (list string)) : Prop :=
  NoDup (schema.hash (HashResource (localPoolElems geoType))
           <$> flattenGeoPools_records geoType (map_to_list pools)).

(** ** What a handler writes *)

(** [d'] differs from [d] only at keys that [allowed] lists for the type
    of the value; the identifier is not a key. *)
Definition writes_only (allowed : ValueType → string → Prop)
    (d d' : ResourceData) : Prop :=
  (∀ key, ¬ allowed TypeString key → rd_strings d' !! key = rd_strings d !! key) ∧
  (∀ key, ¬ allowed TypeBool key → rd_bools d' !! key = rd_bools d !! key) ∧
  (∀ key, ¬ allowed TypeInt key → rd_ints d' !! key = rd_ints d !! key) ∧
  (∀ key, ¬ allowed TypeList key → rd_lists d' !! key = rd_lists d !! key) ∧
  (∀ key, ¬ allowed TypeSet key → rd_sets d' !! key = rd_sets d !! key).

(** A computation that writes only at allowed keys, however it ends. *)
Definition confined `{API : CloudflareAPI} `{RT : GoRuntime} {A}
    (allowed : ValueType → string → Prop) (m : M A) : Prop :=
  ∀ w, writes_only allowed (data w) (data (final (m w))).

(** A computation that never ends in an error: it returns or panics. *)
Definition no_error `{API : CloudflareAPI} `{RT : GoRuntime} {A} (m : M A) : Prop :=
  ∀ w e, outcome (m w) ≠ Err e.

(** Every key but the two of the zone. *)
Definition not_zone (type : ValueType) (key : string) : Prop :=
  key ≠ "zone" ∧ key ≠ "zone_id".

(** ** What Read stores *)

(** The two visits of [Read_store], in the order it makes them: the set of
    [pop_pools], the set of [region_pools], and the runtime they leave. *)
Definition Read_flattened `{Externals} `{GoRuntime} (loadBalancer : LoadBalancer)
    (rt : Runtime) : schema.Set_ * schema.Set_ * Runtime :=
  let popPools := flattenGeoPools (PopPools loadBalancer) pop rt in
  let regionPools :=
    flattenGeoPools (RegionPools loadBalancer) region popPools.1 in
  (popPools.2, regionPools.2, regionPools.1).

(** What [Read_store] leaves in [d] when the SDK accepts every write. *)
Definition Read_stored `{Externals} (loadBalancer : LoadBalancer) (enabled : bool)
    (createdOn modifiedOn : Time) (popPools regionPools : schema.Set_)
    (d : ResourceData) : ResourceData :=
  with_set "region_pools" regionPools
    (with_set "pop_pools" popPools
       (with_list "default_pool_ids" (DefaultPools loadBalancer)
          (with_string "modified_on" (FormatRFC3339Nano modifiedOn)
             (with_string "created_on" (FormatRFC3339Nano createdOn)
                (with_string "session_affinity" (Persistence loadBalancer)
                   (with_string "steering_policy" (SteeringPolicy loadBalancer)
                      (with_int "ttl" (TTL loadBalancer)
                         (with_string "description" (Description loadBalancer)
                            (with_bool "enabled" enabled
                               (with_bool "proxied" (Proxied loadBalancer)
                                  (with_string "fallback_pool_id"
                                     (FallbackPool loadBalancer)
                                     (with_string "name" (Name loadBalancer)
                                        d)))))))))))).

(** What [Read_store] has written when it panics on an object without an
    enabled flag, the SDK accepting every write. *)
Definition Read_stored_before_enabled `{Externals} (loadBalancer : LoadBalancer)
    (d : ResourceData) : ResourceData :=
  with_bool "proxied" (Proxied loadBalancer)
    (with_string "fallback_pool_id" (FallbackPool loadBalancer)
       (with_string "name" (Name loadBalancer) d)).

(** ** Sample collaborators and data *)

(** A remote system that answers from a script, an SDK that refuses the
    three list-valued writes of Read, a runtime that reverses its visit
    every third time, and a few configurations: concrete inputs for the
    examples below. *)
Module sample.

(** A hash of the fields the element schema declares, as the SDK's
    function is: the location counts when it is stored under the key of
    that schema. *)
Definition hashResource (resource : Resource) (item : geoConf) : Z :=
  let name := match resource with popPoolElem => "pop" | regionPoolElem => "region" end in
  let value := if decide (geoType_string (geoKey item) = name)
               then location item else "" in
  Z.pos (encode (name, value, pool_ids item)).

Definition refuses (d : ResourceData) (key : string) : option error :=
  if bool_decide (key ∈ ["default_pool_ids"; "pop_pools"; "region_pools"])
  then Some (ErrSet "refused") else None.

Definition externals : Externals :=
  {| HashResource := hashResource; SetError := refuses;
     Time := Z; FormatRFC3339Nano := pretty |}.

(** A runtime that counts its visits, and visits a map in the reverse of
    the order [map_to_list] lists it every third time, starting with the
    first: two handler runs in a row do not meet the same orders. *)
Definition alternating : GoRuntime :=
  {| Runtime := nat;
     range := λ rt pools,
       (S rt,
        if (rt mod 3 =? 0)%nat then reverse (map_to_list pools)
        else map_to_list pools);
     range_visits := λ rt pools,
       match (rt mod 3 =? 0)%nat as reversed return
         range_order pools
           (if reversed then reverse (map_to_list pools) else map_to_list pools)
       with
       | true => reverse_Permutation (map_to_list pools)
       | false => Permutation_refl (map_to_list pools)
       end |}.

(** The answers of the remote system, one per method. *)
Record script := {
  zone_reply : reply string;
  create_reply : reply (@LoadBalancer externals);
  details_reply : reply (@LoadBalancer externals);
  modify_reply : reply (@LoadBalancer externals);
  delete_reply : option string;
}.

Definition api : @CloudflareAPI externals :=
  {| Remote := script;
     ZoneIDByName := λ s _, (s, zone_reply s);
     CreateLoadBalancer := λ s _ _, (s, create_reply s);
     LoadBalancerDetails := λ s _ _, (s, details_reply s);
     ModifyLoadBalancer := λ s _ _, (s, modify_reply s);
     DeleteLoadBalancer := λ s _ _, (s, delete_reply s) |}.

Abbreviation World := (@World externals api alternating).

Definition LAX : geoConf := GeoConf pop "LAX" ["p1"; "p2"].
Definition JFK : geoConf := GeoConf pop "JFK" ["p3"].

(** Two records for one location, with different pools. *)
Definition LAX_a : geoConf := GeoConf pop "LAX" ["p1"].
Definition LAX_b : geoConf := GeoConf pop "LAX" ["p2"].

(** Two records of [region_pools]. *)
Definition WNAM : geoConf := GeoConf region "WNAM" ["p1"; "p2"].
Definition ENAM : geoConf := GeoConf region "ENAM" ["p3"].

(** The sets the SDK holds for [pop_pools] and for [region_pools] when
    [items] are declared. *)
Definition pop_pools (items : list geoConf) : schema.Set_ :=
  default ∅ (@assignment_set externals "pop_pools" items).
Definition region_pools (items : list geoConf) : schema.Set_ :=
  default ∅ (@assignment_set externals "region_pools" items).

(** A load balancer as the remote system reports it. *)
Definition reported (id : string) (enabled : option bool) : @LoadBalancer externals :=
  {| ID := id; CreatedOn := Some (1 : @Time externals);
     ModifiedOn := Some (2 : @Time externals); Description := "";
     Name := "lb.example.com"; TTL := 30; FallbackPool := "p0";
     DefaultPools := ["p1"; "p2"]; RegionPools := ∅;
     PopPools := {["LAX" := ["p1"; "p2"]; "JFK" := ["p3"]]};
     Proxied := false; Enabled := enabled; Persistence := "none";
     SteeringPolicy := "geo" |}.

Definition answers (create details : reply (@LoadBalancer externals)) : script :=
  {| zone_reply := inr "zone-1"; create_reply := create; details_reply := details;
     modify_reply := details; delete_reply := None |}.

(** A resource with the identifier [id] and the given strings declared. *)
Definition declared (id : string) (strings : gmap string string) : ResourceData :=
  {| rd_id := id;
     rd_strings := strings;
     rd_bools := {["enabled" := true]};
     rd_ints := {["ttl" := 30]};
     rd_lists := {["default_pool_ids" := ["p1"; "p2"]]};
     rd_sets := {["pop_pools" := pop_pools [LAX; JFK]]} |}.

Definition world (d : ResourceData) (s : script) : World :=
  @Build_World externals api alternating d s 0%nat.

(** The remote system knows the zone and reports an enabled load balancer
    [lb-1]. *)
Definition healthy : script :=
  answers (inr (reported "lb-1" (Some true))) (inr (reported "lb-1" (Some true))).

(** Neither [zone] nor [zone_id] is declared. *)
Definition unzoned : World := world (declared "" {["name" := "lb.example.com"]}) healthy.

(** Both [zone] and [zone_id] are declared. *)
Definition zoned : World :=
  world (declared "" {["zone" := "example.com"; "zone_id" := "zone-1";
                       "name" := "lb.example.com"]}) healthy.

(** Only [zone] is declared. *)
Definition named : World :=
  world (declared "" {["zone" := "example.com"; "name" := "lb.example.com"]}) healthy.

(** The creation call answers with an object that has no identifier. *)
Definition unidentified : World :=
  world (declared "" {["zone_id" := "zone-1"; "name" := "lb.example.com"]})
    (answers (inr (reported "" (Some true))) (inr (reported "lb-1" (Some true)))).

(** The load balancer [lb-1] is gone from the remote system. *)
Definition gone : World :=
  world (declared "lb-1" {["zone_id" := "zone-1"]})
    (answers (inl "HTTP status 404: not found")
             (inl "error from makeRequest: HTTP status 404: content not found")).

(** The remote system is out of order. *)
Definition failing : World :=
  world (declared "lb-1" {["zone_id" := "zone-1"]})
    (answers (inl "HTTP status 500") (inl "error from makeRequest: HTTP status 500")).

(** The load balancer [lb-1] exists. *)
Definition present : World := world (declared "lb-1" {["zone_id" := "zone-1"]}) healthy.

(** The details of [lb-1] come without an enabled flag. *)
Definition flagless : World :=
  world (declared "lb-1" {["zone_id" := "zone-1"]})
    (answers (inr (reported "lb-1" None)) (inr (reported "lb-1" None))).

(** Only [zone] is declared, and [pop_pools] names one location twice. *)
Definition duplicated : World :=
  world {| rd_id := "";
           rd_strings := {["zone" := "example.com"; "name" := "lb.example.com"]};
           rd_bools := ∅; rd_ints := ∅; rd_lists := ∅;
           rd_sets := {["pop_pools" := pop_pools [LAX_a; LAX_b]]} |}
        healthy.

(** The map of the two sample records. *)
Definition expanded : gmap string (list string) :=
  {["LAX" := ["p1"; "p2"]; "JFK" := ["p3"]]}.

(** A visit of that map in the reverse of the order [map_to_list] lists
    it. *)
Definition visit : list (string * list string) :=
  reverse (map_to_list expanded).

(** A resource about to be imported. *)
Definition importing (id : string) : World := world (declared id ∅) healthy.

(** The remote system does not know the zone. *)
Definition lost : script :=
  {| zone_reply := inl "Zone could not be found";
     create_reply := inr (reported "lb-1" (Some true));
     details_reply := inr (reported "lb-1" (Some true));
     modify_reply := inr (reported "lb-1" (Some true));
     delete_reply := Some "HTTP status 500" |}.

(** Only [zone] is declared, and the zone is not known. *)
Definition named_lost : World :=
  world (declared "" {["zone" := "example.com"; "name" := "lb.example.com"]}) lost.

(** An import of [id] from a remote system that does not know the zone. *)
Definition importing_lost (id : string) : World := world (declared id ∅) lost.

End sample.

(** An SDK that accepts every write, with the scripted remote system and
    the alternating runtime. *)
Module accepting.

Definition externals : Externals :=
  {| HashResource := sample.hashResource; SetError := λ _ _, None;
     Time := Z; FormatRFC3339Nano := pretty |}.

(** The answers of the remote system, one per method. *)
Record script := {
  zone_reply : reply string;
  create_reply : reply (@LoadBalancer externals);
  details_reply : reply (@LoadBalancer externals);
  modify_reply : reply (@LoadBalancer externals);
  delete_reply : option string;
}.

Definition api : @CloudflareAPI externals :=
  {| Remote := script;
     ZoneIDByName := λ s _, (s, zone_reply s);
     CreateLoadBalancer := λ s _ _, (s, create_reply s);
     LoadBalancerDetails := λ s _ _, (s, details_reply s);
     ModifyLoadBalancer := λ s _ _, (s, modify_reply s);
     DeleteLoadBalancer := λ s _ _, (s, delete_reply s) |}.

Abbreviation World := (@World externals api sample.alternating).

(** The load balancer [lb-1] as the remote system reports it. *)
Definition reported : @LoadBalancer externals :=
  {| ID := "lb-1"; CreatedOn := Some (1 : @Time externals);
     ModifiedOn := Some (2 : @Time externals); Description := "front door";
     Name := "lb.example.com"; TTL := 30; FallbackPool := "p0";
     DefaultPools := ["p1"; "p2"];
     RegionPools := {["WNAM" := ["p1"]]};
     PopPools := {["LAX" := ["p1"; "p2"]; "JFK" := ["p3"]]};
     Proxied := false; Enabled := Some true; Persistence := "cookie";
     SteeringPolicy := "geo" |}.

(** The same load balancer, reported without an enabled flag. *)
Definition flagless : @LoadBalancer externals :=
  {| ID := "lb-1"; CreatedOn := Some (1 : @Time externals);
     ModifiedOn := Some (2 : @Time externals); Description := "front door";
     Name := "lb.example.com"; TTL := 30; FallbackPool := "p0";
     DefaultPools := ["p1"; "p2"];
     RegionPools := {["WNAM" := ["p1"]]};
     PopPools := {["LAX" := ["p1"; "p2"]; "JFK" := ["p3"]]};
     Proxied := false; Enabled := None; Persistence := "cookie";
     SteeringPolicy := "geo" |}.

Definition answers (details : @LoadBalancer externals) : script :=
  {| zone_reply := inr "zone-1"; create_reply := inr details;
     details_reply := inr details; modify_reply := inr details;
     delete_reply := None |}.

(** The resource [lb-1] of zone [zone-1], with nothing else known. *)
Definition known (details : @LoadBalancer externals) : World :=
  @Build_World externals api sample.alternating
    {| rd_id := "lb-1"; rd_strings := {["zone_id" := "zone-1"]};
       rd_bools := ∅; rd_ints := ∅; rd_lists := ∅; rd_sets := ∅ |}
    (answers details) 0%nat.

Definition present : World := known reported.

End accepting.

(** * Properties *)

(** ** The helpers copy their argument *)

Lemma foldl_snoc {A} (acc l : list A) :
  foldl (λ out v, out ++ [v]) acc l = acc ++ l.
Proof.
  revert acc. induction l as [|x l IH]; intros acc; simpl.
  - by rewrite app_nil_r.
  - by rewrite IH, <- app_assoc.
Qed.

Lemma expandInterfaceToStringList_copy l : expandInterfaceToStringList l = l.
Proof. apply (foldl_snoc []). Qed.

Lemma flattenStringList_copy l : flattenStringList l = l.
Proof. apply (foldl_snoc []). Qed.

Lemma flattenGeoPools_records_map g entries :
  flattenGeoPools_records g entries = (λ e, GeoConf g e.1 e.2) <$> entries.
Proof.
  unfold flattenGeoPools_records.
  enough (∀ acc, foldl (λ flattened '(k, v),
             flattened ++ [ {| geoKey := g; location := k;
                               pool_ids := flattenStringList v |} ])
           acc entries = acc ++ ((λ e, GeoConf g e.1 e.2) <$> entries)) as Hgen
    by apply (Hgen []).
  induction entries as [|[k v] entries IH]; intros acc; simpl.
  - by rewrite app_nil_r.
  - by rewrite IH, flattenStringList_copy, <- app_assoc.
Qed.

(** ** [schema.Set] *)

(** The list of a set holds the items of the set, each once, in the order
    of their keys. *)
Lemma listCode_Permutation (s : schema.Set_) : schema.listCode s ≡ₚ map_to_list s.
Proof. apply merge_sort_Permutation. Qed.

Lemma List_Permutation (s : schema.Set_) : schema.List s ≡ₚ (map_to_list s).*2.
Proof. unfold schema.List. by rewrite listCode_Permutation. Qed.

Lemma elem_of_listCode (s : schema.Set_) code item :
  (code, item) ∈ schema.listCode s ↔ s !! code = Some item.
Proof. by rewrite listCode_Permutation, elem_of_map_to_list. Qed.

Lemma NoDup_listCode_fst (s : schema.Set_) : NoDup (schema.listCode s).*1.
Proof. rewrite listCode_Permutation. apply NoDup_fst_map_to_list. Qed.

Lemma listCode_sorted (s : schema.Set_) :
  Sorted schema.code_le (schema.listCode s).
Proof.
  apply Sorted_merge_sort. intros a b. unfold schema.code_le.
  destruct (String.leb_total a.1 b.1) as [H|H]; rewrite H; [by left|by right].
Qed.

Lemma length_List (s : schema.Set_) : length (schema.List s) = size s.
Proof. by rewrite List_Permutation, length_fmap, length_map_to_list. Qed.

Lemma List_empty : schema.List ∅ = [].
Proof. apply length_zero_iff_nil. by rewrite length_List, map_size_empty. Qed.

Section SetFacts.
Variable F : schema.SchemaSetFunc.

Lemma add_built_with s item :
  schema.built_with F s → schema.built_with F (schema.add F s item).
Proof.
  intros Hs code item'. unfold schema.add.
  destruct (s !! schema.hash F item) eqn:Hhit; [apply Hs|].
  rewrite lookup_insert. case_decide; [|apply Hs].
  intros [= <-]. done.
Qed.

Lemma foldl_add_built_with items s :
  schema.built_with F s → schema.built_with F (foldl (schema.add F) s items).
Proof.
  revert s. induction items as [|item items IH]; intros s Hs; simpl; [done|].
  by apply IH, add_built_with.
Qed.

(** Every set the SDK builds keeps each item under its own key. *)
Lemma NewSet_built_with items : schema.built_with F (schema.NewSet F items).
Proof. apply foldl_add_built_with. intros code item. by rewrite lookup_empty. Qed.

Lemma elem_of_List (s : schema.Set_) item :
  item ∈ schema.List s ↔ ∃ code, s !! code = Some item.
Proof.
  unfold schema.List. rewrite list_elem_of_fmap. split.
  - intros [[code item'] [-> Hin]]. exists code. by apply elem_of_listCode.
  - intros [code Hcode]. exists (code, item). split; [done|].
    by apply elem_of_listCode.
Qed.

(** Items with pairwise distinct keys are all kept, each under its key. *)
Lemma foldl_add_lookup items s code :
  NoDup (schema.hash F <$> items) →
  (∀ item, item ∈ items → s !! schema.hash F item = None) →
  foldl (schema.add F) s items !! code =
    match list_find (λ item, schema.hash F item = code) items with
    | Some (_, item) => Some item
    | None => s !! code
    end.
Proof.
  revert s. induction items as [|item items IH]; intros s Hnd Hfresh; [done|].
  rewrite fmap_cons in Hnd. apply NoDup_cons in Hnd as [Hnotin Hnd].
  simpl. unfold schema.add at 2.
  rewrite (Hfresh item) by apply list_elem_of_here.
  rewrite IH; [|done|].
  - case_decide as Hcode.
    + simpl. subst code.
      destruct (list_find _ items) as [[i item']|] eqn:Hfind.
      * apply list_find_Some in Hfind as (Hi & Heq & _).
        exfalso. apply Hnotin. rewrite <- Heq.
        apply list_elem_of_fmap_2. by eapply list_elem_of_lookup_2.
      * simpl. by rewrite lookup_insert_eq.
    + destruct (list_find _ items) as [[i item']|]; simpl; [done|].
      by rewrite lookup_insert_ne.
  - intros item' Hin. rewrite lookup_insert_ne.
    + apply Hfresh. by apply list_elem_of_further.
    + intros Heq. apply Hnotin. rewrite Heq. by apply list_elem_of_fmap_2.
Qed.

(** Rebuilding a set from an enumeration of its items gives the set. *)
Lemma NewSet_of_items s items :
  schema.built_with F s → items ≡ₚ schema.List s →
  schema.NewSet F items = s.
Proof.
  intros Hs Hperm.
  assert (Hkeys : schema.hash F <$> schema.List s = (schema.listCode s).*1).
  { unfold schema.List. rewrite <- list_fmap_compose.
    apply list_fmap_ext. intros i [code item] Hin. simpl.
    symmetry. apply Hs. apply elem_of_listCode.
    by eapply list_elem_of_lookup_2. }
  assert (Hnd : NoDup (schema.hash F <$> items)).
  { rewrite Hperm, Hkeys. apply NoDup_listCode_fst. }
  apply map_eq. intros code. unfold schema.NewSet.
  rewrite foldl_add_lookup; [|done|by intros; apply lookup_empty].
  destruct (list_find _ items) as [[i item]|] eqn:Hfind.
  - apply list_find_Some in Hfind as (Hi & Heq & _).
    apply list_elem_of_lookup_2 in Hi. rewrite Hperm in Hi.
    apply elem_of_List in Hi as [code' Hcode'].
    by rewrite <- Heq, <- (Hs _ _ Hcode').
  - rewrite lookup_empty. symmetry.
    destruct (s !! code) as [item|] eqn:Hcode; [|done].
    exfalso. eapply list_find_None in Hfind.
    rewrite Forall_forall in Hfind. apply (Hfind item).
    + rewrite Hperm. apply elem_of_List. eauto.
    + symmetry. by apply Hs.
Qed.

End SetFacts.

(** ** The loop of [expandGeoPools] *)

Lemma location_under_Some g item loc :
  location_under g item = Some loc ↔ geoKey item = g ∧ location item = loc.
Proof.
  unfold location_under. case_decide; split.
  - by intros [= <-].
  - by intros [_ <-].
  - done.
  - by intros [? _].
Qed.

Lemma location_under_keyed g item :
  geoKey item = g → location_under g item = Some (location item).
Proof. intros Hkey. by apply location_under_Some. Qed.

Lemma expandGeoPools_loop_accepts g cfg acc :
  Forall (λ item, geoKey item = g) cfg →
  NoDup (location <$> cfg) →
  (∀ item, item ∈ cfg → acc !! location item = None) →
  ∃ m, expandGeoPools_loop g cfg acc = Ok m ∧
       ∀ k ids, m !! k = Some ids ↔
         (∃ item, item ∈ cfg ∧ location item = k ∧ pool_ids item = ids) ∨
         acc !! k = Some ids.
Proof.
  revert acc. induction cfg as [|item cfg IH]; intros acc Hkeys Hnd Hfresh; simpl.
  - exists acc. split; [done|]. intros k ids. split; [by right|].
    intros [(item & Hin & _)|Hacc]; [by apply elem_of_nil in Hin|done].
  - apply Forall_cons in Hkeys as [Hkey Hkeys].
    rewrite fmap_cons in Hnd. apply NoDup_cons in Hnd as [Hnotin Hnd].
    rewrite (location_under_keyed g item Hkey).
    rewrite (Hfresh item) by apply list_elem_of_here.
    destruct (IH (<[location item := expandInterfaceToStringList (pool_ids item)]> acc))
      as (m & Hm & Hspec); [done|done| |].
    + intros item' Hin. rewrite lookup_insert_ne.
      * apply Hfresh. by apply list_elem_of_further.
      * intros Heq. apply Hnotin. rewrite Heq. by apply list_elem_of_fmap_2.
    + exists m. split; [done|]. intros k ids. rewrite Hspec.
      rewrite expandInterfaceToStringList_copy, lookup_insert.
      split.
      * intros [(item' & Hin & Hk & Hids)|Hacc].
        -- left. exists item'. split; [by apply list_elem_of_further|done].
        -- case_decide as Hk; [|by right].
           left. exists item. split; [apply list_elem_of_here|]. by inversion Hacc.
      * intros [(item' & Hin & Hk & Hids)|Hacc].
        -- apply elem_of_cons in Hin as [->|Hin].
           ++ right. rewrite decide_True by done. by rewrite Hids.
           ++ left. eauto.
        -- right. case_decide as Hk; [|done].
           subst k. rewrite (Hfresh item) in Hacc by apply list_elem_of_here. done.
Qed.

Lemma expandGeoPools_loop_rejects g cfg acc :
  Forall (λ item, geoKey item = g) cfg →
  ¬ NoDup (location <$> cfg) ∨
    (∃ item, item ∈ cfg ∧ is_Some (acc !! location item)) →
  ∃ loc, expandGeoPools_loop g cfg acc = Err (ErrDuplicateLocation g loc) ∧
         loc ∈ location <$> cfg.
Proof.
  revert acc. induction cfg as [|item cfg IH]; intros acc Hkeys Hbad; simpl.
  - destruct Hbad as [Hnd|(item & Hin & _)].
    + destruct Hnd. constructor.
    + by apply elem_of_nil in Hin.
  - apply Forall_cons in Hkeys as [Hkey Hkeys].
    rewrite (location_under_keyed g item Hkey).
    destruct (acc !! location item) as [ids|] eqn:Hacc.
    + exists (location item). split; [done|]. apply list_elem_of_here.
    + destruct (IH (<[location item := expandInterfaceToStringList (pool_ids item)]> acc))
        as (loc & Hloc & Hin); [done| |].
      * destruct Hbad as [Hnd|(item' & Hin & Hsome)].
        -- rewrite fmap_cons, NoDup_cons in Hnd.
           apply not_and_l in Hnd as [Hdup|Hnd]; [|by left].
           apply dec_stable in Hdup. right.
           apply list_elem_of_fmap in Hdup as (item' & Heq & Hin).
           exists item'. split; [done|]. rewrite <- Heq, lookup_insert_eq. eauto.
        -- right. apply elem_of_cons in Hin as [->|Hin].
           ++ rewrite Hacc in Hsome. by destruct Hsome.
           ++ exists item'. split; [done|]. rewrite lookup_insert.
              case_decide; eauto.
      * exists loc. split; [done|]. by apply list_elem_of_further.
Qed.

(** The loop returns a map only when it has found every location under
    the key [g]. *)
Lemma expandGeoPools_loop_Ok_keyed g cfg acc m :
  expandGeoPools_loop g cfg acc = Ok m → Forall (λ item, geoKey item = g) cfg.
Proof.
  revert acc. induction cfg as [|item cfg IH]; intros acc; simpl; [done|].
  destruct (location_under g item) as [loc|] eqn:Hunder; [|done].
  apply location_under_Some in Hunder as [Hkey _].
  destruct (acc !! loc); [done|]. intros Hm. constructor; [done|]. by eapply IH.
Qed.

(** The loop panics on a record that stores its location under another
    key. *)
Lemma expandGeoPools_loop_Panic g item cfg acc :
  geoKey item ≠ g → expandGeoPools_loop g (item :: cfg) acc = Panic.
Proof. intros Hkey. simpl. unfold location_under. by rewrite decide_False. Qed.

Lemma keyed_List g (s : schema.Set_) :
  keyed g s ↔ Forall (λ item, geoKey item = g) (schema.List s).
Proof.
  rewrite Forall_forall. unfold keyed. split.
  - intros Hs item [code Hcode]%elem_of_List. by eapply Hs.
  - intros Hs code item Hcode. apply Hs, elem_of_List. eauto.
Qed.

(** Two items of a set under different keys are two positions of its
    list. *)
Lemma List_same_location (s : schema.Set_) code1 code2 item1 item2 :
  code1 ≠ code2 → s !! code1 = Some item1 → s !! code2 = Some item2 →
  location item1 = location item2 →
  ¬ NoDup (location <$> schema.List s).
Proof.
  intros Hne H1 H2 Hloc Hnd.
  apply elem_of_listCode, list_elem_of_lookup in H1 as [i Hi].
  apply elem_of_listCode, list_elem_of_lookup in H2 as [j Hj].
  assert (i = j) as ->.
  { eapply NoDup_lookup; [exact Hnd| |].
    - unfold schema.List. rewrite !list_lookup_fmap, Hi. simpl. reflexivity.
    - unfold schema.List. rewrite !list_lookup_fmap, Hj. simpl. by rewrite Hloc. }
  rewrite Hi in Hj. by inversion Hj.
Qed.

Lemma expandGeoPools_accepts s g :
  keyed g s →
  NoDup (location <$> schema.List s) →
  ∃ m, expandGeoPools s g = Ok m ∧
       ∀ k ids, m !! k = Some ids ↔
         ∃ item, item ∈ schema.List s ∧ location item = k ∧ pool_ids item = ids.
Proof.
  intros Hkeys%keyed_List Hnd. unfold expandGeoPools.
  destruct (expandGeoPools_loop_accepts g (schema.List s) ∅ Hkeys Hnd)
    as (m & Hm & Hspec); [by intros; apply lookup_empty|].
  exists m. split; [done|]. intros k ids. rewrite Hspec, lookup_empty.
  split; [by intros [?|?]|by left].
Qed.

Lemma expandGeoPools_Ok_keyed s g m : expandGeoPools s g = Ok m → keyed g s.
Proof. intros Hm. by apply keyed_List, (expandGeoPools_loop_Ok_keyed g _ ∅ m). Qed.

Lemma expandGeoPools_Ok_NoDup s g m :
  expandGeoPools s g = Ok m → NoDup (location <$> schema.List s).
Proof.
  intros Hm. pose proof (expandGeoPools_Ok_keyed _ _ _ Hm) as Hkeys.
  destruct (decide (NoDup (location <$> schema.List s))) as [|Hdup]; [done|].
  apply keyed_List in Hkeys.
  destruct (expandGeoPools_loop_rejects g (schema.List s) ∅ Hkeys (or_introl Hdup))
    as (loc & Hloc & _).
  unfold expandGeoPools in Hm. congruence.
Qed.

(** The map expand returns, listed, is the entries of the items. *)
Lemma expandGeoPools_entries s g m :
  expandGeoPools s g = Ok m →
  map_to_list m ≡ₚ entry_of <$> schema.List s.
Proof.
  intros Hm. pose proof (expandGeoPools_Ok_NoDup _ _ _ Hm) as Hnd.
  pose proof (expandGeoPools_Ok_keyed _ _ _ Hm) as Hkeys.
  destruct (expandGeoPools_accepts s g Hkeys Hnd) as (m' & Hm' & Hspec).
  assert (m' = m) as -> by congruence.
  assert (Hfst : NoDup (entry_of <$> schema.List s).*1).
  { by rewrite <- list_fmap_compose. }
  rewrite <- (map_to_list_to_map (entry_of <$> schema.List s)) by done.
  f_equiv. apply map_eq. intros k. apply option_eq. intros ids.
  rewrite Hspec, <- elem_of_list_to_map by done.
  rewrite list_elem_of_fmap. unfold entry_of.
  split.
  - intros (item & Hin & <- & <-). eauto.
  - intros (item & [= -> ->] & Hin). eauto.
Qed.

(** ** The geo-pool codec *)

(** C2: on a set of records that store their location under the key expand
    is called with -- as the records of [pop_pools] and [region_pools] do
    under their schemas -- expand fails with a duplicate-location error
    whenever the set holds two records with the same location key,
    whatever their pool identifiers are, and returns a map whenever the
    location keys are pairwise distinct. *)
Theorem expandGeoPools_duplicate_or_map (s : schema.Set_) (g : geoType) :
  keyed g s →
  (∀ code1 code2 item1 item2,
     code1 ≠ code2 → s !! code1 = Some item1 → s !! code2 = Some item2 →
     location item1 = location item2 →
     ∃ loc, expandGeoPools s g = Err (ErrDuplicateLocation g loc)) ∧
  (NoDup (location <$> schema.List s) → ∃ m, expandGeoPools s g = Ok m).
Proof.
  intros Hkeys. split.
  - intros code1 code2 item1 item2 Hne H1 H2 Hloc.
    pose proof (List_same_location s _ _ _ _ Hne H1 H2 Hloc) as Hdup.
    apply keyed_List in Hkeys.
    destruct (expandGeoPools_loop_rejects g (schema.List s) ∅ Hkeys (or_introl Hdup))
      as (loc & Hloc' & _).
    by exists loc.
  - intros Hnd. destruct (expandGeoPools_accepts s g Hkeys Hnd) as (m & Hm & _).
    by exists m.
Qed.

(** C6: a map returned by expand binds the location key of every record of
    the set to the pool-identifier list of that record, unchanged, and has
    no other key. *)
Theorem expandGeoPools_binds_each_location (s : schema.Set_) (g : geoType)
    (m : gmap string (list string)) :
  expandGeoPools s g = Ok m →
  (∀ item, item ∈ schema.List s → m !! location item = Some (pool_ids item)) ∧
  (∀ k, is_Some (m !! k) → k ∈ location <$> schema.List s) ∧
  size m = schema.Len s.
Proof.
  intros Hm. pose proof (expandGeoPools_Ok_NoDup _ _ _ Hm) as Hnd.
  pose proof (expandGeoPools_Ok_keyed _ _ _ Hm) as Hkeys.
  destruct (expandGeoPools_accepts s g Hkeys Hnd) as (m' & Hm' & Hspec).
  assert (m' = m) as -> by congruence.
  split; [|split].
  - intros item Hin. apply Hspec. eauto.
  - intros k [ids Hk]. apply Hspec in Hk as (item & Hin & <- & _).
    by apply list_elem_of_fmap_2.
  - unfold schema.Len. rewrite <- length_List, <- length_map_to_list.
    by rewrite (expandGeoPools_entries _ _ _ Hm), length_fmap.
Qed.

Section Roundtrip.
Context `{Externals} `{GoRuntime}.

(** The schema of the resource gives each of the two set-valued fields
    the element schema that [localPoolElems] has for the kind of the field:
    the SDK and [flattenGeoPools] hash the records of a field alike. *)
Lemma assignment_set_geo_fields field g items :
  (field, g) ∈ geo_fields →
  assignment_set field items
    = Some (schema.NewSet (HashResource (localPoolElems g)) items).
Proof.
  unfold geo_fields. intros Hin. decompose_list_elem_of; by simplify_eq.
Qed.

Lemma flattenGeoPools_in_expand (s : schema.Set_) (g : geoType) m entries :
  schema.built_with (HashResource (localPoolElems g)) s →
  expandGeoPools s g = Ok m →
  range_order m entries →
  flattenGeoPools_in entries g = s.
Proof.
  intros Hs Hm Hrange. unfold flattenGeoPools_in.
  apply NewSet_of_items; [done|].
  rewrite flattenGeoPools_records_map, Hrange, (expandGeoPools_entries _ _ _ Hm).
  rewrite <- list_fmap_compose.
  assert (Heta : (λ e, GeoConf g e.1 e.2) ∘ entry_of <$> schema.List s
                 = schema.List s).
  { rewrite <- (list_fmap_id (schema.List s)) at 2.
    apply list_fmap_ext. intros i [key loc ids] Hi. simpl.
    apply list_elem_of_lookup_2, elem_of_List in Hi as [code Hcode].
    apply (expandGeoPools_Ok_keyed _ _ _ Hm) in Hcode. simpl in Hcode.
    by subst key. }
  by rewrite Heta.
Qed.

(** C1: for each of the two set-valued fields, with its location kind, and
    for every assignment set [s] of the field -- the set the SDK builds,
    from any records, with the set function of the field's schema -- whose
    records store their location under that kind and have pairwise distinct
    location keys: expand returns a map, and flattening that map gives a
    set equal to [s], the same records under the same keys, in whatever
    order the runtime ranges over the map. *)
Theorem flatten_expand_equal_as_set (field : string) (g : geoType)
    (items : list geoConf) (s : schema.Set_) :
  (field, g) ∈ geo_fields →
  assignment_set field items = Some s →
  keyed g s →
  NoDup (location <$> schema.List s) →
  ∃ m, expandGeoPools s g = Ok m ∧
       (∀ rt, (flattenGeoPools m g rt).2 = s) ∧
       (∀ entries, range_order m entries → flattenGeoPools_in entries g = s) ∧
       (∀ rt, schema.List (flattenGeoPools m g rt).2 ≡ₚ schema.List s).
Proof.
  intros Hfield Hset Hkeys Hnd.
  rewrite (assignment_set_geo_fields field g items Hfield) in Hset.
  injection Hset as <-.
  set (s := schema.NewSet (HashResource (localPoolElems g)) items) in *.
  destruct (expandGeoPools_accepts s g Hkeys Hnd) as (m & Hm & _).
  pose proof (NewSet_built_with (HashResource (localPoolElems g)) items) as Hs.
  assert (Hflat : ∀ entries, range_order m entries → flattenGeoPools_in entries g = s).
  { intros entries Hrange. by eapply flattenGeoPools_in_expand. }
  assert (Hrun : ∀ rt, (flattenGeoPools m g rt).2 = s).
  { intros rt. unfold flattenGeoPools.
    pose proof (range_visits rt m) as Hrange.
    destruct (range rt m) as [rt' entries]. by apply Hflat. }
  exists m. split; [done|]. split; [done|]. split; [done|].
  intros rt. by rewrite Hrun.
Qed.

End Roundtrip.

(** ** Strings *)

Lemma HasPrefix_spec s prefix :
  go_strings.HasPrefix s prefix = true ↔ ∃ rest, s = prefix +:+ rest.
Proof.
  revert s. induction prefix as [|b prefix IH]; intros s; cbn [go_strings.HasPrefix].
  - destruct s; split; eauto.
  - destruct s as [|a s]; cbn [go_strings.HasPrefix].
    + split; [done|]. by intros [rest ?].
    + case_decide as Hab.
      * subst b. rewrite IH. split.
        -- intros [rest ->]. by exists rest.
        -- intros [rest [= ->]]. by exists rest.
      * split; [done|]. intros [rest [= ? ?]]. done.
Qed.

(** [Contains] finds exactly the strings that have [substr] somewhere
    inside. *)
Lemma Contains_spec s substr :
  go_strings.Contains s substr = true ↔
  ∃ before after, s = before +:+ substr +:+ after.
Proof.
  induction s as [|a s IH]; cbn [go_strings.Contains].
  - rewrite orb_false_r, HasPrefix_spec. split.
    + intros [rest ->]. by exists "", rest.
    + intros ([|] & after & Heq); [by exists after|done].
  - rewrite orb_true_iff, HasPrefix_spec, IH. split.
    + intros [[rest ->]|(before & after & ->)].
      * by exists "", rest.
      * by exists (String a before), after.
    + intros ([|a' before] & after & Heq).
      * left. by exists after.
      * right. injection Heq as -> ->. by exists before, after.
Qed.

Lemma Cut_None s sep :
  go_strings.Cut s sep = None ↔ go_strings.Contains s (String sep "") = false.
Proof.
  induction s as [|a s IH];
    cbn [go_strings.HasPrefix go_strings.Contains go_strings.Cut]; [done|].
  case_decide as Hsep.
  - subst. by destruct s.
  - destruct (go_strings.Cut s sep) as [[before after]|].
    + split; [done|]. intros Hno. apply orb_false_iff in Hno as [_ Hno].
      apply IH in Hno. done.
    + split; [|done]. intros _. apply orb_false_iff. split; [|by apply IH].
      destruct s; done.
Qed.

(** [Cut] splits at the first separator: what follows it is kept whole. *)
Lemma Cut_first before after sep :
  go_strings.Contains before (String sep "") = false →
  go_strings.Cut (before +:+ String sep after) sep = Some (before, after).
Proof.
  induction before as [|a before IH]; intros Hno.
  - change (go_strings.Cut (String sep after) sep = Some ("", after)).
    cbn [go_strings.Cut]. by rewrite decide_True.
  - change (go_strings.Cut (String a (before +:+ String sep after)) sep
            = Some (String a before, after)).
    cbn [go_strings.Contains go_strings.HasPrefix] in Hno.
    apply orb_false_iff in Hno as [Ha Hno].
    cbn [go_strings.Cut]. case_decide as Hsep.
    + by destruct before.
    + by rewrite IH.
Qed.

Lemma SplitN_2_first before after sep :
  go_strings.Contains before (String sep "") = false →
  go_strings.SplitN (before +:+ String sep after) sep 2 = [before; after].
Proof. intros Hno. cbn [go_strings.SplitN]. by rewrite Cut_first. Qed.

Lemma SplitN_2_absent s sep :
  go_strings.Contains s (String sep "") = false →
  go_strings.SplitN s sep 2 = [s].
Proof. intros Hno. cbn [go_strings.SplitN]. apply Cut_None in Hno. by rewrite Hno. Qed.

(** ** Steps that stay local *)

Section Steps.
Context `{API : CloudflareAPI} `{RT : GoRuntime}.

Lemma bind_unfold {A B} (m : M A) (f : A → M B) w :
  (m ≫= f) w =
    match m w with
    | (Ok a, w', t) => let '(r, w'', t') := f a w' in (r, w'', t ++ t')
    | (Err e, w', t) => (Err e, w', t)
    | (Panic, w', t) => (Panic, w', t)
    end.
Proof. reflexivity. Qed.

Lemma quiet_bind {A B} (m : M A) (f : A → M B) :
  quiet m → (∀ a, quiet (f a)) → quiet (m ≫= f).
Proof.
  intros Hm Hf w. rewrite bind_unfold.
  destruct (Hm w) as (Ht & Hr & Hi).
  destruct (m w) as [[[a|e|] w'] t]; [|done..].
  destruct (Hf a w') as (Ht' & Hr' & Hi').
  destruct (f a w') as [[r w''] t']. unfold calls, final in *. simpl in *.
  subst. split; [done|]. split; congruence.
Qed.

Lemma returns_bind {A B} (m : M A) (f : A → M B) :
  returns m → (∀ a, returns (f a)) → returns (m ≫= f).
Proof.
  intros Hm Hf w. rewrite bind_unfold.
  destruct (Hm w) as [a Ha].
  destruct (m w) as [[r w'] t]. unfold outcome in Ha. simpl in Ha. subst r.
  destruct (Hf a w') as [b Hb].
  destruct (f a w') as [[r w''] t']. by exists b.
Qed.

(** A sequence panics when its first step does, and when its first step
    returns and what follows panics. *)
Lemma panics_bind_l {A B} (m : M A) (f : A → M B) :
  panics m → panics (m ≫= f).
Proof.
  intros Hm w. rewrite bind_unfold. specialize (Hm w).
  destruct (m w) as [[r w'] t]. unfold outcome in Hm. simpl in Hm. by subst r.
Qed.

Lemma panics_bind_r {A B} (m : M A) (f : A → M B) :
  returns m → (∀ a, panics (f a)) → panics (m ≫= f).
Proof.
  intros Hm Hf w. rewrite bind_unfold.
  destruct (Hm w) as [a Ha].
  destruct (m w) as [[r w'] t]. unfold outcome in Ha. simpl in Ha. subst r.
  specialize (Hf a w'). by destruct (f a w') as [[r w''] t'].
Qed.

Lemma advances_bind {A B} (m : M A) (k : A → M B) (f g h : Runtime → Runtime) :
  advances f m → (∀ a, advances g (k a)) → (∀ rt, h rt = g (f rt)) →
  advances h (m ≫= k).
Proof.
  intros Hm Hk Hh w. rewrite bind_unfold.
  destruct (Hm w) as [[a Ha] Hrt].
  destruct (m w) as [[r w'] t]. unfold outcome, final in Ha, Hrt.
  simpl in Ha, Hrt. subst r.
  destruct (Hk a w') as [[b Hb] Hrt'].
  destruct (k a w') as [[r w''] t']. unfold outcome, final in *. simpl in *.
  split; [by exists b|]. by rewrite Hh, <- Hrt.
Qed.

Lemma quiet_ret {A} (a : A) : quiet (mret a).
Proof. by intros w. Qed.

Lemma returns_ret {A} (a : A) : returns (mret a).
Proof. intros w. by exists a. Qed.

Lemma advances_ret {A} (a : A) : advances (λ rt, rt) (mret a).
Proof. intros w. split; [by exists a|done]. Qed.

Lemma quiet_Set key write :
  (∀ d, rd_id (write d) = rd_id d) → quiet (Set_ key write).
Proof.
  intros Hid w. unfold Set_. destruct (SetError (data w) key); [done|].
  unfold calls, final. simpl. by rewrite Hid.
Qed.

Lemma returns_Set key write : returns (Set_ key write).
Proof. intros w. unfold Set_. destruct (SetError (data w) key); eauto. Qed.

Lemma advances_Set key write : advances (λ rt, rt) (Set_ key write).
Proof.
  intros w. split; [apply returns_Set|].
  unfold Set_. by destruct (SetError (data w) key).
Qed.

Lemma quiet_warn_if_error err : quiet (warn_if_error err).
Proof. by destruct err. Qed.

Lemma returns_warn_if_error err : returns (warn_if_error err).
Proof. destruct err; intros w; by exists (). Qed.

Lemma advances_warn_if_error err : advances (λ rt, rt) (warn_if_error err).
Proof. destruct err; intros w; (split; [by exists ()|done]). Qed.

Lemma quiet_deref {A} (p : option A) : quiet (deref p).
Proof. by destruct p. Qed.

Lemma returns_deref {A} (v : A) : returns (deref (Some v)).
Proof. intros w. by exists v. Qed.

Lemma advances_deref {A} (v : A) : advances (λ rt, rt) (deref (Some v)).
Proof. intros w. split; [by exists v|done]. Qed.

Lemma panics_deref {A} : panics (deref (None : option A)).
Proof. by intros w. Qed.

Lemma quiet_ranging {A} (step : Runtime → Runtime * A) : quiet (ranging step).
Proof. by intros w. Qed.

Lemma returns_ranging {A} (step : Runtime → Runtime * A) : returns (ranging step).
Proof. intros w. by eexists. Qed.

Lemma advances_ranging {A} (step : Runtime → Runtime * A) :
  advances (λ rt, (step rt).1) (ranging step).
Proof. intros w. split; [by eexists|done]. Qed.

(** The steps, run one at a time. *)
Lemma Set_accepted key write w :
  SetError (data w) key = None →
  Set_ key write w
    = (Ok None,
       {| data := write (data w); remote := remote w; runtime := runtime w |}, []).
Proof. intros Hacc. unfold Set_. by rewrite Hacc. Qed.

Lemma warn_if_error_run err w : warn_if_error err w = (Ok (), w, []).
Proof. by destruct err. Qed.

Lemma deref_Some_run {A} (v : A) w : deref (Some v) w = (Ok v, w, []).
Proof. reflexivity. Qed.

Lemma deref_None_run {A} w : deref (None : option A) w = (Panic, w, []).
Proof. reflexivity. Qed.

Lemma ranging_run {A} (step : Runtime → Runtime * A) w :
  ranging step w
    = (Ok (step (runtime w)).2,
       {| data := data w; remote := remote w; runtime := (step (runtime w)).1 |},
       []).
Proof. reflexivity. Qed.

Lemma ret_run {A} (a : A) w : (mret a : M A) w = (Ok a, w, []).
Proof. reflexivity. Qed.

End Steps.

Create HintDb steps discriminated.
#[global] Hint Resolve quiet_ret returns_ret returns_Set quiet_warn_if_error
  returns_warn_if_error quiet_deref returns_deref quiet_ranging
  returns_ranging : steps.

(** Splits a sequence of steps into its steps. *)
Ltac steps :=
  repeat first
    [ apply quiet_bind; [|intros ?]
    | apply returns_bind; [|intros ?]
    | apply quiet_Set; by intros []
    | by auto with steps ].

(** Finds the step of a sequence that panics, the steps before it
    returning. *)
Ltac find_panic :=
  repeat first
    [ apply panics_deref
    | apply panics_bind_l, panics_deref
    | apply panics_bind_r; [by auto with steps|intros ?] ].

(** Runs a sequence of steps whose writes the SDK accepts, by [Hacc], one
    step at a time. *)
Ltac run_accepted Hacc :=
  repeat
    (rewrite ?bind_unfold;
     first [ rewrite (Set_accepted _ _ _ (Hacc _ _))
           | rewrite warn_if_error_run
           | rewrite deref_Some_run
           | rewrite deref_None_run
           | rewrite ranging_run
           | rewrite ret_run ];
     cbn beta iota; cbn [data remote runtime app]).

(** Follows the runtime through a sequence of steps that return. *)
Ltac advance :=
  first
    [ eapply advances_bind; [advance|intros ?; advance|intros ?; reflexivity]
    | apply advances_Set
    | apply advances_warn_if_error
    | apply advances_deref
    | apply advances_ranging
    | apply advances_ret ].

(** ** Read *)

Section ReadFacts.
Context `{API : CloudflareAPI} `{RT : GoRuntime}.

Lemma Read_unfold w :
  resourceCloudflareLoadBalancerRead w =
    let zoneID := Get_string (data w) "zone_id" in
    let loadBalancerID := rd_id (data w) in
    let '(s, r) := LoadBalancerDetails (remote w) zoneID loadBalancerID in
    let w' := {| data := data w; remote := s; runtime := runtime w |} in
    let t := [CallLoadBalancerDetails zoneID loadBalancerID r] in
    match r with
    | inl err =>
        if go_strings.Contains err "HTTP status 404" then
          (Ok (),
           {| data := with_id "" (data w); remote := s; runtime := runtime w |}, t)
        else
          (Err (ErrWrap (ErrClient err)
                  ("Error reading load balancer resource from API for resource "
                     +:+ zoneID +:+ " in zone " +:+ loadBalancerID)), w', t)
    | inr loadBalancer =>
        let '(r, w'', t') := Read_store loadBalancer w' in (r, w'', t ++ t')
    end.
Proof.
  unfold resourceCloudflareLoadBalancerRead, Id, get, invoke.
  unfold mbind at 1 2 3, M_bind at 1 2 3, bind at 1 2 3. cbn beta iota.
  destruct (LoadBalancerDetails _ _ _) as [s [err|loadBalancer]];
    cbn beta iota zeta.
  - by destruct (go_strings.Contains err "HTTP status 404").
  - by destruct (Read_store loadBalancer _) as [[r w''] t'].
Qed.

Lemma quiet_Read_store lb : quiet (Read_store lb).
Proof. unfold Read_store, Set_string, Set_bool, Set_int, Set_list, Set_set. steps. Qed.

Lemma returns_Read_store lb enabled createdOn modifiedOn :
  Enabled lb = Some enabled → CreatedOn lb = Some createdOn →
  ModifiedOn lb = Some modifiedOn →
  returns (Read_store lb).
Proof.
  intros Hen Hcr Hmo. unfold Read_store. rewrite Hen, Hcr, Hmo.
  unfold Set_string, Set_bool, Set_int, Set_list, Set_set. steps.
Qed.

(** [Read_store] panics on the first of the three pointers that is nil. *)
Lemma panics_Read_store lb :
  Enabled lb = None ∨ CreatedOn lb = None ∨ ModifiedOn lb = None →
  panics (Read_store lb).
Proof.
  intros Hnil. unfold Read_store, Set_string, Set_bool, Set_int.
  destruct (Enabled lb) as [enabled|]; [|find_panic].
  destruct (CreatedOn lb) as [createdOn|]; [|find_panic].
  destruct (ModifiedOn lb) as [modifiedOn|]; [|find_panic].
  by destruct Hnil as [?|[?|?]].
Qed.

(** How [Read_store] ends is decided by the three pointers of the object
    alone. *)
Lemma Read_store_outcome lb w :
  outcome (Read_store lb w)
    = match Enabled lb, CreatedOn lb, ModifiedOn lb with
      | Some _, Some _, Some _ => Ok ()
      | _, _, _ => Panic
      end.
Proof.
  destruct (Enabled lb) as [enabled|] eqn:Hen;
    [|apply panics_Read_store; by left].
  destruct (CreatedOn lb) as [createdOn|] eqn:Hcr;
    [|apply panics_Read_store; right; by left].
  destruct (ModifiedOn lb) as [modifiedOn|] eqn:Hmo;
    [|apply panics_Read_store; right; by right].
  by destruct (returns_Read_store lb _ _ _ Hen Hcr Hmo w) as [[] ?].
Qed.

(** With the three pointers set, [Read_store] makes its two visits. *)
Lemma advances_Read_store lb enabled createdOn modifiedOn :
  Enabled lb = Some enabled → CreatedOn lb = Some createdOn →
  ModifiedOn lb = Some modifiedOn →
  advances (λ rt, (Read_flattened lb rt).2) (Read_store lb).
Proof.
  intros Hen Hcr Hmo. unfold Read_store. rewrite Hen, Hcr, Hmo.
  unfold Set_string, Set_bool, Set_int, Set_list, Set_set. advance.
Qed.

End ReadFacts.

Section ReadProperties.
Context `{API : CloudflareAPI} `{RT : GoRuntime}.

(** Read makes one remote call, the details lookup, however it ends. *)
Lemma Read_calls w :
  let zoneID := Get_string (data w) "zone_id" in
  let fetch := LoadBalancerDetails (remote w) zoneID (rd_id (data w)) in
  calls (resourceCloudflareLoadBalancerRead w)
    = [CallLoadBalancerDetails zoneID (rd_id (data w)) fetch.2] ∧
  remote (final (resourceCloudflareLoadBalancerRead w)) = fetch.1.
Proof.
  rewrite Read_unfold. cbn zeta.
  destruct (LoadBalancerDetails _ _ _) as [s [err|lb]]; simpl.
  - by destruct (go_strings.Contains err "HTTP status 404").
  - destruct (quiet_Read_store lb
                {| data := data w; remote := s; runtime := runtime w |})
      as (Ht & Hr & _).
    destruct (Read_store lb _) as [[r w''] t']. unfold calls, final in *.
    simpl in *. by subst.
Qed.

(** C5: when the details lookup fails with a text that contains
    "HTTP status 404", Read returns without error and has set the
    identifier to the empty string; when it fails with any other text, Read
    returns the error wrapped and leaves the resource data, the identifier
    included, as it was. *)
Theorem Read_lookup_failure (w : World) (s : Remote) (text : string) :
  LoadBalancerDetails (remote w) (Get_string (data w) "zone_id") (rd_id (data w))
    = (s, inl text) →
  (go_strings.Contains text "HTTP status 404" = true →
     outcome (resourceCloudflareLoadBalancerRead w) = Ok () ∧
     rd_id (data (final (resourceCloudflareLoadBalancerRead w))) = "" ∧
     data (final (resourceCloudflareLoadBalancerRead w)) = with_id "" (data w)) ∧
  (go_strings.Contains text "HTTP status 404" = false →
     outcome (resourceCloudflareLoadBalancerRead w) =
       Err (ErrWrap (ErrClient text)
              ("Error reading load balancer resource from API for resource "
                 +:+ Get_string (data w) "zone_id"
                 +:+ " in zone " +:+ rd_id (data w))) ∧
     rd_id (data (final (resourceCloudflareLoadBalancerRead w))) = rd_id (data w) ∧
     data (final (resourceCloudflareLoadBalancerRead w)) = data w).
Proof.
  intros Hfetch. rewrite Read_unfold. cbn zeta. rewrite Hfetch.
  split; intros ->; done.
Qed.

(** C9: when the details lookup succeeds, Read returns no error, whichever
    of its writes to the resource data fail -- those of [default_pool_ids],
    [pop_pools] and [region_pools] included: [SetError] is arbitrary.  How
    Read ends is decided by the fetched object alone: it returns [nil]
    when the object has its enabled flag and its two timestamps, and it
    panics on the first of these pointers that is nil.  No failed write
    aborts it: when it returns, it has gone on to both visits of
    [flattenGeoPools], the second of which follows the writes of
    [default_pool_ids] and [pop_pools]. *)
Theorem Read_returns_despite_failed_writes (w : World) (s : Remote)
    (loadBalancer : LoadBalancer) :
  LoadBalancerDetails (remote w) (Get_string (data w) "zone_id") (rd_id (data w))
    = (s, inr loadBalancer) →
  (∀ e, outcome (resourceCloudflareLoadBalancerRead w) ≠ Err e) ∧
  outcome (resourceCloudflareLoadBalancerRead w)
    = match Enabled loadBalancer, CreatedOn loadBalancer,
            ModifiedOn loadBalancer with
      | Some _, Some _, Some _ => Ok ()
      | _, _, _ => Panic
      end ∧
  (outcome (resourceCloudflareLoadBalancerRead w) = Ok () →
   runtime (final (resourceCloudflareLoadBalancerRead w))
     = (Read_flattened loadBalancer (runtime w)).2).
Proof.
  intros Hfetch. rewrite Read_unfold. cbn zeta. rewrite Hfetch.
  set (w' := {| data := data w; remote := s; runtime := runtime w |}).
  pose proof (Read_store_outcome loadBalancer w') as Hout.
  assert (Hrt : outcome (Read_store loadBalancer w') = Ok () →
                runtime (final (Read_store loadBalancer w'))
                  = (Read_flattened loadBalancer (runtime w)).2).
  { rewrite Hout.
    destruct (Enabled loadBalancer) as [enabled|] eqn:Hen; [|done].
    destruct (CreatedOn loadBalancer) as [createdOn|] eqn:Hcr; [|done].
    destruct (ModifiedOn loadBalancer) as [modifiedOn|] eqn:Hmo; [|done].
    intros _.
    by destruct (advances_Read_store loadBalancer _ _ _ Hen Hcr Hmo w') as [_ ->]. }
  destruct (Read_store loadBalancer w') as [[r w''] t'].
  unfold outcome, final in *. cbn [fst snd] in *.
  split; [|by split].
  intros e. rewrite Hout. by repeat case_match.
Qed.

End ReadProperties.

(** ** Create, Update, Import *)

Section CreateFacts.
Context `{API : CloudflareAPI} `{RT : GoRuntime}.

(** Create, step by step: the checks, the lookup of the zone when no
    identifier is declared, the write of [zone_id], the creation call and
    what follows it. *)
Lemma Create_unfold w :
  resourceCloudflareLoadBalancerCreate w =
    let zoneName := Get_string (data w) "zone" in
    let zoneID := Get_string (data w) "zone_id" in
    if decide (zoneName = "" ∧ zoneID = "") then (Err ErrZoneRequired, w, []) else
    match Create_newLoadBalancer (data w) with
    | Err err => (Err err, w, [])
    | Panic => (Panic, w, [])
    | Ok newLoadBalancer =>
        let '(found, s1, t0) :=
          if decide (zoneID = "") then
            let '(s, r) := ZoneIDByName (remote w) zoneName in
            (r, s, [CallZoneIDByName zoneName r])
          else (inr zoneID, remote w, []) in
        match found with
        | inl err =>
            (Err (ErrFindingZone zoneName (ErrClient err)),
             {| data := data w; remote := s1; runtime := runtime w |}, t0)
        | inr zoneID =>
            let d' :=
              match SetError (data w) "zone_id" with
              | Some _ => data w
              | None => with_string "zone_id" zoneID (data w)
              end in
            let '(s2, r) := CreateLoadBalancer s1 zoneID newLoadBalancer in
            let t := t0 ++ [CallCreateLoadBalancer zoneID newLoadBalancer r] in
            match r with
            | inl err =>
                (Err (ErrWrap (ErrClient err) "error creating load balancer for zone"),
                 {| data := d'; remote := s2; runtime := runtime w |}, t)
            | inr r =>
                if decide (ID r = "") then
                  (Err ErrNoID, {| data := d'; remote := s2; runtime := runtime w |}, t)
                else
                  let '(r', w', t') :=
                    resourceCloudflareLoadBalancerRead
                      {| data := with_id (ID r) d'; remote := s2;
                         runtime := runtime w |} in
                  (r', w', t ++ t')
            end
        end
    end.
Proof.
  unfold resourceCloudflareLoadBalancerCreate.
  unfold get, invoke, lift, mthrow, M_throw, fail, mret, M_ret, ret, SetId,
    modify, Set_string, Set_.
  unfold mbind, M_bind, bind. cbn beta iota zeta.
  case_decide as Hzone; [reflexivity|].
  destruct (Create_newLoadBalancer (data w)) as [newLoadBalancer|err|];
    [|reflexivity..].
  case_decide as HzoneID.
  - destruct (ZoneIDByName _ _) as [s [err|zoneID]]; [reflexivity|].
    cbn [data remote].
    destruct (SetError (data w) "zone_id"); cbn [data remote].
    all: destruct (CreateLoadBalancer _ _ _) as [s2 [err|r]]; [reflexivity|].
    all: cbn [data remote]; case_decide; [reflexivity|].
    all: by destruct (resourceCloudflareLoadBalancerRead _) as [[r' w'] t'].
  - cbn [data remote].
    destruct (SetError (data w) "zone_id"); cbn [data remote].
    all: destruct (CreateLoadBalancer _ _ _) as [s2 [err|r]]; [reflexivity|].
    all: cbn [data remote]; case_decide; [reflexivity|].
    all: by destruct (resourceCloudflareLoadBalancerRead _) as [[r' w'] t'].
Qed.

Lemma Update_unfold w :
  resourceCloudflareLoadBalancerUpdate w =
    let zoneID := Get_string (data w) "zone_id" in
    match Update_loadBalancer (data w) with
    | Err err => (Err err, w, [])
    | Panic => (Panic, w, [])
    | Ok loadBalancer =>
        let '(s, r) := ModifyLoadBalancer (remote w) zoneID loadBalancer in
        let t := [CallModifyLoadBalancer zoneID loadBalancer r] in
        match r with
        | inl err =>
            (Err (ErrWrap (ErrClient err) "error creating load balancer for zone"),
             {| data := data w; remote := s; runtime := runtime w |}, t)
        | inr _ =>
            let '(r', w', t') :=
              resourceCloudflareLoadBalancerRead
                  {| data := data w; remote := s; runtime := runtime w |} in
            (r', w', t ++ t')
        end
    end.
Proof.
  unfold resourceCloudflareLoadBalancerUpdate.
  unfold get, invoke, lift, mthrow, M_throw, fail, mret, M_ret, ret.
  unfold mbind, M_bind, bind. cbn beta iota zeta.
  destruct (Update_loadBalancer (data w)) as [loadBalancer|err|];
    [|reflexivity..].
  destruct (ModifyLoadBalancer _ _ _) as [s [err|r]]; [reflexivity|].
  by destruct (resourceCloudflareLoadBalancerRead _) as [[r' w'] t'].
Qed.

Lemma Import_unfold w :
  resourceCloudflareLoadBalancerImport w =
    match go_strings.SplitN (rd_id (data w)) "/" 2 with
    | [zoneName; loadBalancerID] =>
        let '(s, r) := ZoneIDByName (remote w) zoneName in
        let t := [CallZoneIDByName zoneName r] in
        match r with
        | inl err =>
            (Err (ErrFindingZoneName zoneName (ErrClient err)),
             {| data := data w; remote := s; runtime := runtime w |}, t)
        | inr zoneID =>
            let d1 :=
              match SetError (data w) "zone" with
              | Some _ => data w
              | None => with_string "zone" zoneName (data w)
              end in
            let d2 :=
              match SetError d1 "zone_id" with
              | Some _ => d1
              | None => with_string "zone_id" zoneID d1
              end in
            (Ok (),
                {| data := with_id loadBalancerID d2; remote := s;
                   runtime := runtime w |}, t)
        end
    | _ => (Err (ErrInvalidID (rd_id (data w))), w, [])
    end.
Proof.
  unfold resourceCloudflareLoadBalancerImport.
  unfold Id, get, invoke, mthrow, M_throw, fail, mret, M_ret, ret, SetId,
    modify, Set_string, Set_.
  unfold mbind at 1, M_bind at 1, bind at 1. cbn beta iota zeta.
  destruct (go_strings.SplitN _ _ _) as [|zoneName [|loadBalancerID [|? ?]]];
    try reflexivity.
  unfold mbind, M_bind, bind. cbn beta iota zeta.
  destruct (ZoneIDByName _ _) as [s [err|zoneID]]; [reflexivity|].
  cbn [data remote].
  destruct (SetError (data w) "zone"); cbn [data remote];
    destruct (SetError _ "zone_id"); reflexivity.
Qed.

End CreateFacts.

Section CreateProperties.
Context `{API : CloudflareAPI} `{RT : GoRuntime}.

(** A write of [zone_id] leaves the identifier alone. *)
Lemma rd_id_after_Set (d : ResourceData) key v :
  rd_id match SetError d key with
        | Some _ => d
        | None => with_string key v d
        end = rd_id d.
Proof. by destruct (SetError d key). Qed.

(** C4: when neither a zone name nor a zone identifier is declared, Create
    fails, makes no remote call and leaves the resource data and the remote
    system as they were. *)
Theorem Create_requires_zone (w : World) :
  Get_string (data w) "zone" = "" →
  Get_string (data w) "zone_id" = "" →
  outcome (resourceCloudflareLoadBalancerCreate w) = Err ErrZoneRequired ∧
  calls (resourceCloudflareLoadBalancerCreate w) = [] ∧
  final (resourceCloudflareLoadBalancerCreate w) = w.
Proof.
  intros Hzone HzoneID. rewrite Create_unfold. cbn zeta.
  by rewrite decide_True.
Qed.

(** C8: when Create's creation call succeeds with an object whose identifier
    is empty, Create fails and the identifier of the resource is what it
    was. *)
Theorem Create_rejects_empty_id (w : World) (zoneID : string)
    (newLoadBalancer r : LoadBalancer) :
  CallCreateLoadBalancer zoneID newLoadBalancer (inr r)
    ∈ calls (resourceCloudflareLoadBalancerCreate w) →
  ID r = "" →
  outcome (resourceCloudflareLoadBalancerCreate w) = Err ErrNoID ∧
  rd_id (data (final (resourceCloudflareLoadBalancerCreate w))) = rd_id (data w).
Proof.
  rewrite Create_unfold. cbn zeta. intros Hcall Hid.
  case_decide as Hzone; [by apply elem_of_nil in Hcall|].
  destruct (Create_newLoadBalancer (data w)) as [lb|err|];
    [|by apply elem_of_nil in Hcall..].
  destruct (if decide (Get_string (data w) "zone_id" = "") then _ else _)
    as [[[err|zoneID'] s1] t0] eqn:Hresolve.
  { case_decide; [|by simplify_eq].
    destruct (ZoneIDByName _ _) as [s r']. simplify_eq.
    unfold calls in Hcall. simpl in Hcall. by decompose_list_elem_of. }
  assert (Ht0 : ∀ z lb' r', CallCreateLoadBalancer z lb' r' ∉ t0).
  { intros z lb' r' Hin. case_decide.
    - destruct (ZoneIDByName _ _) as [s r'']. simplify_eq.
      by decompose_list_elem_of.
    - simplify_eq. by decompose_list_elem_of. }
  destruct (CreateLoadBalancer s1 zoneID' lb) as [s2 [err|r']].
  { unfold calls in Hcall. simpl in Hcall.
    apply elem_of_app in Hcall as [Hcall|Hcall]; [by apply Ht0 in Hcall|].
    by decompose_list_elem_of. }
  case_decide as Hid'.
  { unfold outcome, final. simpl. by rewrite rd_id_after_Set. }
  exfalso.
  pose proof (Read_calls
    {| data := with_id (ID r')
                 match SetError (data w) "zone_id" with
                 | Some _ => data w
                 | None => with_string "zone_id" zoneID' (data w)
                 end;
       remote := s2; runtime := runtime w |}) as [Hread _].
  destruct (resourceCloudflareLoadBalancerRead _) as [[r'' w''] t''].
  unfold calls in Hcall, Hread. simpl in Hcall, Hread. subst t''.
  apply elem_of_app in Hcall as [Hcall|Hcall].
  - apply elem_of_app in Hcall as [Hcall|Hcall]; [by apply Ht0 in Hcall|].
    apply list_elem_of_singleton in Hcall. by simplify_eq.
  - apply list_elem_of_singleton in Hcall. discriminate.
Qed.

End CreateProperties.

Section Requests.
Context `{API : CloudflareAPI} `{RT : GoRuntime}.

Lemma zone_lookups_app t1 t2 :
  zone_lookups (t1 ++ t2) = zone_lookups t1 ++ zone_lookups t2.
Proof. apply omap_app. Qed.

Lemma creations_app t1 t2 : creations (t1 ++ t2) = creations t1 ++ creations t2.
Proof. apply omap_app. Qed.

Lemma modifications_app t1 t2 :
  modifications (t1 ++ t2) = modifications t1 ++ modifications t2.
Proof. apply omap_app. Qed.

(** The one call of Read is neither a zone lookup nor a request. *)
Lemma Read_no_requests w :
  zone_lookups (calls (resourceCloudflareLoadBalancerRead w)) = [] ∧
  creations (calls (resourceCloudflareLoadBalancerRead w)) = [] ∧
  modifications (calls (resourceCloudflareLoadBalancerRead w)) = [].
Proof. destruct (Read_calls w) as [-> _]. done. Qed.

Lemma Create_zone_lookups w :
  zone_lookups (calls (resourceCloudflareLoadBalancerCreate w)) =
    match Create_newLoadBalancer (data w) with
    | Ok _ =>
        if decide (Get_string (data w) "zone_id" = "" ∧
                   Get_string (data w) "zone" ≠ "")
        then [Get_string (data w) "zone"] else []
    | _ => []
    end.
Proof.
  rewrite Create_unfold. cbn zeta.
  case_decide as Hzone.
  { destruct Hzone as [Hzone HzoneID].
    rewrite decide_False by (by intros [_ ?]). by destruct (Create_newLoadBalancer _). }
  destruct (Create_newLoadBalancer (data w)) as [lb|err|]; [|done..].
  case_decide as HzoneID.
  - rewrite decide_True by (split; [done|]; intros ?; by apply Hzone).
    destruct (ZoneIDByName _ _) as [s [err|zoneID]]; [done|].
    destruct (CreateLoadBalancer _ _ _) as [s2 [err|r]]; [done|].
    case_decide; [done|].
    match goal with |- context [resourceCloudflareLoadBalancerRead ?w'] =>
      destruct (Read_no_requests w') as (Hl & _) end.
    destruct (resourceCloudflareLoadBalancerRead _) as [[r' w'] t'].
    unfold calls in *. cbn [snd] in *. by rewrite zone_lookups_app, Hl.
  - rewrite decide_False by (by intros [? _]).
    destruct (CreateLoadBalancer _ _ _) as [s2 [err|r]]; [done|].
    case_decide; [done|].
    match goal with |- context [resourceCloudflareLoadBalancerRead ?w'] =>
      destruct (Read_no_requests w') as (Hl & _) end.
    destruct (resourceCloudflareLoadBalancerRead _) as [[r' w'] t'].
    unfold calls in *. cbn [snd] in *. by rewrite zone_lookups_app, Hl.
Qed.

(** Every creation request of Create carries the object built from the
    data, and goes to the declared zone identifier when there is one. *)
Lemma Create_creations w zoneID lb :
  (zoneID, lb) ∈ creations (calls (resourceCloudflareLoadBalancerCreate w)) →
  Create_newLoadBalancer (data w) = Ok lb ∧
  (Get_string (data w) "zone_id" ≠ "" → zoneID = Get_string (data w) "zone_id").
Proof.
  rewrite Create_unfold. cbn zeta.
  case_decide as Hzone; [by intros ?%elem_of_nil|].
  destruct (Create_newLoadBalancer (data w)) as [lb'|err|];
    [|by intros ?%elem_of_nil..].
  case_decide as HzoneID.
  - destruct (ZoneIDByName _ _) as [s [err|zoneID']]; [by intros ?%elem_of_nil|].
    destruct (CreateLoadBalancer _ _ _) as [s2 [err|r]].
    { unfold calls, creations. simpl. intros Hin. decompose_list_elem_of. by simplify_eq. }
    case_decide.
    { unfold calls, creations. simpl. intros Hin. decompose_list_elem_of. by simplify_eq. }
    match goal with |- context [resourceCloudflareLoadBalancerRead ?w'] =>
      destruct (Read_no_requests w') as (_ & Hc & _) end.
    destruct (resourceCloudflareLoadBalancerRead _) as [[r' w'] t'].
    unfold calls in *. cbn [snd] in *. rewrite creations_app, Hc.
    unfold creations. simpl. intros Hin. decompose_list_elem_of. by simplify_eq.
  - destruct (CreateLoadBalancer _ _ _) as [s2 [err|r]].
    { unfold calls, creations. simpl. intros Hin. decompose_list_elem_of. by simplify_eq. }
    case_decide.
    { unfold calls, creations. simpl. intros Hin. decompose_list_elem_of. by simplify_eq. }
    match goal with |- context [resourceCloudflareLoadBalancerRead ?w'] =>
      destruct (Read_no_requests w') as (_ & Hc & _) end.
    destruct (resourceCloudflareLoadBalancerRead _) as [[r' w'] t'].
    unfold calls in *. cbn [snd] in *. rewrite creations_app, Hc.
    unfold creations. simpl. intros Hin. decompose_list_elem_of. by simplify_eq.
Qed.

(** Every replacement request of Update carries the object built from the
    data. *)
Lemma Update_modifications w zoneID lb :
  (zoneID, lb) ∈ modifications (calls (resourceCloudflareLoadBalancerUpdate w)) →
  Update_loadBalancer (data w) = Ok lb ∧ zoneID = Get_string (data w) "zone_id".
Proof.
  rewrite Update_unfold. cbn zeta.
  destruct (Update_loadBalancer (data w)) as [lb'|err|];
    [|by intros ?%elem_of_nil..].
  destruct (ModifyLoadBalancer _ _ _) as [s [err|r]].
  { unfold calls, modifications. simpl. intros Hin. decompose_list_elem_of. by simplify_eq. }
  match goal with |- context [resourceCloudflareLoadBalancerRead ?w'] =>
    destruct (Read_no_requests w') as (_ & _ & Hm) end.
  destruct (resourceCloudflareLoadBalancerRead _) as [[r' w'] t'].
  unfold calls in *. cbn [snd] in *. rewrite modifications_app, Hm.
  unfold modifications. simpl. intros Hin. decompose_list_elem_of. by simplify_eq.
Qed.

End Requests.

Section ZoneAndRequest.
Context `{API : CloudflareAPI} `{RT : GoRuntime}.

(** The loop fails only with the duplicate-location error. *)
Lemma expandGeoPools_loop_Err g cfg acc err :
  expandGeoPools_loop g cfg acc = Err err →
  ∃ loc, err = ErrDuplicateLocation g loc.
Proof.
  revert acc. induction cfg as [|item cfg IH]; intros acc; simpl; [done|].
  destruct (location_under g item) as [loc|]; [|done].
  destruct (acc !! loc); [intros [= <-]; eauto|apply IH].
Qed.

(** The request object fails to build only on a location declared twice. *)
Lemma expand_into_error (d : ResourceData) key g store lb err :
  expand_into d key g store lb = Err err →
  ∃ g' loc, err = ErrDuplicateLocation g' loc.
Proof.
  unfold expand_into.
  destruct (GetOk_set d key) as [pools []]; [|done].
  destruct (expandGeoPools pools g) as [m|e|] eqn:He; [done| |done].
  intros [= <-]. apply expandGeoPools_loop_Err in He as [loc ->]. eauto.
Qed.

Lemma Create_newLoadBalancer_error (d : ResourceData) err :
  Create_newLoadBalancer d = Err err →
  ∃ g loc, err = ErrDuplicateLocation g loc.
Proof.
  unfold Create_newLoadBalancer. cbv zeta.
  destruct (expand_into d "region_pools" _ _ _) as [lb|e|] eqn:Hregion.
  - intros Hpop. by eapply expand_into_error.
  - intros [= <-]. by eapply expand_into_error.
  - done.
Qed.

(** C10, with the two early returns accounted for: when the declared zone
    identifier is not empty, Create looks no zone up, even with a zone name
    declared as well, and sends its creation request to that identifier;
    Create looks a zone up -- once, by the declared zone name -- exactly
    when the zone identifier is empty, a zone name is declared and the
    request object could be built (expand returned a map for both declared
    sets: no location is declared twice). *)
Theorem Create_zone_lookup (w : World) :
  (Get_string (data w) "zone_id" ≠ "" →
     zone_lookups (calls (resourceCloudflareLoadBalancerCreate w)) = [] ∧
     ∀ zoneID lb,
       (zoneID, lb) ∈ creations (calls (resourceCloudflareLoadBalancerCreate w)) →
       zoneID = Get_string (data w) "zone_id") ∧
  (zone_lookups (calls (resourceCloudflareLoadBalancerCreate w)) ≠ [] ↔
     Get_string (data w) "zone_id" = "" ∧
     Get_string (data w) "zone" ≠ "" ∧
     ∃ lb, Create_newLoadBalancer (data w) = Ok lb) ∧
  (zone_lookups (calls (resourceCloudflareLoadBalancerCreate w)) ≠ [] →
     zone_lookups (calls (resourceCloudflareLoadBalancerCreate w))
       = [Get_string (data w) "zone"]).
Proof.
  rewrite Create_zone_lookups. split; [|split].
  - intros HzoneID. split.
    + destruct (Create_newLoadBalancer (data w)); [|done..].
      by rewrite decide_False by (by intros [? _]).
    + intros zoneID lb Hin. by apply Create_creations in Hin as [_ ->].
  - destruct (Create_newLoadBalancer (data w)) as [lb|err|].
    + case_decide as Hcond.
      * split; [|done]. intros _. destruct Hcond. eauto.
      * split; [done|]. intros (? & ? & _). by destruct Hcond.
    + split; [done|]. by intros (_ & _ & lb & ?).
    + split; [done|]. by intros (_ & _ & lb & ?).
  - destruct (Create_newLoadBalancer (data w)) as [lb|err|]; [|done..].
    by case_decide.
Qed.

(** C7: the request object Update builds is the one Create builds from the
    same data with the identifier of the resource in its [ID] field, which
    Create leaves empty; and these are the objects the two handlers send. *)
Theorem Update_request_is_Create_request_with_ID :
  (∀ d : ResourceData,
     Update_loadBalancer d =
       match Create_newLoadBalancer d with
       | Ok newLoadBalancer => Ok (with_ID (rd_id d) newLoadBalancer)
       | Err err => Err err
       | Panic => Panic
       end) ∧
  (∀ (d : ResourceData) newLoadBalancer,
     Create_newLoadBalancer d = Ok newLoadBalancer → ID newLoadBalancer = "") ∧
  (∀ (w : World) zoneID loadBalancer,
     (zoneID, loadBalancer)
       ∈ modifications (calls (resourceCloudflareLoadBalancerUpdate w)) →
     Update_loadBalancer (data w) = Ok loadBalancer) ∧
  (∀ (w : World) zoneID newLoadBalancer,
     (zoneID, newLoadBalancer)
       ∈ creations (calls (resourceCloudflareLoadBalancerCreate w)) →
     Create_newLoadBalancer (data w) = Ok newLoadBalancer).
Proof.
  split; [|split; [|split]].
  - intros d. unfold Update_loadBalancer, Create_newLoadBalancer, expand_into.
    unfold GetOk_string, GetOk_int, GetOk_set.
    repeat case_bool_decide; repeat (destruct (expandGeoPools _ _)); reflexivity.
  - intros d lb. unfold Create_newLoadBalancer, expand_into.
    unfold GetOk_string, GetOk_int, GetOk_set.
    repeat case_bool_decide; repeat (destruct (expandGeoPools _ _));
      intros [= <-] || intros [=]; reflexivity.
  - intros w zoneID lb Hin. by apply Update_modifications in Hin as [? _].
  - intros w zoneID lb Hin. by apply Create_creations in Hin as [? _].
Qed.

(** C3: Import splits the identifier at its first [/]: with the
    identifier [zoneName/id], where [zoneName] has no [/], it looks
    [zoneName] up and, when the zone is found, returns with the resource
    identifier [id], kept whole, and writes [zoneName] to [zone]; with
    "myzone/abc123" these are "myzone" and "abc123"; with an identifier that
    has no [/], it fails with the invalid-id error and makes no remote
    call. *)
Theorem Import_splits_at_first_separator :
  (∀ (w : World) (zoneName id : string),
     go_strings.Contains zoneName "/" = false →
     rd_id (data w) = zoneName +:+ "/" +:+ id →
     let found := ZoneIDByName (remote w) zoneName in
     calls (resourceCloudflareLoadBalancerImport w)
       = [CallZoneIDByName zoneName found.2] ∧
     match found.2 with
     | inl err =>
         outcome (resourceCloudflareLoadBalancerImport w)
           = Err (ErrFindingZoneName zoneName (ErrClient err))
     | inr zoneID =>
         outcome (resourceCloudflareLoadBalancerImport w) = Ok () ∧
         rd_id (data (final (resourceCloudflareLoadBalancerImport w))) = id ∧
         (SetError (data w) "zone" = None →
          Get_string (data (final (resourceCloudflareLoadBalancerImport w))) "zone"
            = zoneName)
     end) ∧
  go_strings.SplitN "myzone/abc123" "/" 2 = ["myzone"; "abc123"] ∧
  (∀ w : World,
     go_strings.Contains (rd_id (data w)) "/" = false →
     outcome (resourceCloudflareLoadBalancerImport w)
       = Err (ErrInvalidID (rd_id (data w))) ∧
     calls (resourceCloudflareLoadBalancerImport w) = [] ∧
     final (resourceCloudflareLoadBalancerImport w) = w).
Proof.
  split; [|split].
  - intros w zoneName id Hno Hid found. subst found.
    rewrite Import_unfold, Hid.
    change (zoneName +:+ "/" +:+ id) with (zoneName +:+ String "/"%char id).
    rewrite SplitN_2_first by done. cbn zeta.
    destruct (ZoneIDByName _ _) as [s [err|zoneID]]; [done|].
    split; [done|]. split; [done|]. split; [done|].
    intros ->. unfold final. cbn [fst snd data].
    destruct (SetError _ "zone_id"); unfold Get_string;
      cbn [rd_strings with_id with_string].
    + by rewrite lookup_insert_eq.
    + by rewrite lookup_insert_ne, lookup_insert_eq.
  - reflexivity.
  - intros w Hno. rewrite Import_unfold, SplitN_2_absent by done. done.
Qed.

End ZoneAndRequest.

(** * The properties at the sample inputs *)

(** C1 on two records of [region_pools], the field whose element schema
    is the second entry of [localPoolElems]. *)
Lemma flatten_expand_equal_as_set_witness :
  ∃ m, expandGeoPools (sample.region_pools [sample.WNAM; sample.ENAM]) region
         = Ok m ∧
       (∀ rt, (@flattenGeoPools sample.externals sample.alternating m region rt).2
              = sample.region_pools [sample.WNAM; sample.ENAM]) ∧
       (∀ entries, range_order m entries →
          @flattenGeoPools_in sample.externals entries region
            = sample.region_pools [sample.WNAM; sample.ENAM]) ∧
       (∀ rt,
          schema.List
            (@flattenGeoPools sample.externals sample.alternating m region rt).2
            ≡ₚ schema.List (sample.region_pools [sample.WNAM; sample.ENAM])).
Proof.
  apply (@flatten_expand_equal_as_set sample.externals sample.alternating
           "region_pools" region [sample.WNAM; sample.ENAM]).
  - apply (bool_decide_unpack _). vm_compute. exact I.
  - vm_compute. reflexivity.
  - apply keyed_List, (bool_decide_unpack _). vm_compute. exact I.
  - apply (bool_decide_unpack _). vm_compute. exact I.
Defined.

(** C2 on two records for "LAX" with different pools, and on the example. *)
Lemma expandGeoPools_duplicate_or_map_witness :
  (∃ loc, expandGeoPools (sample.pop_pools [sample.LAX_a; sample.LAX_b]) pop
            = Err (ErrDuplicateLocation pop loc)) ∧
  (∃ m, expandGeoPools (sample.pop_pools [sample.LAX; sample.JFK]) pop = Ok m).
Proof.
  split.
  - apply (proj1 (expandGeoPools_duplicate_or_map
                    (sample.pop_pools [sample.LAX_a; sample.LAX_b]) pop
                    ltac:(apply keyed_List, (bool_decide_unpack _);
                          vm_compute; exact I))
             (schema.hash (sample.hashResource popPoolElem) sample.LAX_a)
             (schema.hash (sample.hashResource popPoolElem) sample.LAX_b)
             sample.LAX_a sample.LAX_b).
    + vm_compute. discriminate.
    + vm_compute. reflexivity.
    + vm_compute. reflexivity.
    + reflexivity.
  - apply (proj2 (expandGeoPools_duplicate_or_map
                    (sample.pop_pools [sample.LAX; sample.JFK]) pop
                    ltac:(apply keyed_List, (bool_decide_unpack _);
                          vm_compute; exact I))).
    apply (bool_decide_unpack _). vm_compute. exact I.
Defined.

(** C6 on the specification's example: LAX with p1, p2 and JFK with p3. *)
Lemma expandGeoPools_binds_each_location_witness :
  expandGeoPools (sample.pop_pools [sample.LAX; sample.JFK]) pop
    = Ok sample.expanded ∧
  (∀ item,
     item ∈ schema.List (sample.pop_pools [sample.LAX; sample.JFK]) →
     sample.expanded !! location item = Some (pool_ids item)) ∧
  (∀ k, is_Some (sample.expanded !! k) →
        k ∈ location <$> schema.List (sample.pop_pools [sample.LAX; sample.JFK])) ∧
  size sample.expanded = schema.Len (sample.pop_pools [sample.LAX; sample.JFK]).
Proof.
  assert (Hm : expandGeoPools (sample.pop_pools [sample.LAX; sample.JFK]) pop
               = Ok sample.expanded) by (vm_compute; reflexivity).
  split; [exact Hm|].
  exact (expandGeoPools_binds_each_location _ pop sample.expanded Hm).
Defined.

(** C4 on a configuration that declares no zone. *)
Lemma Create_requires_zone_witness :
  outcome (resourceCloudflareLoadBalancerCreate sample.unzoned) = Err ErrZoneRequired ∧
  calls (resourceCloudflareLoadBalancerCreate sample.unzoned) = [] ∧
  final (resourceCloudflareLoadBalancerCreate sample.unzoned) = sample.unzoned.
Proof. apply (Create_requires_zone sample.unzoned); reflexivity. Defined.

(** C5 on a lookup that fails with status 404 and one that fails with
    status 500. *)
Lemma Read_lookup_failure_witness :
  outcome (resourceCloudflareLoadBalancerRead sample.gone) = Ok () ∧
  rd_id (data (final (resourceCloudflareLoadBalancerRead sample.gone))) = "" ∧
  (∃ message,
     outcome (resourceCloudflareLoadBalancerRead sample.failing)
       = Err (ErrWrap (ErrClient "error from makeRequest: HTTP status 500") message)) ∧
  rd_id (data (final (resourceCloudflareLoadBalancerRead sample.failing))) = "lb-1".
Proof.
  destruct (Read_lookup_failure sample.gone (remote sample.gone)
              "error from makeRequest: HTTP status 404: content not found"
              eq_refl) as [Hgone _].
  destruct (Hgone eq_refl) as (Hok & Hid & _).
  destruct (Read_lookup_failure sample.failing (remote sample.failing)
              "error from makeRequest: HTTP status 500" eq_refl) as [_ Hfail].
  destruct (Hfail eq_refl) as (Herr & Hid' & _).
  split; [exact Hok|]. split; [exact Hid|]. split; [by eexists|exact Hid'].
Defined.

(** C8 on a creation call answered without an identifier. *)
Lemma Create_rejects_empty_id_witness :
  outcome (resourceCloudflareLoadBalancerCreate sample.unidentified) = Err ErrNoID ∧
  rd_id (data (final (resourceCloudflareLoadBalancerCreate sample.unidentified))) = "".
Proof.
  eapply (Create_rejects_empty_id sample.unidentified "zone-1" _
            (sample.reported "" (Some true))); [|reflexivity].
  vm_compute. apply list_elem_of_here.
Defined.

(** C9 with an SDK that refuses the three list-valued writes: Read returns
    [nil], and the runtime has made both visits. *)
Lemma Read_returns_despite_failed_writes_witness :
  @SetError sample.externals (data sample.present) "default_pool_ids"
    = Some (ErrSet "refused") ∧
  @SetError sample.externals (data sample.present) "pop_pools"
    = Some (ErrSet "refused") ∧
  @SetError sample.externals (data sample.present) "region_pools"
    = Some (ErrSet "refused") ∧
  (∀ e, outcome (resourceCloudflareLoadBalancerRead sample.present) ≠ Err e) ∧
  outcome (resourceCloudflareLoadBalancerRead sample.present) = Ok () ∧
  runtime (final (resourceCloudflareLoadBalancerRead sample.present))
    = S (S (runtime sample.present)).
Proof.
  split; [reflexivity|]. split; [reflexivity|]. split; [reflexivity|].
  destruct (Read_returns_despite_failed_writes sample.present
              (remote sample.present) (sample.reported "lb-1" (Some true))
              eq_refl) as (Hno & Hok & Hrt).
  split; [exact Hno|]. split; [exact Hok|]. exact (Hrt Hok).
Defined.

(** C10 with both [zone] and [zone_id] declared, and with [zone] alone. *)
Lemma Create_zone_lookup_witness :
  zone_lookups (calls (resourceCloudflareLoadBalancerCreate sample.zoned)) = [] ∧
  (∀ zoneID lb,
     (zoneID, lb) ∈ creations (calls (resourceCloudflareLoadBalancerCreate sample.zoned)) →
     zoneID = "zone-1") ∧
  zone_lookups (calls (resourceCloudflareLoadBalancerCreate sample.named))
    = ["example.com"].
Proof.
  destruct (Create_zone_lookup sample.zoned) as (Hzoned & _ & _).
  destruct Hzoned as [Hnone Hsent]; [vm_compute; discriminate|].
  destruct (Create_zone_lookup sample.named) as (_ & Hiff & Hname).
  split; [exact Hnone|]. split; [exact Hsent|].
  apply Hname, Hiff. split; [reflexivity|]. split; [vm_compute; discriminate|].
  eexists. vm_compute. reflexivity.
Defined.

(** The zone identifier is empty and yet Create looks no zone up: when no
    zone name is declared either, and when a location is declared twice. *)
Lemma Create_skips_lookup_without_zone :
  Get_string (data sample.unzoned) "zone_id" = "" ∧
  calls (resourceCloudflareLoadBalancerCreate sample.unzoned) = [] ∧
  ¬ (zone_lookups (calls (resourceCloudflareLoadBalancerCreate sample.unzoned)) ≠ [] ↔
     Get_string (data sample.unzoned) "zone_id" = "") ∧
  Get_string (data sample.duplicated) "zone_id" = "" ∧
  outcome (resourceCloudflareLoadBalancerCreate sample.duplicated)
    = Err (ErrDuplicateLocation pop "LAX") ∧
  calls (resourceCloudflareLoadBalancerCreate sample.duplicated) = [].
Proof.
  assert (Hcalls : calls (resourceCloudflareLoadBalancerCreate sample.unzoned) = [])
    by (vm_compute; reflexivity).
  split; [reflexivity|]. split; [exact Hcalls|]. rewrite Hcalls.
  split; [intros [_ Hlookup]; by apply Hlookup|].
  split; [reflexivity|]. split; vm_compute; reflexivity.
Qed.

(** C7 on the resource [lb-1]. *)
Lemma Update_request_is_Create_request_with_ID_witness :
  ∃ newLoadBalancer,
    Create_newLoadBalancer (data sample.present) = Ok newLoadBalancer ∧
    ID newLoadBalancer = "" ∧
    Update_loadBalancer (data sample.present) = Ok (with_ID "lb-1" newLoadBalancer) ∧
    modifications (calls (resourceCloudflareLoadBalancerUpdate sample.present))
      = [("zone-1", with_ID "lb-1" newLoadBalancer)].
Proof.
  destruct (@Update_request_is_Create_request_with_ID sample.externals sample.api
              sample.alternating) as (Hsame & Hid & _ & _).
  destruct (@Create_newLoadBalancer sample.externals (data sample.present))
    as [newLoadBalancer|err|] eqn:Hbuilt;
    [|by vm_compute in Hbuilt..].
  exists newLoadBalancer. split; [reflexivity|]. split; [by eapply Hid|].
  assert (Hupd : Update_loadBalancer (data sample.present)
                 = Ok (with_ID "lb-1" newLoadBalancer)).
  { rewrite Hsame, Hbuilt. reflexivity. }
  split; [exact Hupd|].
  rewrite Update_unfold. cbn zeta. rewrite Hupd. reflexivity.
Defined.

(** C3 on "myzone/abc123", on an identifier with a second [/], and on
    "abc123". *)
Lemma Import_splits_at_first_separator_witness :
  calls (resourceCloudflareLoadBalancerImport (sample.importing "myzone/abc123"))
    = [CallZoneIDByName "myzone" (inr "zone-1")] ∧
  outcome (resourceCloudflareLoadBalancerImport (sample.importing "myzone/abc123"))
    = Ok () ∧
  rd_id (data (final (resourceCloudflareLoadBalancerImport
                        (sample.importing "myzone/abc123")))) = "abc123" ∧
  Get_string (data (final (resourceCloudflareLoadBalancerImport
                             (sample.importing "myzone/abc123")))) "zone" = "myzone" ∧
  rd_id (data (final (resourceCloudflareLoadBalancerImport
                        (sample.importing "myzone/pools/abc123")))) = "pools/abc123" ∧
  outcome (resourceCloudflareLoadBalancerImport (sample.importing "abc123"))
    = Err (ErrInvalidID "abc123") ∧
  calls (resourceCloudflareLoadBalancerImport (sample.importing "abc123")) = [].
Proof.
  destruct (@Import_splits_at_first_separator sample.externals sample.api
              sample.alternating) as (Hsplit & _ & Hinvalid).
  destruct (Hsplit (sample.importing "myzone/abc123") "myzone" "abc123"
              eq_refl eq_refl) as (Hcalls & Hok & Hid & Hzone).
  destruct (Hsplit (sample.importing "myzone/pools/abc123") "myzone" "pools/abc123"
              eq_refl eq_refl) as (_ & _ & Hid' & _).
  destruct (Hinvalid (sample.importing "abc123") eq_refl) as (Herr & Hnone & _).
  split; [exact Hcalls|]. split; [exact Hok|]. split; [exact Hid|].
  split; [exact (Hzone eq_refl)|]. split; [exact Hid'|]. split; [exact Herr|exact Hnone].
Defined.

(** * Further properties *)

(** ** More on [schema.Set] *)

Section MoreSetFacts.
Variable F : schema.SchemaSetFunc.

(** A set keeps, under each key, the first item added with that key. *)
Lemma foldl_add_lookup_first items s code :
  foldl (schema.add F) s items !! code =
    match s !! code with
    | Some item => Some item
    | None => snd <$> list_find (λ item, schema.hash F item = code) items
    end.
Proof.
  revert s. induction items as [|item items IH]; intros s.
  - simpl. by destruct (s !! code).
  - cbn [foldl]. rewrite IH. unfold schema.add.
    cbn [list_find]. case_decide as Hcode.
    + subst code. destruct (s !! schema.hash F item) as [item'|] eqn:Hs.
      * by rewrite Hs.
      * by rewrite lookup_insert_eq.
    + destruct (s !! schema.hash F item) as [item'|] eqn:Hs.
      * destruct (s !! code); [done|].
        by destruct (list_find _ items) as [[i x]|].
      * rewrite lookup_insert_ne by done.
        destruct (s !! code); [done|].
        by destruct (list_find _ items) as [[i x]|].
Qed.

Lemma NewSet_lookup items code :
  schema.NewSet F items !! code
    = snd <$> list_find (λ item, schema.hash F item = code) items.
Proof. unfold schema.NewSet. by rewrite foldl_add_lookup_first, lookup_empty. Qed.

Lemma NewSet_elem_of items item :
  item ∈ schema.List (schema.NewSet F items) → item ∈ items.
Proof.
  intros [code Hcode]%elem_of_List. rewrite NewSet_lookup in Hcode.
  destruct (list_find _ items) as [[i x]|] eqn:Hfind; [|done].
  apply list_find_Some in Hfind as (Hi & _ & _). simplify_eq/=.
  by eapply list_elem_of_lookup_2.
Qed.

Lemma NewSet_elem_of_NoDup items item :
  NoDup (schema.hash F <$> items) → item ∈ items →
  item ∈ schema.List (schema.NewSet F items).
Proof.
  intros Hnd Hin. apply elem_of_List. exists (schema.hash F item).
  unfold schema.NewSet.
  rewrite foldl_add_lookup; [|done|by intros; apply lookup_empty].
  destruct (list_find _ items) as [[i x]|] eqn:Hfind.
  - apply list_find_Some in Hfind as (Hi & Heq & _).
    apply list_elem_of_lookup in Hin as [j Hj].
    assert (i = j) as ->; [|congruence].
    eapply NoDup_lookup; [exact Hnd| |].
    + rewrite list_lookup_fmap, Hi. simpl. by rewrite Heq.
    + by rewrite list_lookup_fmap, Hj.
  - eapply list_find_None in Hfind. rewrite Forall_forall in Hfind.
    by destruct (Hfind item Hin).
Qed.

(** The first item of the list a set is built from is in the set. *)
Lemma NewSet_head item items :
  schema.NewSet F (item :: items) !! schema.hash F item = Some item.
Proof. rewrite NewSet_lookup. cbn [list_find]. by rewrite decide_True. Qed.

Lemma NoDup_List s : schema.built_with F s → NoDup (schema.List s).
Proof.
  intros Hs. apply (NoDup_fmap_1 (schema.hash F)).
  assert (Hkeys : schema.hash F <$> schema.List s = (schema.listCode s).*1).
  { unfold schema.List. rewrite <- list_fmap_compose.
    apply list_fmap_ext. intros i [code item] Hin. simpl.
    symmetry. apply Hs. apply elem_of_listCode.
    by eapply list_elem_of_lookup_2. }
  rewrite Hkeys. apply NoDup_listCode_fst.
Qed.

(** Items with pairwise distinct keys make a set that lists them all. *)
Lemma List_NewSet_NoDup items :
  NoDup (schema.hash F <$> items) →
  schema.List (schema.NewSet F items) ≡ₚ items.
Proof.
  intros Hnd. apply NoDup_Permutation.
  - apply NoDup_List, NewSet_built_with.
  - by eapply NoDup_fmap_1.
  - intros item. split; [apply NewSet_elem_of|by apply NewSet_elem_of_NoDup].
Qed.

(** Such a set does not depend on the order of the items. *)
Lemma NewSet_Permutation items items' :
  NoDup (schema.hash F <$> items) → items ≡ₚ items' →
  schema.NewSet F items = schema.NewSet F items'.
Proof.
  intros Hnd Hperm. apply NewSet_of_items; [apply NewSet_built_with|].
  rewrite List_NewSet_NoDup; [done|]. by rewrite <- Hperm.
Qed.

Lemma Len_add s item : (schema.Len (schema.add F s item) ≤ S (schema.Len s))%nat.
Proof.
  unfold schema.add, schema.Len.
  destruct (s !! schema.hash F item) eqn:Hs; [lia|].
  rewrite map_size_insert_None by done. lia.
Qed.

Lemma Len_foldl_add items s :
  (schema.Len (foldl (schema.add F) s items) ≤ length items + schema.Len s)%nat.
Proof.
  revert s. induction items as [|item items IH]; intros s; simpl; [lia|].
  specialize (IH (schema.add F s item)). pose proof (Len_add s item). lia.
Qed.

(** When the location of an item decides the item, a set has no location
    twice. *)
Lemma List_NoDup_location s :
  schema.built_with F s →
  (∀ item1 item2, item1 ∈ schema.List s → item2 ∈ schema.List s →
                  location item1 = location item2 → item1 = item2) →
  NoDup (location <$> schema.List s).
Proof.
  intros Hs Hfun. apply NoDup_fmap_2_strong; [|by apply NoDup_List].
  intros item1 item2 H1 H2 Hloc. by apply Hfun.
Qed.

End MoreSetFacts.

(** ** More on the geo-pool codec *)

Section MoreCodec.
Context `{Externals}.

(** The records of a visit of the entries of a map. *)
Lemma flattenGeoPools_records_elem_of pools entries g item :
  range_order pools entries →
  item ∈ flattenGeoPools_records g entries ↔
  geoKey item = g ∧ pools !! location item = Some (pool_ids item).
Proof.
  intros Hrange. rewrite flattenGeoPools_records_map, list_elem_of_fmap. split.
  - intros ([k ids] & -> & Hin). rewrite Hrange in Hin.
    by apply elem_of_map_to_list in Hin.
  - intros [Hkey Hitem]. exists (location item, pool_ids item).
    split; [destruct item; simpl in *; by subst|].
    rewrite Hrange. by apply elem_of_map_to_list.
Qed.

Lemma flattenGeoPools_records_Permutation pools entries g :
  range_order pools entries →
  flattenGeoPools_records g entries
    ≡ₚ flattenGeoPools_records g (map_to_list pools).
Proof. intros Hrange. rewrite !flattenGeoPools_records_map. by rewrite Hrange. Qed.

Lemma collision_free_records g pools entries :
  range_order pools entries → collision_free g pools →
  NoDup (schema.hash (HashResource (localPoolElems g))
           <$> flattenGeoPools_records g entries).
Proof.
  intros Hrange Hfree. unfold collision_free in Hfree.
  by rewrite (flattenGeoPools_records_Permutation pools).
Qed.

Lemma flattenGeoPools_in_sound pools entries g item :
  range_order pools entries →
  item ∈ schema.List (flattenGeoPools_in entries g) →
  geoKey item = g ∧ pools !! location item = Some (pool_ids item).
Proof.
  intros Hrange Hin. apply NewSet_elem_of in Hin.
  by apply (flattenGeoPools_records_elem_of pools entries).
Qed.

(** Every record of a flattened set stores its location under the kind
    the set was flattened with. *)
Lemma flattenGeoPools_in_keyed pools entries g :
  range_order pools entries → keyed g (flattenGeoPools_in entries g).
Proof.
  intros Hrange. apply keyed_List, Forall_forall. intros item Hin.
  by apply (flattenGeoPools_in_sound pools) in Hin as [? _].
Qed.

Lemma flattenGeoPools_in_NoDup pools entries g :
  range_order pools entries →
  NoDup (location <$> schema.List (flattenGeoPools_in entries g)).
Proof.
  intros Hrange.
  apply (List_NoDup_location (HashResource (localPoolElems g)));
    [apply NewSet_built_with|].
  intros [g1 k1 ids1] [g2 k2 ids2] H1 H2 Hloc.
  apply (flattenGeoPools_in_sound pools) in H1 as [Hg1 H1]; [|done].
  apply (flattenGeoPools_in_sound pools) in H2 as [Hg2 H2]; [|done].
  simpl in *. subst. congruence.
Qed.

(** Without collisions the set holds every entry, whatever the visit, and
    expand gives the map back. *)
Lemma flattenGeoPools_in_complete pools entries g k ids :
  range_order pools entries → collision_free g pools →
  pools !! k = Some ids →
  GeoConf g k ids ∈ schema.List (flattenGeoPools_in entries g).
Proof.
  intros Hrange Hfree Hk.
  apply NewSet_elem_of_NoDup; [by apply (collision_free_records g pools)|].
  by apply (flattenGeoPools_records_elem_of pools entries).
Qed.

Lemma flattenGeoPools_in_Len pools entries g :
  range_order pools entries → collision_free g pools →
  schema.Len (flattenGeoPools_in entries g) = size pools.
Proof.
  intros Hrange Hfree. unfold schema.Len, flattenGeoPools_in.
  rewrite <- length_List.
  rewrite List_NewSet_NoDup by (by apply (collision_free_records g pools)).
  rewrite flattenGeoPools_records_map, length_fmap, Hrange.
  apply length_map_to_list.
Qed.

Lemma flattenGeoPools_in_order pools entries entries' g :
  range_order pools entries → range_order pools entries' →
  collision_free g pools →
  flattenGeoPools_in entries g = flattenGeoPools_in entries' g.
Proof.
  intros Hrange Hrange' Hfree. unfold flattenGeoPools_in.
  apply NewSet_Permutation; [by apply (collision_free_records g pools)|].
  rewrite !flattenGeoPools_records_map. by rewrite Hrange, Hrange'.
Qed.

Lemma expandGeoPools_flattenGeoPools_in pools entries g :
  range_order pools entries → collision_free g pools →
  expandGeoPools (flattenGeoPools_in entries g) g = Ok pools.
Proof.
  intros Hrange Hfree.
  destruct (expandGeoPools_accepts (flattenGeoPools_in entries g) g)
    as (m & Hm & Hspec);
    [by eapply flattenGeoPools_in_keyed|by eapply flattenGeoPools_in_NoDup|].
  rewrite Hm. f_equal. apply map_eq. intros k. apply option_eq. intros ids.
  rewrite Hspec. split.
  - intros (item & Hin & <- & <-).
    by apply (flattenGeoPools_in_sound pools entries g) in Hin as [_ ?].
  - intros Hk. exists (GeoConf g k ids). split; [|done].
    by apply (flattenGeoPools_in_complete pools).
Qed.

(** X1: whatever the order of the visit, every record of the set
    [flattenGeoPools] returns is an entry of the map (its location, stored
    under the kind flatten was called with, bound to its pool identifiers),
    no location occurs twice in the set, and the set has at most as many
    records as the map has entries; it has exactly as many, every entry
    being there, when no two entries collide on their hash code. *)
Theorem flattenGeoPools_records_are_entries
    (pools : gmap string (list string)) (entries : list (string * list string))
    (g : geoType) :
  range_order pools entries →
  (∀ item, item ∈ schema.List (flattenGeoPools_in entries g) →
           geoKey item = g ∧ pools !! location item = Some (pool_ids item)) ∧
  NoDup (location <$> schema.List (flattenGeoPools_in entries g)) ∧
  (schema.Len (flattenGeoPools_in entries g) ≤ size pools)%nat ∧
  (collision_free g pools →
     (∀ k ids, pools !! k = Some ids →
               GeoConf g k ids ∈ schema.List (flattenGeoPools_in entries g)) ∧
     schema.Len (flattenGeoPools_in entries g) = size pools).
Proof.
  intros Hrange.
  assert (Hsound : ∀ item, item ∈ schema.List (flattenGeoPools_in entries g) →
            geoKey item = g ∧ pools !! location item = Some (pool_ids item))
    by (intros item; by apply flattenGeoPools_in_sound).
  assert (Hnd : NoDup (location <$> schema.List (flattenGeoPools_in entries g)))
    by (by eapply flattenGeoPools_in_NoDup).
  assert (Hlen : length (flattenGeoPools_records g entries) = size pools).
  { rewrite flattenGeoPools_records_map, length_fmap, Hrange.
    apply length_map_to_list. }
  split; [exact Hsound|]. split; [exact Hnd|]. split.
  - unfold flattenGeoPools_in, schema.NewSet.
    pose proof (Len_foldl_add (HashResource (localPoolElems g))
                  (flattenGeoPools_records g entries) ∅) as Hle.
    unfold schema.Len in *. rewrite map_size_empty in Hle. lia.
  - intros Hfree. split.
    + intros k ids Hk. by apply (flattenGeoPools_in_complete pools).
    + by apply flattenGeoPools_in_Len.
Qed.

(** X2: expand, called with the kind a set was flattened with, never
    rejects the set, whatever the visit was; the map it returns is
    contained in the map that was flattened, and is that map when no two
    entries collide on their hash code.  Called with the other kind on the
    set flattened from a map that is not empty, expand panics: the records
    have no such key. *)
Theorem expandGeoPools_of_flattened
    (pools : gmap string (list string)) (entries : list (string * list string))
    (g g' : geoType) :
  range_order pools entries →
  (∃ m, expandGeoPools (flattenGeoPools_in entries g) g = Ok m ∧
        m ⊆ pools ∧
        (collision_free g pools → m = pools)) ∧
  (g' ≠ g → pools ≠ ∅ →
   expandGeoPools (flattenGeoPools_in entries g) g' = Panic).
Proof.
  intros Hrange. split.
  - destruct (expandGeoPools_accepts (flattenGeoPools_in entries g) g)
      as (m & Hm & Hspec);
      [by eapply flattenGeoPools_in_keyed|by eapply flattenGeoPools_in_NoDup|].
    exists m. split; [done|]. split.
    + apply map_subseteq_spec. intros k ids Hk.
      apply Hspec in Hk as (item & Hin & <- & <-).
      by apply (flattenGeoPools_in_sound pools entries g) in Hin as [_ ?].
    + intros Hfree.
      pose proof (expandGeoPools_flattenGeoPools_in pools entries g Hrange Hfree).
      congruence.
  - intros Hkind Hpools. unfold expandGeoPools.
    destruct (schema.List (flattenGeoPools_in entries g)) as [|item cfg] eqn:Hlist.
    + exfalso. apply Hpools.
      destruct entries as [|[k ids] entries].
      * unfold range_order in Hrange. symmetry in Hrange.
        apply Permutation_nil_r in Hrange. by apply map_to_list_empty_iff.
      * pose proof (NewSet_head (HashResource (localPoolElems g))
                      (GeoConf g k ids)
                      ((λ e, GeoConf g e.1 e.2) <$> entries)) as Hhead.
        assert (Hin : GeoConf g k ids
                        ∈ schema.List (flattenGeoPools_in ((k, ids) :: entries) g)).
        { apply elem_of_List. eexists. unfold flattenGeoPools_in.
          rewrite flattenGeoPools_records_map. exact Hhead. }
        rewrite Hlist in Hin. by apply elem_of_nil in Hin.
    + apply expandGeoPools_loop_Panic.
      assert (Hin : item ∈ schema.List (flattenGeoPools_in entries g))
        by (rewrite Hlist; apply list_elem_of_here).
      apply (flattenGeoPools_in_sound pools) in Hin as [-> _]; [|done].
      by intros ->.
Qed.

End MoreCodec.

(** ** The error of expand *)

(** When the loop fails, it fails on an item whose location is bound
    already. *)
Lemma expandGeoPools_loop_error g cfg acc e :
  expandGeoPools_loop g cfg acc = Err e →
  ∃ pre item post,
    cfg = pre ++ item :: post ∧
    e = ErrDuplicateLocation g (location item) ∧
    (is_Some (acc !! location item) ∨ location item ∈ location <$> pre).
Proof.
  revert acc. induction cfg as [|item cfg IH]; intros acc; simpl; [done|].
  destruct (location_under g item) as [loc|] eqn:Hunder; [|done].
  apply location_under_Some in Hunder as [_ <-].
  destruct (acc !! location item) as [ids|] eqn:Hacc.
  - intros [= <-]. exists [], item, cfg. split; [done|]. split; [done|]. left. eauto.
  - intros (pre & item' & post & -> & -> & Hwhy)%IH.
    exists (item :: pre), item', post. split; [done|]. split; [done|].
    rewrite fmap_cons, elem_of_cons.
    destruct Hwhy as [Hsome|Hin]; [|by right; right].
    rewrite lookup_insert in Hsome. case_decide as Hloc.
    + right. by left.
    + by left.
Qed.

(** X3: when expand fails, its error carries the location kind it was
    called with and a location that two different records of the set
    share. *)
Theorem expandGeoPools_error_names_shared_location
    (s : schema.Set_) (g : geoType) (e : error) :
  expandGeoPools s g = Err e →
  ∃ loc code1 code2 item1 item2,
    e = ErrDuplicateLocation g loc ∧
    code1 ≠ code2 ∧
    s !! code1 = Some item1 ∧ s !! code2 = Some item2 ∧
    location item1 = loc ∧ location item2 = loc.
Proof.
  intros (pre & item & post & Hcfg & -> & Hwhy)%expandGeoPools_loop_error.
  destruct Hwhy as [Hsome|Hin]; [by rewrite lookup_empty in Hsome; destruct Hsome|].
  apply list_elem_of_fmap in Hin as (item' & Hloc & [i Hi]%list_elem_of_lookup).
  assert (Hj : schema.List s !! length pre = Some item).
  { rewrite Hcfg. by apply list_lookup_middle. }
  assert (Hi' : schema.List s !! i = Some item').
  { rewrite Hcfg. apply lookup_app_l_Some. done. }
  assert (Hne : i ≠ length pre).
  { apply lookup_lt_Some in Hi. lia. }
  unfold schema.List in Hi', Hj. rewrite list_lookup_fmap in Hi', Hj.
  destruct (schema.listCode s !! i) as [[c1 x1]|] eqn:H1; [|done].
  destruct (schema.listCode s !! length pre) as [[c2 x2]|] eqn:H2; [|done].
  simpl in Hi', Hj. simplify_eq.
  exists (location item), c1, c2, item', item.
  split; [done|]. split.
  - intros ->. apply Hne.
    pose proof (NoDup_listCode_fst s) as Hkeys.
    eapply NoDup_lookup; [exact Hkeys| |].
    + by rewrite list_lookup_fmap, H1.
    + by rewrite list_lookup_fmap, H2.
  - split; [apply elem_of_listCode; by eapply list_elem_of_lookup_2|].
    split; [apply elem_of_listCode; by eapply list_elem_of_lookup_2|].
    done.
Qed.

(** ** The records and the element schemas *)

(** X19: the three tables of the file agree.  For each of the two
    set-valued fields, with its location kind, the schema of the resource
    declares the field as a set whose [Elem] is the entry of
    [localPoolElems] for that kind, and every record [flattenGeoPools]
    builds for that kind has exactly the keys that element schema
    declares: the location key as a string and [pool_ids] as a list. *)
Theorem flattened_records_conform (field : string) (g : geoType)
    (entries : list (string * list string)) (item : geoConf) :
  (field, g) ∈ geo_fields →
  item ∈ flattenGeoPools_records g entries →
  (∃ sch, resourceCloudflareLoadBalancer_Schema !! field = Some sch ∧
          Type_ sch = TypeSet ∧
          Elem sch = Some (ElemResource (localPoolElems g))) ∧
  dom (Resource_Schema (localPoolElems g)) = geoConf_keys item ∧
  Type_ <$> Resource_Schema (localPoolElems g) !! geoType_string (geoKey item)
    = Some TypeString ∧
  Type_ <$> Resource_Schema (localPoolElems g) !! "pool_ids" = Some TypeList.
Proof.
  intros Hfield Hitem.
  rewrite flattenGeoPools_records_map in Hitem.
  apply list_elem_of_fmap in Hitem as ([k ids] & -> & _).
  unfold geo_fields in Hfield. unfold geoConf_keys. cbn [geoKey].
  decompose_list_elem_of; simplify_eq.
  - split; [by eexists|]. split; [|by split].
    unfold Resource_Schema, localPoolElems, geoType_string.
    rewrite !dom_list_to_map_L. set_solver.
  - split; [by eexists|]. split; [|by split].
    unfold Resource_Schema, localPoolElems, geoType_string.
    rewrite !dom_list_to_map_L. set_solver.
Qed.

(** ** What the handlers write *)

Section Frames.
Context `{API : CloudflareAPI} `{RT : GoRuntime}.
Variable allowed : ValueType → string → Prop.

Lemma writes_only_refl d : writes_only allowed d d.
Proof. by repeat split. Qed.

Lemma writes_only_trans d1 d2 d3 :
  writes_only allowed d1 d2 → writes_only allowed d2 d3 →
  writes_only allowed d1 d3.
Proof.
  intros (Hs & Hb & Hi & Hl & Ht) (Hs' & Hb' & Hi' & Hl' & Ht').
  repeat split; intros key Hkey.
  - by rewrite Hs', Hs.
  - by rewrite Hb', Hb.
  - by rewrite Hi', Hi.
  - by rewrite Hl', Hl.
  - by rewrite Ht', Ht.
Qed.

Lemma confined_bind {A B} (m : M A) (f : A → M B) :
  confined allowed m → (∀ a, confined allowed (f a)) →
  confined allowed (m ≫= f).
Proof.
  intros Hm Hf w. rewrite bind_unfold. specialize (Hm w).
  destruct (m w) as [[[a|e|] w'] t]; [|done..].
  specialize (Hf a w'). destruct (f a w') as [[r w''] t'].
  unfold final in *. simpl in *. by eapply writes_only_trans.
Qed.

Lemma confined_ret {A} (a : A) : confined allowed (mret a).
Proof. intros w. apply writes_only_refl. Qed.

Lemma confined_throw {A} (e : error) : confined allowed (mthrow e : M A).
Proof. intros w. apply writes_only_refl. Qed.

Lemma confined_get {A} (f : ResourceData → A) : confined allowed (get f).
Proof. intros w. apply writes_only_refl. Qed.

Lemma confined_lift {A} (r : result A) : confined allowed (lift r).
Proof. destruct r; intros w; apply writes_only_refl. Qed.

Lemma confined_ranging {A} (step : Runtime → Runtime * A) :
  confined allowed (ranging step).
Proof. intros w. apply writes_only_refl. Qed.

Lemma confined_deref {A} (p : option A) : confined allowed (deref p).
Proof. destruct p; intros w; apply writes_only_refl. Qed.

Lemma confined_warn_if_error err : confined allowed (warn_if_error err).
Proof. destruct err; intros w; apply writes_only_refl. Qed.

Lemma confined_invoke {A} (step : Remote → Remote * A) (ev : A → call) :
  confined allowed (invoke step ev).
Proof.
  intros w. unfold invoke. destruct (step (remote w)). apply writes_only_refl.
Qed.

Lemma confined_SetId v : confined allowed (SetId v).
Proof. intros w. by repeat split. Qed.

Lemma confined_Id : confined allowed Id.
Proof. intros w. apply writes_only_refl. Qed.

Lemma confined_Set_string key v :
  allowed TypeString key → confined allowed (Set_string key v).
Proof.
  intros Hkey w. unfold Set_string, Set_.
  destruct (SetError (data w) key); [apply writes_only_refl|].
  repeat split; try (intros key' Hkey'; simpl); try done.
  apply lookup_insert_ne. by intros ->.
Qed.

Lemma confined_Set_bool key v :
  allowed TypeBool key → confined allowed (Set_bool key v).
Proof.
  intros Hkey w. unfold Set_bool, Set_.
  destruct (SetError (data w) key); [apply writes_only_refl|].
  repeat split; try (intros key' Hkey'; simpl); try done.
  apply lookup_insert_ne. by intros ->.
Qed.

Lemma confined_Set_int key v :
  allowed TypeInt key → confined allowed (Set_int key v).
Proof.
  intros Hkey w. unfold Set_int, Set_.
  destruct (SetError (data w) key); [apply writes_only_refl|].
  repeat split; try (intros key' Hkey'; simpl); try done.
  apply lookup_insert_ne. by intros ->.
Qed.

Lemma confined_Set_list key v :
  allowed TypeList key → confined allowed (Set_list key v).
Proof.
  intros Hkey w. unfold Set_list, Set_.
  destruct (SetError (data w) key); [apply writes_only_refl|].
  repeat split; try (intros key' Hkey'; simpl); try done.
  apply lookup_insert_ne. by intros ->.
Qed.

Lemma confined_Set_set key v :
  allowed TypeSet key → confined allowed (Set_set key v).
Proof.
  intros Hkey w. unfold Set_set, Set_.
  destruct (SetError (data w) key); [apply writes_only_refl|].
  repeat split; try (intros key' Hkey'; simpl); try done.
  apply lookup_insert_ne. by intros ->.
Qed.

End Frames.

(** Splits a handler into its steps; [side] settles that a key is
    allowed. *)
Ltac confine side :=
  repeat first
    [ apply confined_bind; [|intros ?]
    | apply confined_ret
    | apply confined_throw
    | apply confined_get
    | apply confined_Id
    | apply confined_lift
    | apply confined_ranging
    | apply confined_deref
    | apply confined_warn_if_error
    | apply confined_invoke
    | apply confined_SetId
    | apply confined_Set_string; side
    | apply confined_Set_bool; side
    | apply confined_Set_int; side
    | apply confined_Set_list; side
    | apply confined_Set_set; side
    | match goal with
      | |- confined _ (match ?x with _ => _ end) => destruct x
      end ].

Section HandlerFrames.
Context `{API : CloudflareAPI} `{RT : GoRuntime}.

Lemma confined_declared_Read :
  confined declared resourceCloudflareLoadBalancerRead.
Proof.
  unfold resourceCloudflareLoadBalancerRead.
  confine ltac:(vm_compute; reflexivity).
Qed.

(** X4: whatever the remote system answers and whichever writes the SDK
    refuses, each of the five handlers changes the value of a key only if
    the schema of the resource declares the key with the type of that
    value. *)
Theorem handlers_write_declared_keys (w : World) :
  writes_only declared (data w) (data (final (resourceCloudflareLoadBalancerCreate w))) ∧
  writes_only declared (data w) (data (final (resourceCloudflareLoadBalancerRead w))) ∧
  writes_only declared (data w) (data (final (resourceCloudflareLoadBalancerUpdate w))) ∧
  writes_only declared (data w) (data (final (resourceCloudflareLoadBalancerDelete w))) ∧
  writes_only declared (data w) (data (final (resourceCloudflareLoadBalancerImport w))).
Proof.
  pose proof confined_declared_Read as HRead.
  assert (HCreate : confined declared resourceCloudflareLoadBalancerCreate).
  { unfold resourceCloudflareLoadBalancerCreate.
    confine ltac:(vm_compute; reflexivity); exact HRead. }
  assert (HUpdate : confined declared resourceCloudflareLoadBalancerUpdate).
  { unfold resourceCloudflareLoadBalancerUpdate.
    confine ltac:(vm_compute; reflexivity); exact HRead. }
  assert (HDelete : confined declared resourceCloudflareLoadBalancerDelete).
  { unfold resourceCloudflareLoadBalancerDelete.
    confine ltac:(vm_compute; reflexivity). }
  assert (HImport : confined declared resourceCloudflareLoadBalancerImport).
  { unfold resourceCloudflareLoadBalancerImport.
    confine ltac:(vm_compute; reflexivity). }
  split; [apply HCreate|]. split; [apply HRead|]. split; [apply HUpdate|].
  split; [apply HDelete|apply HImport].
Qed.

End HandlerFrames.

(** ** More on Read *)

Section MoreRead.
Context `{API : CloudflareAPI} `{RT : GoRuntime}.

Lemma confined_not_zone_Read :
  confined not_zone resourceCloudflareLoadBalancerRead.
Proof.
  unfold resourceCloudflareLoadBalancerRead. confine ltac:(by split).
Qed.

Lemma Read_keeps_zone w :
  Get_string (data (final (resourceCloudflareLoadBalancerRead w))) "zone"
    = Get_string (data w) "zone" ∧
  Get_string (data (final (resourceCloudflareLoadBalancerRead w))) "zone_id"
    = Get_string (data w) "zone_id".
Proof.
  destruct (confined_not_zone_Read w) as (Hs & _). unfold Get_string.
  split; (rewrite Hs; [done|]); by intros [? ?].
Qed.

Lemma Read_id_cases w :
  rd_id (data (final (resourceCloudflareLoadBalancerRead w))) = rd_id (data w) ∨
  rd_id (data (final (resourceCloudflareLoadBalancerRead w))) = "" ∧
  ∃ s text,
    LoadBalancerDetails (remote w) (Get_string (data w) "zone_id") (rd_id (data w))
      = (s, inl text) ∧
    go_strings.Contains text "HTTP status 404" = true.
Proof.
  rewrite Read_unfold. cbn zeta.
  destruct (LoadBalancerDetails _ _ _) as [s [text|lb]].
  - destruct (go_strings.Contains text "HTTP status 404") eqn:H404.
    + right. split; [done|]. by exists s, text.
    + by left.
  - left. destruct (quiet_Read_store lb
      {| data := data w; remote := s; runtime := runtime w |})
      as (_ & _ & Hid).
    by destruct (Read_store lb _) as [[r w'] t'].
Qed.

(** X5: however Read ends and whichever writes the SDK refuses, Read leaves
    [zone] and [zone_id] as they were, and it leaves the identifier as it
    was unless the details lookup failed with a text that contains
    "HTTP status 404", in which case the identifier is empty. *)
Theorem Read_keeps_zone_and_id (w : World) :
  Get_string (data (final (resourceCloudflareLoadBalancerRead w))) "zone"
    = Get_string (data w) "zone" ∧
  Get_string (data (final (resourceCloudflareLoadBalancerRead w))) "zone_id"
    = Get_string (data w) "zone_id" ∧
  (rd_id (data (final (resourceCloudflareLoadBalancerRead w))) = rd_id (data w) ∨
   rd_id (data (final (resourceCloudflareLoadBalancerRead w))) = "" ∧
   ∃ s text,
     LoadBalancerDetails (remote w) (Get_string (data w) "zone_id") (rd_id (data w))
       = (s, inl text) ∧
     go_strings.Contains text "HTTP status 404" = true).
Proof.
  destruct (Read_keeps_zone w) as [Hzone HzoneID].
  split; [exact Hzone|]. split; [exact HzoneID|]. apply Read_id_cases.
Qed.

(** With every write accepted, [Read_store] stores all it was given. *)
Lemma Read_store_accepted lb enabled createdOn modifiedOn w :
  (∀ d key, SetError d key = None) →
  Enabled lb = Some enabled → CreatedOn lb = Some createdOn →
  ModifiedOn lb = Some modifiedOn →
  Read_store lb w
    = (Ok (),
       {| data := Read_stored lb enabled createdOn modifiedOn
                    (Read_flattened lb (runtime w)).1.1
                    (Read_flattened lb (runtime w)).1.2 (data w);
          remote := remote w;
          runtime := (Read_flattened lb (runtime w)).2 |}, []).
Proof.
  intros Hacc Hen Hcr Hmo. unfold Read_store. rewrite Hen, Hcr, Hmo.
  unfold Set_string, Set_bool, Set_int, Set_list, Set_set.
  run_accepted Hacc. reflexivity.
Qed.

Lemma Read_accepted w s lb enabled createdOn modifiedOn :
  (∀ d key, SetError d key = None) →
  LoadBalancerDetails (remote w) (Get_string (data w) "zone_id") (rd_id (data w))
    = (s, inr lb) →
  Enabled lb = Some enabled → CreatedOn lb = Some createdOn →
  ModifiedOn lb = Some modifiedOn →
  resourceCloudflareLoadBalancerRead w
    = (Ok (),
       {| data := Read_stored lb enabled createdOn modifiedOn
                    (Read_flattened lb (runtime w)).1.1
                    (Read_flattened lb (runtime w)).1.2 (data w);
          remote := s;
          runtime := (Read_flattened lb (runtime w)).2 |},
       [CallLoadBalancerDetails (Get_string (data w) "zone_id") (rd_id (data w))
          (inr lb)]).
Proof.
  intros Hacc Hfetch Hen Hcr Hmo. rewrite Read_unfold. cbn zeta. rewrite Hfetch.
  by rewrite (Read_store_accepted lb enabled createdOn modifiedOn).
Qed.

(** What reads back from [Read_stored]. *)
Lemma Read_stored_fields lb enabled createdOn modifiedOn popPools regionPools d :
  let d' := Read_stored lb enabled createdOn modifiedOn popPools regionPools d in
  rd_id d' = rd_id d ∧
  Get_string d' "name" = Name lb ∧
  Get_string d' "fallback_pool_id" = FallbackPool lb ∧
  Get_bool d' "proxied" = Proxied lb ∧
  Get_bool d' "enabled" = enabled ∧
  Get_string d' "description" = Description lb ∧
  Get_int d' "ttl" = TTL lb ∧
  Get_string d' "steering_policy" = SteeringPolicy lb ∧
  Get_string d' "session_affinity" = Persistence lb ∧
  Get_string d' "created_on" = FormatRFC3339Nano createdOn ∧
  Get_string d' "modified_on" = FormatRFC3339Nano modifiedOn ∧
  Get_list d' "default_pool_ids" = DefaultPools lb ∧
  Get_set d' "pop_pools" = popPools ∧
  Get_set d' "region_pools" = regionPools.
Proof.
  unfold Read_stored, Get_string, Get_bool, Get_int, Get_list, Get_set.
  cbn [rd_id rd_strings rd_bools rd_ints rd_lists rd_sets
       with_string with_bool with_int with_list with_set].
  repeat split; by simplify_map_eq.
Qed.

(** X6: when the SDK accepts every write and the details lookup succeeds
    with an object that carries an enabled flag and its two timestamps,
    Read returns and every field reads back as fetched: the scalar fields,
    the two timestamps in RFC 3339 form, the default pools, and the pop and
    region pools as the sets [flattenGeoPools] made of the two maps, in the
    two visits the runtime picked, pop pools first; the identifier is
    unchanged. *)
Theorem Read_populates_fields (w : World) (s : Remote) (lb : LoadBalancer)
    (enabled : bool) (createdOn modifiedOn : Time) :
  (∀ d key, SetError d key = None) →
  LoadBalancerDetails (remote w) (Get_string (data w) "zone_id") (rd_id (data w))
    = (s, inr lb) →
  Enabled lb = Some enabled →
  CreatedOn lb = Some createdOn →
  ModifiedOn lb = Some modifiedOn →
  let d' := data (final (resourceCloudflareLoadBalancerRead w)) in
  let popPools := flattenGeoPools (PopPools lb) pop (runtime w) in
  let regionPools := flattenGeoPools (RegionPools lb) region popPools.1 in
  outcome (resourceCloudflareLoadBalancerRead w) = Ok () ∧
  rd_id d' = rd_id (data w) ∧
  Get_string d' "name" = Name lb ∧
  Get_string d' "fallback_pool_id" = FallbackPool lb ∧
  Get_bool d' "proxied" = Proxied lb ∧
  Get_bool d' "enabled" = enabled ∧
  Get_string d' "description" = Description lb ∧
  Get_int d' "ttl" = TTL lb ∧
  Get_string d' "steering_policy" = SteeringPolicy lb ∧
  Get_string d' "session_affinity" = Persistence lb ∧
  Get_string d' "created_on" = FormatRFC3339Nano createdOn ∧
  Get_string d' "modified_on" = FormatRFC3339Nano modifiedOn ∧
  Get_list d' "default_pool_ids" = DefaultPools lb ∧
  Get_set d' "pop_pools" = popPools.2 ∧
  Get_set d' "region_pools" = regionPools.2 ∧
  runtime (final (resourceCloudflareLoadBalancerRead w)) = regionPools.1.
Proof.
  intros Hacc Hfetch Hen Hcr Hmo d' popPools regionPools.
  subst d' popPools regionPools.
  rewrite (Read_accepted w s lb enabled createdOn modifiedOn) by done.
  unfold outcome, final. cbn [fst snd data runtime].
  split; [done|].
  pose proof (Read_stored_fields lb enabled createdOn modifiedOn
                (Read_flattened lb (runtime w)).1.1
                (Read_flattened lb (runtime w)).1.2 (data w)) as Hfields.
  cbn zeta in Hfields.
  destruct Hfields
    as (H1 & H2 & H3 & H4 & H5 & H6 & H7 & H8 & H9 & H10 & H11 & H12 & H13 & H14).
  by repeat (split; [assumption|]).
Qed.

Lemma ResourceData_eq (d d' : ResourceData) :
  rd_id d = rd_id d' → rd_strings d = rd_strings d' →
  rd_bools d = rd_bools d' → rd_ints d = rd_ints d' →
  rd_lists d = rd_lists d' → rd_sets d = rd_sets d' → d = d'.
Proof. destruct d, d'. simpl. by intros -> -> -> -> -> ->. Qed.

Lemma Read_stored_idempotent lb enabled createdOn modifiedOn popPools regionPools d :
  Read_stored lb enabled createdOn modifiedOn popPools regionPools
    (Read_stored lb enabled createdOn modifiedOn popPools regionPools d)
  = Read_stored lb enabled createdOn modifiedOn popPools regionPools d.
Proof.
  apply ResourceData_eq;
    cbn [Read_stored rd_id rd_strings rd_bools rd_ints rd_lists rd_sets
         with_string with_bool with_int with_list with_set];
    rewrite ?insert_id by (by simplify_map_eq); reflexivity.
Qed.

Lemma Read_stored_keeps lb enabled createdOn modifiedOn popPools regionPools d :
  let d' := Read_stored lb enabled createdOn modifiedOn popPools regionPools d in
  rd_id d' = rd_id d ∧ Get_string d' "zone_id" = Get_string d "zone_id".
Proof.
  unfold Read_stored, Get_string.
  cbn [rd_id rd_strings with_string with_bool with_int with_list with_set].
  split; [done|]. by simplify_map_eq.
Qed.

(** Without collisions, the sets of the two visits do not depend on the
    runtime. *)
Lemma flattenGeoPools_order pools g rt rt' :
  collision_free g pools →
  (flattenGeoPools pools g rt).2 = (flattenGeoPools pools g rt').2.
Proof.
  intros Hfree. unfold flattenGeoPools.
  pose proof (range_visits rt pools) as Hrange.
  pose proof (range_visits rt' pools) as Hrange'.
  destruct (range rt pools) as [rt1 entries].
  destruct (range rt' pools) as [rt1' entries'].
  by apply (flattenGeoPools_in_order pools).
Qed.

Lemma Read_flattened_order lb rt rt' :
  collision_free pop (PopPools lb) → collision_free region (RegionPools lb) →
  (Read_flattened lb rt).1 = (Read_flattened lb rt').1.
Proof.
  intros Hpop Hregion. unfold Read_flattened. cbn [fst snd].
  f_equal; by apply flattenGeoPools_order.
Qed.

(** X7: Read is idempotent on a resource that exists, whatever the order
    of the visits: when the SDK accepts every write, the remote system
    answers a second details lookup as it answered the first, with an
    object that carries an enabled flag and its two timestamps, and no two
    entries of its pop pools, nor of its region pools, collide on their
    hash code, a second Read returns too and leaves the resource data
    exactly as the first left it. *)
Theorem Read_idempotent (w : World) (s1 s2 : Remote) (lb : LoadBalancer)
    (enabled : bool) (createdOn modifiedOn : Time) :
  (∀ d key, SetError d key = None) →
  LoadBalancerDetails (remote w) (Get_string (data w) "zone_id") (rd_id (data w))
    = (s1, inr lb) →
  LoadBalancerDetails s1 (Get_string (data w) "zone_id") (rd_id (data w))
    = (s2, inr lb) →
  Enabled lb = Some enabled →
  CreatedOn lb = Some createdOn →
  ModifiedOn lb = Some modifiedOn →
  collision_free pop (PopPools lb) →
  collision_free region (RegionPools lb) →
  outcome (resourceCloudflareLoadBalancerRead
             (final (resourceCloudflareLoadBalancerRead w))) = Ok () ∧
  data (final (resourceCloudflareLoadBalancerRead
                 (final (resourceCloudflareLoadBalancerRead w))))
    = data (final (resourceCloudflareLoadBalancerRead w)).
Proof.
  intros Hacc Hfetch1 Hfetch2 Hen Hcr Hmo Hpop Hregion.
  rewrite (Read_accepted w s1 lb enabled createdOn modifiedOn) by done.
  change (final (Ok (), ?w1, ?t)) with w1.
  destruct (Read_stored_keeps lb enabled createdOn modifiedOn
              (Read_flattened lb (runtime w)).1.1
              (Read_flattened lb (runtime w)).1.2 (data w)) as [Hid HzoneID].
  rewrite (Read_accepted _ s2 lb enabled createdOn modifiedOn);
    [| done | | done..].
  - unfold outcome, final. cbn [fst snd data runtime].
    rewrite (Read_flattened_order lb _ (runtime w)) by done.
    by rewrite Read_stored_idempotent.
  - cbn [data remote]. by rewrite Hid, HzoneID.
Qed.

(** X18: when the details lookup succeeds with an object that has no
    enabled flag, Read panics, having made its one call and -- the SDK
    accepting the writes -- written [name], [fallback_pool_id] and
    [proxied] and nothing after them: the resource data is left half
    updated. *)
Theorem Read_panics_half_written (w : World) (s : Remote) (lb : LoadBalancer) :
  (∀ d key, SetError d key = None) →
  LoadBalancerDetails (remote w) (Get_string (data w) "zone_id") (rd_id (data w))
    = (s, inr lb) →
  Enabled lb = None →
  resourceCloudflareLoadBalancerRead w
    = (Panic,
       {| data := Read_stored_before_enabled lb (data w); remote := s;
          runtime := runtime w |},
       [CallLoadBalancerDetails (Get_string (data w) "zone_id") (rd_id (data w))
          (inr lb)]).
Proof.
  intros Hacc Hfetch Hen. rewrite Read_unfold. cbn zeta. rewrite Hfetch.
  unfold Read_store. rewrite Hen. unfold Set_string, Set_bool.
  run_accepted Hacc. reflexivity.
Qed.

End MoreRead.

(** ** Read, then Update *)

Section ReadUpdate.
Context `{API : CloudflareAPI} `{RT : GoRuntime}.

Lemma expand_into_Err d key g store lb e :
  expand_into d key g store lb = Err e →
  expandGeoPools (Get_set d key) g = Err e.
Proof.
  unfold expand_into, GetOk_set. case_bool_decide; [|done].
  destruct (expandGeoPools _ _); [done|by intros [= ->]|done].
Qed.

Lemma expand_into_Panic d key g store lb :
  expand_into d key g store lb = Panic →
  expandGeoPools (Get_set d key) g = Panic.
Proof.
  unfold expand_into, GetOk_set. case_bool_decide; [|done].
  by destruct (expandGeoPools _ _).
Qed.

(** What [expand_into] stores, and that it stores nothing else. *)
Lemma expand_into_Ok d key g store lb lb' :
  expand_into d key g store lb = Ok lb' →
  (schema.Len (Get_set d key) = 0%nat ∧ lb' = lb) ∨
  (∃ m, expandGeoPools (Get_set d key) g = Ok m ∧ lb' = store m lb).
Proof.
  unfold expand_into, GetOk_set. case_bool_decide as Hlen.
  - destruct (expandGeoPools _ _) as [m|e|]; [|done..].
    intros [= <-]. right. by exists m.
  - intros [= <-]. left. split; [|done].
    destruct (schema.Len _); [done|]. by destruct Hlen.
Qed.

(** The fields of the object Update builds. *)
Lemma Update_loadBalancer_fields d lb :
  Update_loadBalancer d = Ok lb →
  ID lb = rd_id d ∧
  Name lb = Get_string d "name" ∧
  FallbackPool lb = Get_string d "fallback_pool_id" ∧
  DefaultPools lb = Get_list d "default_pool_ids" ∧
  Proxied lb = Get_bool d "proxied" ∧
  Enabled lb = Some (Get_bool d "enabled") ∧
  TTL lb = Get_int d "ttl" ∧
  SteeringPolicy lb = Get_string d "steering_policy" ∧
  Persistence lb = Get_string d "session_affinity" ∧
  Description lb = Get_string d "description" ∧
  CreatedOn lb = None ∧ ModifiedOn lb = None ∧
  (schema.Len (Get_set d "region_pools") = 0%nat ∧ RegionPools lb = ∅ ∨
   expandGeoPools (Get_set d "region_pools") region = Ok (RegionPools lb)) ∧
  (schema.Len (Get_set d "pop_pools") = 0%nat ∧ PopPools lb = ∅ ∨
   expandGeoPools (Get_set d "pop_pools") pop = Ok (PopPools lb)).
Proof.
  unfold Update_loadBalancer. cbv zeta.
  destruct (expand_into d "region_pools" _ _ _) as [lb1|e|] eqn:Hregion;
    [|done..].
  intros Hpop.
  apply expand_into_Ok in Hregion as [[Hr0 ->]|(mr & Hmr & ->)];
    apply expand_into_Ok in Hpop as [[Hp0 ->]|(mp & Hmp & ->)];
    unfold GetOk_string; case_bool_decide as Hdesc;
    cbn [ID Name FallbackPool DefaultPools Proxied Enabled TTL SteeringPolicy
         Persistence Description CreatedOn ModifiedOn RegionPools PopPools
         with_Description with_RegionPools with_PopPools fst snd];
    rewrite ?expandInterfaceToStringList_copy;
    repeat split; try done; try (by left); try (by right).
  all: apply dec_stable in Hdesc; by rewrite Hdesc.
Qed.

(** X8: Read followed by Update sends back what was fetched.  When the SDK
    accepts every write, the details lookup succeeds with an object that
    carries an enabled flag and its two timestamps, and no two entries of
    its pop pools, nor of its region pools, collide on their hash code,
    then, whatever the order of the visits was, from the data Read leaves
    Update builds a request object that has the identifier of the resource
    and the name, fallback pool, default pools, proxied and enabled flags,
    TTL, steering policy, session affinity, description, region pools and
    pop pools of the fetched object. *)
Theorem Update_after_Read_resends_fetched (w : World) (s : Remote)
    (lb : LoadBalancer) (enabled : bool) (createdOn modifiedOn : Time) :
  (∀ d key, SetError d key = None) →
  LoadBalancerDetails (remote w) (Get_string (data w) "zone_id") (rd_id (data w))
    = (s, inr lb) →
  Enabled lb = Some enabled →
  CreatedOn lb = Some createdOn →
  ModifiedOn lb = Some modifiedOn →
  collision_free pop (PopPools lb) →
  collision_free region (RegionPools lb) →
  ∃ loadBalancer,
    Update_loadBalancer (data (final (resourceCloudflareLoadBalancerRead w)))
      = Ok loadBalancer ∧
    ID loadBalancer = rd_id (data w) ∧
    Name loadBalancer = Name lb ∧
    FallbackPool loadBalancer = FallbackPool lb ∧
    DefaultPools loadBalancer = DefaultPools lb ∧
    Proxied loadBalancer = Proxied lb ∧
    Enabled loadBalancer = Enabled lb ∧
    TTL loadBalancer = TTL lb ∧
    SteeringPolicy loadBalancer = SteeringPolicy lb ∧
    Persistence loadBalancer = Persistence lb ∧
    Description loadBalancer = Description lb ∧
    RegionPools loadBalancer = RegionPools lb ∧
    PopPools loadBalancer = PopPools lb.
Proof.
  intros Hacc Hfetch Hen Hcr Hmo Hpop Hregion.
  rewrite (Read_accepted w s lb enabled createdOn modifiedOn) by done.
  unfold final. cbn [fst snd data].
  set (popPools := (Read_flattened lb (runtime w)).1.1).
  set (regionPools := (Read_flattened lb (runtime w)).1.2).
  pose proof (Read_stored_fields lb enabled createdOn modifiedOn popPools
                regionPools (data w)) as Hfields.
  cbn zeta in Hfields.
  destruct Hfields
    as (Hid & Hname & Hfb & Hprox & Henab & Hdesc & Httl & Hsteer & Hpers & _ & _
        & Hdef & Hpp & Hrp).
  assert (Hflat : ∀ pools g rt,
            collision_free g pools →
            expandGeoPools (flattenGeoPools pools g rt).2 g = Ok pools ∧
            schema.Len (flattenGeoPools pools g rt).2 = size pools).
  { intros pools g rt Hfree. unfold flattenGeoPools.
    pose proof (range_visits rt pools) as Hrange.
    destruct (range rt pools) as [rt' entries]. cbn [snd]. split.
    - by apply expandGeoPools_flattenGeoPools_in.
    - by apply flattenGeoPools_in_Len. }
  destruct (Hflat (PopPools lb) pop (runtime w) Hpop) as [Hexp_pop Hlen_pop].
  destruct (Hflat (RegionPools lb) region
              (flattenGeoPools (PopPools lb) pop (runtime w)).1 Hregion)
    as [Hexp_region Hlen_region].
  change (flattenGeoPools (PopPools lb) pop (runtime w)).2
    with popPools in Hexp_pop, Hlen_pop.
  change (flattenGeoPools (RegionPools lb) region
            (flattenGeoPools (PopPools lb) pop (runtime w)).1).2
    with regionPools in Hexp_region, Hlen_region.
  destruct (Update_loadBalancer
              (Read_stored lb enabled createdOn modifiedOn popPools regionPools
                 (data w)))
    as [loadBalancer|e|] eqn:Hbuilt.
  - exists loadBalancer. split; [done|].
    apply Update_loadBalancer_fields in Hbuilt
      as (HID & HName & HFb & HDef & HProx & HEn & HTTL & HSteer & HPers & HDesc
          & _ & _ & HRegion & HPop).
    rewrite Hpp in HPop. rewrite Hrp in HRegion.
    repeat split; try congruence.
    + destruct HRegion as [[Hzero ->]|Hexp]; [|congruence].
      rewrite Hlen_region in Hzero. symmetry. by apply map_size_empty_iff.
    + destruct HPop as [[Hzero ->]|Hexp]; [|congruence].
      rewrite Hlen_pop in Hzero. symmetry. by apply map_size_empty_iff.
  - exfalso. unfold Update_loadBalancer in Hbuilt. cbv zeta in Hbuilt.
    destruct (expand_into _ "region_pools" _ _ _) as [lb1|e'|] eqn:Hr.
    + apply expand_into_Err in Hbuilt. congruence.
    + apply expand_into_Err in Hr. congruence.
    + done.
  - exfalso. unfold Update_loadBalancer in Hbuilt. cbv zeta in Hbuilt.
    destruct (expand_into _ "region_pools" _ _ _) as [lb1|e'|] eqn:Hr.
    + apply expand_into_Panic in Hbuilt. congruence.
    + done.
    + apply expand_into_Panic in Hr. congruence.
Qed.

End ReadUpdate.

(** ** More on Create, Update, Delete and Import *)

Section MoreLifecycle.
Context `{API : CloudflareAPI} `{RT : GoRuntime}.

Lemma Delete_unfold w :
  resourceCloudflareLoadBalancerDelete w =
    let zoneID := Get_string (data w) "zone_id" in
    let loadBalancerID := rd_id (data w) in
    let '(s, r) := DeleteLoadBalancer (remote w) zoneID loadBalancerID in
    (match r with
     | Some err => Err (ErrDeleting (ErrClient err))
     | None => Ok ()
     end,
     {| data := data w; remote := s; runtime := runtime w |},
     [CallDeleteLoadBalancer zoneID loadBalancerID r]).
Proof.
  unfold resourceCloudflareLoadBalancerDelete, Id, get, invoke.
  unfold mbind, M_bind, bind. cbn beta iota zeta.
  by destruct (DeleteLoadBalancer _ _ _) as [s [err|]].
Qed.

Lemma no_error_bind {A B} (m : M A) (f : A → M B) :
  no_error m → (∀ a, no_error (f a)) → no_error (m ≫= f).
Proof.
  intros Hm Hf w e. rewrite bind_unfold. specialize (Hm w e).
  destruct (m w) as [[[a|e'|] w'] t].
  - specialize (Hf a w' e). destruct (f a w') as [[r w''] t']. exact Hf.
  - unfold outcome in *. cbn [fst] in *. congruence.
  - by unfold outcome.
Qed.

Lemma no_error_Set key write : no_error (Set_ key write).
Proof. intros w e. unfold Set_. by destruct (SetError (data w) key). Qed.

Lemma no_error_deref {A} (p : option A) : no_error (deref p).
Proof. by destruct p. Qed.

Lemma no_error_warn_if_error err : no_error (warn_if_error err).
Proof. by destruct err. Qed.

Lemma no_error_ret {A} (a : A) : no_error (mret a).
Proof. done. Qed.

Lemma no_error_ranging {A} (step : Runtime → Runtime * A) :
  no_error (ranging step).
Proof. done. Qed.

Lemma no_error_Read_store lb : no_error (Read_store lb).
Proof.
  unfold Read_store, Set_string, Set_bool, Set_int, Set_list, Set_set.
  repeat first
    [ apply no_error_bind; [|intros ?]
    | apply no_error_Set
    | apply no_error_deref
    | apply no_error_warn_if_error
    | apply no_error_ranging
    | apply no_error_ret ].
Qed.

(** Read ends in an error only when the lookup failed, and then the data
    is untouched. *)
Lemma Read_error_keeps_data w e :
  outcome (resourceCloudflareLoadBalancerRead w) = Err e →
  data (final (resourceCloudflareLoadBalancerRead w)) = data w.
Proof.
  rewrite Read_unfold. cbn zeta.
  destruct (LoadBalancerDetails _ _ _) as [s [text|lb]].
  - by destruct (go_strings.Contains text "HTTP status 404").
  - pose proof (no_error_Read_store lb
      {| data := data w; remote := s; runtime := runtime w |} e) as Hno.
    destruct (Read_store lb _) as [[r w'] t']. intros Herr. by destruct Hno.
Qed.

End MoreLifecycle.

Section MoreHandlers.
Context `{API : CloudflareAPI} `{RT : GoRuntime}.

(** X9: Delete makes one remote call, the deletion of the object that
    [zone_id] and the identifier name; it returns without error exactly
    when the remote system reports none, returns the remote error wrapped
    otherwise, and in both cases leaves the resource data, the identifier
    included, as it was. *)
Theorem Delete_one_call_data_untouched (w : World) :
  calls (resourceCloudflareLoadBalancerDelete w)
    = [CallDeleteLoadBalancer (Get_string (data w) "zone_id") (rd_id (data w))
         (DeleteLoadBalancer (remote w) (Get_string (data w) "zone_id")
            (rd_id (data w))).2] ∧
  data (final (resourceCloudflareLoadBalancerDelete w)) = data w ∧
  outcome (resourceCloudflareLoadBalancerDelete w)
    = match (DeleteLoadBalancer (remote w) (Get_string (data w) "zone_id")
               (rd_id (data w))).2 with
      | Some text => Err (ErrDeleting (ErrClient text))
      | None => Ok ()
      end.
Proof.
  rewrite Delete_unfold. cbn zeta.
  by destruct (DeleteLoadBalancer _ _ _) as [s [text|]].
Qed.

(** X10: a Read, an Update or an Import that returns an error has not
    changed the resource data. *)
Theorem error_leaves_data_untouched (w : World) (e : error) :
  (outcome (resourceCloudflareLoadBalancerRead w) = Err e →
   data (final (resourceCloudflareLoadBalancerRead w)) = data w) ∧
  (outcome (resourceCloudflareLoadBalancerUpdate w) = Err e →
   data (final (resourceCloudflareLoadBalancerUpdate w)) = data w) ∧
  (outcome (resourceCloudflareLoadBalancerImport w) = Err e →
   data (final (resourceCloudflareLoadBalancerImport w)) = data w).
Proof.
  split; [apply Read_error_keeps_data|]. split.
  - rewrite Update_unfold. cbn zeta.
    destruct (Update_loadBalancer (data w)) as [lb|err|]; [|done..].
    destruct (ModifyLoadBalancer _ _ _) as [s [text|r]]; [done|].
    pose proof (Read_error_keeps_data
        {| data := data w; remote := s; runtime := runtime w |} e) as HRead.
    by destruct (resourceCloudflareLoadBalancerRead _) as [[r' w'] t'].
  - rewrite Import_unfold.
    destruct (go_strings.SplitN _ _ _) as [|zoneName [|id [|? ?]]]; try done.
    cbn zeta. by destruct (ZoneIDByName _ _) as [s [text|zoneID]].
Qed.

(** Expand accepts the empty set. *)
Lemma expandGeoPools_Len_0 s g :
  schema.Len s = 0%nat → expandGeoPools s g = Ok ∅.
Proof.
  intros ->%map_size_empty_iff. unfold expandGeoPools. by rewrite List_empty.
Qed.

Lemma expand_into_Err_iff d key g store lb e :
  expand_into d key g store lb = Err e ↔
  expandGeoPools (Get_set d key) g = Err e.
Proof.
  split; [apply expand_into_Err|].
  unfold expand_into, GetOk_set. intros He. case_bool_decide as Hlen.
  - by rewrite He.
  - rewrite expandGeoPools_Len_0 in He; [done|].
    destruct (schema.Len _); [done|]. by destruct Hlen.
Qed.

Lemma expand_into_is_Ok d key g store lb m :
  expandGeoPools (Get_set d key) g = Ok m →
  ∃ lb', expand_into d key g store lb = Ok lb'.
Proof.
  unfold expand_into, GetOk_set. intros Hm. case_bool_decide; [|eauto].
  rewrite Hm. eauto.
Qed.

(** X11: a location declared twice aborts Update, and Create when a zone
    is declared, before any remote call and with nothing written:
    [region_pools] is checked first, [pop_pools] when [region_pools]
    passes, and the handler returns the error of expand. *)
Theorem duplicate_location_aborts (w : World) (e : error) :
  expandGeoPools (Get_set (data w) "region_pools") region = Err e ∨
  (∃ m, expandGeoPools (Get_set (data w) "region_pools") region = Ok m) ∧
  expandGeoPools (Get_set (data w) "pop_pools") pop = Err e →
  resourceCloudflareLoadBalancerUpdate w = (Err e, w, []) ∧
  (¬ (Get_string (data w) "zone" = "" ∧ Get_string (data w) "zone_id" = "") →
   resourceCloudflareLoadBalancerCreate w = (Err e, w, [])).
Proof.
  intros Hdup.
  assert (HU : Update_loadBalancer (data w) = Err e).
  { unfold Update_loadBalancer. cbv zeta.
    destruct Hdup as [Hregion|[[m Hm] Hpop]].
    - eapply expand_into_Err_iff in Hregion. by rewrite Hregion.
    - eapply expand_into_is_Ok in Hm as [lb' Hlb']. rewrite Hlb'.
      by apply expand_into_Err_iff. }
  assert (HC : Create_newLoadBalancer (data w) = Err e).
  { unfold Create_newLoadBalancer. cbv zeta.
    destruct Hdup as [Hregion|[[m Hm] Hpop]].
    - eapply expand_into_Err_iff in Hregion. by rewrite Hregion.
    - eapply expand_into_is_Ok in Hm as [lb' Hlb']. rewrite Hlb'.
      by apply expand_into_Err_iff. }
  split.
  - rewrite Update_unfold. cbn zeta. by rewrite HU.
  - intros Hzone. rewrite Create_unfold. cbn zeta.
    rewrite decide_False by done. by rewrite HC.
Qed.

(** X12: when no zone identifier is declared and the lookup of the declared
    zone name fails, Create returns the lookup error wrapped, having made
    that one call: it sends no creation request and writes nothing. *)
Theorem Create_zone_lookup_failure (w : World) (newLoadBalancer : LoadBalancer)
    (s : Remote) (text : string) :
  Get_string (data w) "zone_id" = "" →
  Get_string (data w) "zone" ≠ "" →
  Create_newLoadBalancer (data w) = Ok newLoadBalancer →
  ZoneIDByName (remote w) (Get_string (data w) "zone") = (s, inl text) →
  outcome (resourceCloudflareLoadBalancerCreate w)
    = Err (ErrFindingZone (Get_string (data w) "zone") (ErrClient text)) ∧
  calls (resourceCloudflareLoadBalancerCreate w)
    = [CallZoneIDByName (Get_string (data w) "zone") (inl text)] ∧
  data (final (resourceCloudflareLoadBalancerCreate w)) = data w.
Proof.
  intros HzoneID Hzone Hbuilt Hlookup. rewrite Create_unfold. cbn zeta.
  rewrite decide_False by (by intros [? _]).
  rewrite Hbuilt, decide_True by done. by rewrite Hlookup.
Qed.

(** The ways of Create: it stops before the creation call, having at most
    looked the zone up, or it makes the creation call and goes by its
    answer. *)
Lemma Create_cases w :
  (∀ c, c ∈ calls (resourceCloudflareLoadBalancerCreate w) →
        ∃ zoneName r, c = CallZoneIDByName zoneName r) ∨
  ∃ zoneID lb s2 answer t0 d',
    (∀ c, c ∈ t0 → ∃ zoneName r, c = CallZoneIDByName zoneName r) ∧
    rd_id d' = rd_id (data w) ∧
    (SetError (data w) "zone_id" = None → Get_string d' "zone_id" = zoneID) ∧
    resourceCloudflareLoadBalancerCreate w =
      match answer with
      | inl text =>
          (Err (ErrWrap (ErrClient text) "error creating load balancer for zone"),
           {| data := d'; remote := s2; runtime := runtime w |},
           t0 ++ [CallCreateLoadBalancer zoneID lb (inl text)])
      | inr r =>
          if decide (ID r = "") then
            (Err ErrNoID, {| data := d'; remote := s2; runtime := runtime w |},
             t0 ++ [CallCreateLoadBalancer zoneID lb (inr r)])
          else
            let '(r', w', t') :=
              resourceCloudflareLoadBalancerRead
                {| data := with_id (ID r) d'; remote := s2; runtime := runtime w |} in
            (r', w', (t0 ++ [CallCreateLoadBalancer zoneID lb (inr r)]) ++ t')
      end.
Proof.
  rewrite Create_unfold. cbn zeta.
  case_decide as Hzone; [left; by intros c ?%elem_of_nil|].
  destruct (Create_newLoadBalancer (data w)) as [lb|err|];
    [|left; by intros c ?%elem_of_nil..].
  destruct (if decide (Get_string (data w) "zone_id" = "") then _ else _)
    as [[[err|zoneID] s1] t0] eqn:Hresolve.
  { left. case_decide; [|by simplify_eq].
    destruct (ZoneIDByName _ _) as [s r]. simplify_eq.
    intros c Hc. unfold calls in Hc. cbn [snd] in Hc.
    decompose_list_elem_of. eauto. }
  right.
  assert (Ht0 : ∀ c, c ∈ t0 → ∃ zoneName r, c = CallZoneIDByName zoneName r).
  { intros c Hc. case_decide.
    - destruct (ZoneIDByName _ _) as [s r]. simplify_eq.
      decompose_list_elem_of. eauto.
    - simplify_eq. by decompose_list_elem_of. }
  destruct (CreateLoadBalancer s1 zoneID lb) as [s2 answer] eqn:Hcreate.
  exists zoneID, lb, s2, answer, t0,
    match SetError (data w) "zone_id" with
    | Some _ => data w
    | None => with_string "zone_id" zoneID (data w)
    end.
  split; [exact Ht0|]. split; [by destruct (SetError _ _)|]. split.
  - intros ->. unfold Get_string. cbn [rd_strings with_string].
    by rewrite lookup_insert_eq.
  - destruct answer as [text|r]; [done|]. by case_decide.
Qed.

(** X13: when the creation call of Create fails, Create returns the remote
    error wrapped, the identifier of the resource is what it was, and no
    details lookup is made. *)
Theorem Create_creation_failure (w : World) (zoneID : string)
    (newLoadBalancer : LoadBalancer) (text : string) :
  CallCreateLoadBalancer zoneID newLoadBalancer (inl text)
    ∈ calls (resourceCloudflareLoadBalancerCreate w) →
  outcome (resourceCloudflareLoadBalancerCreate w)
    = Err (ErrWrap (ErrClient text) "error creating load balancer for zone") ∧
  rd_id (data (final (resourceCloudflareLoadBalancerCreate w))) = rd_id (data w) ∧
  ∀ z id r, CallLoadBalancerDetails z id r
              ∉ calls (resourceCloudflareLoadBalancerCreate w).
Proof.
  destruct (Create_cases w)
    as [Hlookups|(z & lb & s2 & answer & t0 & d' & Ht0 & Hid & _ & ->)].
  { intros (n & r & [=])%Hlookups. }
  destruct answer as [text'|r].
  - unfold calls, outcome, final. cbn [fst snd data]. intros Hcall.
    apply elem_of_app in Hcall as [(n & r & [=])%Ht0|Hcall].
    apply list_elem_of_singleton in Hcall. simplify_eq.
    split; [done|]. split; [done|].
    intros z' id r [(n & r' & [=])%Ht0|Hin]%elem_of_app.
    by apply list_elem_of_singleton in Hin.
  - case_decide.
    + unfold calls. cbn [snd]. intros Hcall.
      apply elem_of_app in Hcall as [(n & r' & [=])%Ht0|Hcall].
      by apply list_elem_of_singleton in Hcall.
    + pose proof (Read_calls
        {| data := with_id (ID r) d'; remote := s2; runtime := runtime w |})
        as [Hread _].
      destruct (resourceCloudflareLoadBalancerRead _) as [[r' w'] t'].
      unfold calls in *. cbn [snd] in *. subst t'. intros Hcall.
      apply elem_of_app in Hcall as [Hcall|Hcall].
      * apply elem_of_app in Hcall as [(n & r'' & [=])%Ht0|Hcall].
        by apply list_elem_of_singleton in Hcall.
      * by apply list_elem_of_singleton in Hcall.
Qed.

(** X14: when the creation call of Create succeeds with an object that has
    an identifier, Create looks the details of that identifier up and,
    however the lookup and the rest of Read end, the identifier of the
    resource is the new one -- unless the lookup failed with a text
    containing "HTTP status 404", when it is empty.  If the SDK accepted
    the write of [zone_id], the lookup is made in the zone the request was
    sent to, and [zone_id] holds that zone. *)
Theorem Create_records_created_id (w : World) (zoneID : string)
    (newLoadBalancer r : LoadBalancer) :
  CallCreateLoadBalancer zoneID newLoadBalancer (inr r)
    ∈ calls (resourceCloudflareLoadBalancerCreate w) →
  ID r ≠ "" →
  (∃ z answer,
     CallLoadBalancerDetails z (ID r) answer
       ∈ calls (resourceCloudflareLoadBalancerCreate w) ∧
     (SetError (data w) "zone_id" = None → z = zoneID) ∧
     (rd_id (data (final (resourceCloudflareLoadBalancerCreate w))) = ID r ∨
      rd_id (data (final (resourceCloudflareLoadBalancerCreate w))) = "" ∧
      ∃ text, answer = inl text ∧
              go_strings.Contains text "HTTP status 404" = true)) ∧
  (SetError (data w) "zone_id" = None →
   Get_string (data (final (resourceCloudflareLoadBalancerCreate w))) "zone_id"
     = zoneID).
Proof.
  destruct (Create_cases w)
    as [Hlookups|(z & lb & s2 & answer & t0 & d' & Ht0 & Hid & Hzone & ->)].
  { intros (n & r' & [=])%Hlookups. }
  assert (Hmine : ∀ (answer' : reply LoadBalancer),
            CallCreateLoadBalancer zoneID newLoadBalancer (inr r)
              ∈ t0 ++ [CallCreateLoadBalancer z lb answer'] →
            z = zoneID ∧ lb = newLoadBalancer ∧ answer' = inr r).
  { intros answer' [(n & r' & [=])%Ht0|Hin]%elem_of_app.
    apply list_elem_of_singleton in Hin. by simplify_eq. }
  destruct answer as [text|r0].
  { unfold calls. cbn [snd]. by intros (_ & _ & [=])%Hmine. }
  case_decide as Hid0.
  { unfold calls. cbn [snd]. intros (_ & _ & [= ->])%Hmine. done. }
  set (w2 := {| data := with_id (ID r0) d'; remote := s2; runtime := runtime w |}).
  pose proof (Read_calls w2) as [Hread _].
  pose proof (Read_id_cases w2) as Hcases.
  pose proof (Read_keeps_zone w2) as [_ Hkeep].
  destruct (resourceCloudflareLoadBalancerRead w2) as [[r' w'] t'].
  unfold calls, final in *. cbn [fst snd data remote rd_id with_id] in *.
  subst t'. intros Hcall Hnonempty.
  assert (z = zoneID ∧ r0 = r) as [-> ->].
  { apply elem_of_app in Hcall as [Hcall|Hcall].
    - apply Hmine in Hcall as (? & _ & [=]). done.
    - by apply list_elem_of_singleton in Hcall. }
  split.
  - eexists _, _. split; [apply elem_of_app; right; apply list_elem_of_here|].
    split.
    + intros Hacc. subst w2. unfold Get_string. cbn [data rd_strings with_id].
      by apply Hzone.
    + destruct Hcases as [->|[-> (s & text & Hfetch & H404)]]; [by left|].
      right. split; [done|]. exists text. split; [|done].
      exact (f_equal snd Hfetch).
  - intros Hacc. rewrite Hkeep. subst w2. unfold Get_string.
    cbn [data rd_strings with_id]. by apply Hzone.
Qed.

(** X15: Import hands over to Read.  When the identifier is
    [zoneName/id] with no [/] in [zoneName], the zone is found and the SDK
    accepts writes of [zone_id], a Read of the imported resource looks up
    the details of [id] in the zone that was found. *)
Theorem Read_after_Import_looks_up_imported (w : World) (zoneName id : string)
    (s : Remote) (zoneID : string) :
  go_strings.Contains zoneName "/" = false →
  rd_id (data w) = zoneName +:+ "/" +:+ id →
  ZoneIDByName (remote w) zoneName = (s, inr zoneID) →
  (∀ d, SetError d "zone_id" = None) →
  outcome (resourceCloudflareLoadBalancerImport w) = Ok () ∧
  calls (resourceCloudflareLoadBalancerRead
           (final (resourceCloudflareLoadBalancerImport w)))
    = [CallLoadBalancerDetails zoneID id (LoadBalancerDetails s zoneID id).2].
Proof.
  intros Hno Hid Hfound Hacc.
  rewrite Import_unfold, Hid.
  change (zoneName +:+ "/" +:+ id) with (zoneName +:+ String "/"%char id).
  rewrite SplitN_2_first by done. cbn zeta. rewrite Hfound, Hacc.
  split; [done|].
  change (final (Ok (), ?w1, ?t)) with w1.
  destruct (Read_calls
    {| data := with_id id
                 (with_string "zone_id" zoneID
                    match SetError (data w) "zone" with
                    | Some _ => data w
                    | None => with_string "zone" zoneName (data w)
                    end);
       remote := s; runtime := runtime w |}) as [Hcalls _].
  rewrite Hcalls. cbn [data remote rd_id with_id]. unfold Get_string.
  cbn [rd_strings with_id with_string]. by rewrite lookup_insert_eq.
Qed.

End MoreHandlers.

Section MoreSequences.
Context `{API : CloudflareAPI} `{RT : GoRuntime}.

(** X16: when the identifier is [zoneName/id] with no [/] in [zoneName]
    and the lookup of the zone fails, Import returns the lookup error
    under the name of the zone, having made that one call and written
    nothing. *)
Theorem Import_zone_lookup_failure (w : World) (zoneName id : string)
    (s : Remote) (text : string) :
  go_strings.Contains zoneName "/" = false →
  rd_id (data w) = zoneName +:+ "/" +:+ id →
  ZoneIDByName (remote w) zoneName = (s, inl text) →
  resourceCloudflareLoadBalancerImport w
    = (Err (ErrFindingZoneName zoneName (ErrClient text)),
       {| data := data w; remote := s; runtime := runtime w |},
       [CallZoneIDByName zoneName (inl text)]).
Proof.
  intros Hno Hid Hlost. rewrite Import_unfold, Hid.
  change (zoneName +:+ "/" +:+ id) with (zoneName +:+ String "/"%char id).
  rewrite SplitN_2_first by done. cbn zeta. by rewrite Hlost.
Qed.

(** X17: an Update whose request builds sends it once, to the zone of
    [zone_id].  If the remote system refuses, Update returns the error
    wrapped and has done nothing else.  If it accepts, Update ends as the
    Read that follows does, and that Read looks up the identifier the
    resource already had, in the same zone: the object in the answer of
    the modification is not used. *)
Theorem Update_sends_once_then_reads (w : World) (loadBalancer : LoadBalancer) :
  Update_loadBalancer (data w) = Ok loadBalancer →
  let zoneID := Get_string (data w) "zone_id" in
  let sent := ModifyLoadBalancer (remote w) zoneID loadBalancer in
  let after := {| data := data w; remote := sent.1; runtime := runtime w |} in
  match sent.2 with
  | inl text =>
      resourceCloudflareLoadBalancerUpdate w
        = (Err (ErrWrap (ErrClient text) "error creating load balancer for zone"),
           after, [CallModifyLoadBalancer zoneID loadBalancer (inl text)])
  | inr r =>
      calls (resourceCloudflareLoadBalancerUpdate w)
        = [CallModifyLoadBalancer zoneID loadBalancer (inr r);
           CallLoadBalancerDetails zoneID (rd_id (data w))
             (LoadBalancerDetails sent.1 zoneID (rd_id (data w))).2] ∧
      outcome (resourceCloudflareLoadBalancerUpdate w)
        = outcome (resourceCloudflareLoadBalancerRead after) ∧
      final (resourceCloudflareLoadBalancerUpdate w)
        = final (resourceCloudflareLoadBalancerRead after)
  end.
Proof.
  intros Hbuilt. cbn zeta. rewrite Update_unfold. cbn zeta. rewrite Hbuilt.
  destruct (ModifyLoadBalancer _ _ _) as [s [text|r]]; cbn [fst snd]; [done|].
  destruct (Read_calls
      {| data := data w; remote := s; runtime := runtime w |}) as [Hcalls _].
  cbn [data remote] in Hcalls.
  destruct (resourceCloudflareLoadBalancerRead _) as [[r' w'] t'].
  unfold calls, outcome, final in *. cbn [fst snd] in *. by subst t'.
Qed.

End MoreSequences.

(** * The further properties at sample inputs *)

(** X1 on the sample map, visited in reverse. *)
Lemma flattenGeoPools_records_are_entries_witness :
  (∀ item, item ∈ schema.List (@flattenGeoPools_in sample.externals
                                 sample.visit pop) →
           geoKey item = pop ∧
           sample.expanded !! location item = Some (pool_ids item)) ∧
  NoDup (location <$> schema.List (@flattenGeoPools_in sample.externals
                                     sample.visit pop)) ∧
  (schema.Len (@flattenGeoPools_in sample.externals sample.visit pop)
   ≤ size sample.expanded)%nat ∧
  schema.Len (@flattenGeoPools_in sample.externals sample.visit pop)
    = size sample.expanded.
Proof.
  destruct (@flattenGeoPools_records_are_entries sample.externals
              sample.expanded sample.visit pop)
    as (Hsound & Hnd & Hle & Hfree); [apply reverse_Permutation|].
  split; [exact Hsound|]. split; [exact Hnd|]. split; [exact Hle|].
  apply Hfree. apply (bool_decide_unpack _). vm_compute. exact I.
Defined.

(** X2 on the sample map, visited in reverse and flattened as pop pools:
    expanded as pop pools it comes back, expanded as region pools it
    panics. *)
Lemma expandGeoPools_of_flattened_witness :
  (∃ m, expandGeoPools (@flattenGeoPools_in sample.externals sample.visit pop) pop
          = Ok m ∧
        m ⊆ sample.expanded ∧
        (@collision_free sample.externals pop sample.expanded →
         m = sample.expanded)) ∧
  expandGeoPools (@flattenGeoPools_in sample.externals sample.visit pop) region
    = Panic.
Proof.
  destruct (@expandGeoPools_of_flattened sample.externals sample.expanded
              sample.visit pop region) as [Hsame Hother];
    [apply reverse_Permutation|].
  split; [exact Hsame|]. apply Hother; [discriminate|].
  apply (bool_decide_unpack _). vm_compute. exact I.
Defined.

(** X3 on two records for "LAX". *)
Lemma expandGeoPools_error_names_shared_location_witness :
  ∃ loc code1 code2 item1 item2,
    ErrDuplicateLocation pop "LAX" = ErrDuplicateLocation pop loc ∧
    code1 ≠ code2 ∧
    sample.pop_pools [sample.LAX_a; sample.LAX_b] !! code1 = Some item1 ∧
    sample.pop_pools [sample.LAX_a; sample.LAX_b] !! code2 = Some item2 ∧
    location item1 = loc ∧ location item2 = loc.
Proof.
  apply (expandGeoPools_error_names_shared_location
           (sample.pop_pools [sample.LAX_a; sample.LAX_b])
           pop (ErrDuplicateLocation pop "LAX")).
  vm_compute. reflexivity.
Defined.

(** X6 on the resource [lb-1]. *)
Lemma Read_populates_fields_witness :
  outcome (resourceCloudflareLoadBalancerRead accepting.present) = Ok () ∧
  Get_string (data (final (resourceCloudflareLoadBalancerRead accepting.present)))
    "name" = "lb.example.com" ∧
  Get_string (data (final (resourceCloudflareLoadBalancerRead accepting.present)))
    "created_on" = "1" ∧
  Get_set (data (final (resourceCloudflareLoadBalancerRead accepting.present)))
    "pop_pools"
    = @flattenGeoPools_in accepting.externals
        (reverse (map_to_list (PopPools accepting.reported))) pop ∧
  Get_set (data (final (resourceCloudflareLoadBalancerRead accepting.present)))
    "region_pools"
    = @flattenGeoPools_in accepting.externals
        (map_to_list (RegionPools accepting.reported)) region.
Proof.
  destruct (Read_populates_fields accepting.present (remote accepting.present)
              accepting.reported true 1 2 (λ _ _, eq_refl) eq_refl eq_refl
              eq_refl eq_refl)
    as (Hok & _ & Hname & _ & _ & _ & _ & _ & _ & _ & Hcr & _ & _ & Hpop
        & Hregion & _).
  split; [exact Hok|]. split; [exact Hname|]. split; [exact Hcr|].
  split; [exact Hpop|exact Hregion].
Defined.

(** X7 on the resource [lb-1], with a runtime that visits the pop pools
    in another order the second time. *)
Lemma Read_idempotent_witness :
  outcome (resourceCloudflareLoadBalancerRead
             (final (resourceCloudflareLoadBalancerRead accepting.present)))
    = Ok () ∧
  data (final (resourceCloudflareLoadBalancerRead
                 (final (resourceCloudflareLoadBalancerRead accepting.present))))
    = data (final (resourceCloudflareLoadBalancerRead accepting.present)).
Proof.
  apply (Read_idempotent accepting.present (remote accepting.present)
           (remote accepting.present) accepting.reported true 1 2);
    [exact (λ _ _, eq_refl)|reflexivity..| |];
    apply (bool_decide_unpack _); vm_compute; exact I.
Defined.

(** X8 on the resource [lb-1]. *)
Lemma Update_after_Read_resends_fetched_witness :
  ∃ loadBalancer : @LoadBalancer accepting.externals,
    Update_loadBalancer
      (data (final (resourceCloudflareLoadBalancerRead accepting.present)))
      = Ok loadBalancer ∧
    ID loadBalancer = "lb-1" ∧
    Name loadBalancer = "lb.example.com" ∧
    RegionPools loadBalancer = RegionPools accepting.reported ∧
    PopPools loadBalancer = PopPools accepting.reported.
Proof.
  destruct (Update_after_Read_resends_fetched accepting.present
              (remote accepting.present) accepting.reported true 1 2)
    as (lb & Hlb & HID & HName & _ & _ & _ & _ & _ & _ & _ & _ & HRegion & HPop).
  - exact (λ _ _, eq_refl).
  - reflexivity.
  - reflexivity.
  - reflexivity.
  - reflexivity.
  - apply (bool_decide_unpack _). vm_compute. exact I.
  - apply (bool_decide_unpack _). vm_compute. exact I.
  - exists lb. split; [exact Hlb|]. split; [exact HID|]. split; [exact HName|].
    split; [exact HRegion|exact HPop].
Defined.

(** X10 on a Read and an Update that meet a remote system out of order,
    and an Import without separator. *)
Lemma error_leaves_data_untouched_witness :
  data (final (resourceCloudflareLoadBalancerRead sample.failing))
    = data sample.failing ∧
  data (final (resourceCloudflareLoadBalancerUpdate sample.failing))
    = data sample.failing ∧
  data (final (resourceCloudflareLoadBalancerImport (sample.importing "abc123")))
    = data (sample.importing "abc123").
Proof.
  split; [|split].
  - eapply (proj1 (error_leaves_data_untouched sample.failing _)).
    vm_compute. reflexivity.
  - eapply (proj1 (proj2 (error_leaves_data_untouched sample.failing _))).
    vm_compute. reflexivity.
  - eapply (proj2 (proj2 (error_leaves_data_untouched
                            (sample.importing "abc123") _))).
    vm_compute. reflexivity.
Defined.

(** X11 on a configuration that names "LAX" twice in [pop_pools]. *)
Lemma duplicate_location_aborts_witness :
  resourceCloudflareLoadBalancerUpdate sample.duplicated
    = (Err (ErrDuplicateLocation pop "LAX"), sample.duplicated, []) ∧
  resourceCloudflareLoadBalancerCreate sample.duplicated
    = (Err (ErrDuplicateLocation pop "LAX"), sample.duplicated, []).
Proof.
  destruct (duplicate_location_aborts sample.duplicated
              (ErrDuplicateLocation pop "LAX")) as [HU HC].
  - right. split; [exists ∅|]; vm_compute; reflexivity.
  - split; [exact HU|]. apply HC. vm_compute. by intros [[=] _].
Defined.

(** X12 on a remote system that does not know the zone. *)
Lemma Create_zone_lookup_failure_witness :
  outcome (resourceCloudflareLoadBalancerCreate sample.named_lost)
    = Err (ErrFindingZone "example.com" (ErrClient "Zone could not be found")) ∧
  calls (resourceCloudflareLoadBalancerCreate sample.named_lost)
    = [CallZoneIDByName "example.com" (inl "Zone could not be found")] ∧
  data (final (resourceCloudflareLoadBalancerCreate sample.named_lost))
    = data sample.named_lost.
Proof.
  destruct (@Create_newLoadBalancer sample.externals (data sample.named_lost))
    as [lb|err|] eqn:Hbuilt; [|by vm_compute in Hbuilt..].
  apply (Create_zone_lookup_failure sample.named_lost lb
           (remote sample.named_lost) "Zone could not be found");
    [reflexivity|vm_compute; discriminate|exact Hbuilt|reflexivity].
Defined.

(** X13 on a creation call that fails. *)
Lemma Create_creation_failure_witness :
  outcome (resourceCloudflareLoadBalancerCreate sample.failing)
    = Err (ErrWrap (ErrClient "HTTP status 500")
             "error creating load balancer for zone") ∧
  rd_id (data (final (resourceCloudflareLoadBalancerCreate sample.failing)))
    = "lb-1" ∧
  ∀ z id r, CallLoadBalancerDetails z id r
              ∉ calls (resourceCloudflareLoadBalancerCreate sample.failing).
Proof.
  eapply (Create_creation_failure sample.failing "zone-1" _ "HTTP status 500").
  vm_compute. apply list_elem_of_here.
Defined.

(** X14 on a creation call answered with the identifier [lb-1]. *)
Lemma Create_records_created_id_witness :
  rd_id (data (final (resourceCloudflareLoadBalancerCreate sample.zoned))) = "lb-1" ∧
  Get_string (data (final (resourceCloudflareLoadBalancerCreate sample.zoned)))
    "zone_id" = "zone-1".
Proof.
  destruct (@Create_newLoadBalancer sample.externals (data sample.zoned))
    as [newLoadBalancer|err|] eqn:Hbuilt; [|by vm_compute in Hbuilt..].
  destruct (Create_records_created_id sample.zoned "zone-1" newLoadBalancer
              (sample.reported "lb-1" (Some true)))
    as [(z & answer & _ & _ & Hid) Hzone].
  - rewrite Create_unfold. cbn zeta. rewrite Hbuilt.
    vm_compute. apply list_elem_of_here.
  - vm_compute. discriminate.
  - split; [|exact (Hzone eq_refl)].
    destruct Hid as [Hid|[Hempty _]]; [exact Hid|].
    by vm_compute in Hempty.
Defined.

(** X15 on "myzone/abc123". *)
Lemma Read_after_Import_looks_up_imported_witness :
  outcome (resourceCloudflareLoadBalancerImport (sample.importing "myzone/abc123"))
    = Ok () ∧
  calls (resourceCloudflareLoadBalancerRead
           (final (resourceCloudflareLoadBalancerImport
                     (sample.importing "myzone/abc123"))))
    = [CallLoadBalancerDetails "zone-1" "abc123"
         (inr (sample.reported "lb-1" (Some true)))].
Proof.
  apply (Read_after_Import_looks_up_imported (sample.importing "myzone/abc123")
           "myzone" "abc123" (remote (sample.importing "myzone/abc123")) "zone-1");
    [reflexivity..|]. intros d. reflexivity.
Defined.

(** X16 on "myzone/abc123" and a remote system that does not know the
    zone. *)
Lemma Import_zone_lookup_failure_witness :
  resourceCloudflareLoadBalancerImport (sample.importing_lost "myzone/abc123")
    = (Err (ErrFindingZoneName "myzone" (ErrClient "Zone could not be found")),
       sample.importing_lost "myzone/abc123",
       [CallZoneIDByName "myzone" (inl "Zone could not be found")]).
Proof.
  apply (Import_zone_lookup_failure (sample.importing_lost "myzone/abc123")
           "myzone" "abc123" sample.lost "Zone could not be found");
    reflexivity.
Defined.

(** X17 on the resource [lb-1]. *)
Lemma Update_sends_once_then_reads_witness :
  ∃ loadBalancer,
    calls (resourceCloudflareLoadBalancerUpdate sample.present)
      = [CallModifyLoadBalancer "zone-1" loadBalancer
           (inr (sample.reported "lb-1" (Some true)));
         CallLoadBalancerDetails "zone-1" "lb-1"
           (inr (sample.reported "lb-1" (Some true)))].
Proof.
  destruct (@Update_loadBalancer sample.externals (data sample.present))
    as [loadBalancer|err|] eqn:Hbuilt; [|by vm_compute in Hbuilt..].
  exists loadBalancer.
  exact (proj1 (Update_sends_once_then_reads sample.present loadBalancer Hbuilt)).
Defined.

(** X18 on the resource [lb-1], reported without an enabled flag. *)
Lemma Read_panics_half_written_witness :
  outcome (resourceCloudflareLoadBalancerRead (accepting.known accepting.flagless))
    = Panic ∧
  Get_string (data (final (resourceCloudflareLoadBalancerRead
                             (accepting.known accepting.flagless)))) "name"
    = "lb.example.com" ∧
  rd_strings (data (final (resourceCloudflareLoadBalancerRead
                             (accepting.known accepting.flagless))))
    !! "description" = None.
Proof.
  rewrite (Read_panics_half_written (accepting.known accepting.flagless)
             (remote (accepting.known accepting.flagless)) accepting.flagless
             (λ _ _, eq_refl) eq_refl eq_refl).
  split; [reflexivity|]. split; vm_compute; reflexivity.
Defined.

(** X19 on the record made of the entry of "WNAM" for [region_pools]. *)
Lemma flattened_records_conform_witness :
  (∃ sch, resourceCloudflareLoadBalancer_Schema !! "region_pools" = Some sch ∧
          Type_ sch = TypeSet ∧
          Elem sch = Some (ElemResource regionPoolElem)) ∧
  dom (Resource_Schema regionPoolElem) = {[ "region"; "pool_ids" ]} ∧
  Type_ <$> Resource_Schema regionPoolElem !! "region" = Some TypeString ∧
  Type_ <$> Resource_Schema regionPoolElem !! "pool_ids" = Some TypeList.
Proof.
  apply (flattened_records_conform "region_pools" region [("WNAM", ["p1"])]
           (GeoConf region "WNAM" ["p1"])).
  - apply (bool_decide_unpack _). vm_compute. exact I.
  - vm_compute. apply list_elem_of_here.
Defined.
